(** * The navigation engine of the mathfield editor model

    A shallow embedding of [src/editor-model/commands.ts]: caret movement
    ([move]), word and boundary skipping ([skip], [wordBoundaryOffset]),
    vertical movement ([moveUpward], [moveDownward]), group selection
    ([selectGroup]), placeholder leap ([leap]) and the script commands
    ([moveToSuperscript], [moveToSubscript]).

    The commands file only consumes the atom tree and the model (classes
    [Atom] and [ModelPrivate], declared elsewhere in the repository).  The
    first part of this development models those two from the specification;
    the second part translates the commands themselves from the source. *)

From Stdlib Require Import ZArith Lia Ascii String.
From stdpp Require Import strings base option numbers list.

#[local] Set Warnings "-register-all".
#[local] Open Scope Z_scope.

(* ================================================================== *)
(** * Part I: the atom tree                                            *)
(* ================================================================== *)

(** The [type] tag of an atom.  The commands read ['mord'], ['mpunct'],
    ['mopen'], ['mclose'], ['msubsup'], ['placeholder'] and ['first']; the
    other tags stand for the remaining symbol classes of the specification. *)
Inductive AtomType :=
  | mord | mbin | mop | mrel | mopen | mclose | mpunct | minner
  | msubsup | placeholder | first | group | genfrac | surd
  | text_type | command_type | root_type.

#[global] Instance AtomType_eq_dec : EqDecision AtomType.
Proof. solve_decision. Defined.

Inductive Mode := math | text.

#[global] Instance Mode_eq_dec : EqDecision Mode.
Proof. solve_decision. Defined.

(** Branch names, listed in the order in which the flattening visits them. *)
Inductive BranchName := above | body | below | superscript | subscript.

#[global] Instance BranchName_eq_dec : EqDecision BranchName.
Proof. solve_decision. Defined.

Definition NAMED_BRANCHES : list BranchName :=
  [above; body; below; superscript; subscript].

(** The JavaScript class of an atom, as tested by [instanceof]. *)
Inductive AtomClass :=
  | PlainAtom
  | TextAtom
  | CommandAtom (isSuggestion : bool)
  | SubsupAtom (baseType : AtomType).

Inductive Limits := limits_ | auto | nolimits.

#[global] Instance Limits_eq_dec : EqDecision Limits.
Proof. solve_decision. Defined.

(** Modelled from the spec: the class [Atom] (its declaration is not part of
    the commands file).  An atom is a tagged node with a type, a mode, a
    value and a mapping from branch names to ordered child lists; a branch
    that was never created is [None]. *)
Inductive Atom : Type := MkAtom {
  type : AtomType;
  mode : Mode;
  value : string;
  class : AtomClass;
  captureSelection : bool;
  skipBoundary : bool;
  limits : option Limits;
  branches : BranchName -> option (list Atom)
}.

(** A leaf atom of the given type, mode and value. *)
Definition leaf (t : AtomType) (md : Mode) (v : string) (c : AtomClass) : Atom :=
  MkAtom t md v c false false None (fun _ => None).

Definition setBranch (a : Atom) (name : BranchName) (xs : list Atom) : Atom :=
  MkAtom (type a) (mode a) (value a) (class a) (captureSelection a)
         (skipBoundary a) (limits a)
         (fun b => if decide (b = name) then Some xs else branches a b).

Definition setClass (a : Atom) (c : AtomClass) : Atom :=
  MkAtom (type a) (mode a) (value a) c (captureSelection a)
         (skipBoundary a) (limits a) (branches a).

(** Nested induction over the tree: a property holds of every atom as soon
    as it is inherited from the atoms of every branch. *)
Definition Atom_tree_ind (P : Atom -> Prop)
    (step : forall a,
        (forall br xs, branches a br = Some xs -> Forall P xs) -> P a) :
  forall a, P a :=
  fix F (a : Atom) : P a :=
    step a (fun br xs =>
      match branches a br as o return o = Some xs -> Forall P xs with
      | Some ys => fun e =>
          match e in _ = o' return
                match o' with Some zs => Forall P zs | None => True end with
          | eq_refl =>
              (fix G (l : list Atom) : Forall P l :=
                 match l with
                 | [] => @List.Forall_nil Atom P
                 | y :: r => @List.Forall_cons Atom P y r (F y) (G r)
                 end) ys
          end
      | None => fun e =>
          match e in _ = o' return
                match o' with Some zs => Forall P zs | None => True end with
          | eq_refl => I
          end
      end).

(** ** Sizes and the flattening *)

(** A step of a path names a branch of the owner and an index in it.  A
    path lists the steps from the atom up to the root: its head is the
    atom's own place among its siblings, its tail is the path of the
    parent.  The root has the empty path. *)
Abbreviation Step := (BranchName * nat)%type (only parsing).
Abbreviation Path := (list (BranchName * nat)) (only parsing).

(** An atom met in the tree: where it is and what it is. *)
Record Loc := MkLoc { path : Path; node : Atom }.

(** Number of descendants of an atom. *)
Fixpoint size (a : Atom) : nat :=
  sum_list (map (fun br =>
     match branches a br with
     | None => 0%nat
     | Some xs => sum_list (map (fun x => S (size x)) xs)
     end) NAMED_BRANCHES).

Definition run_size (xs : list Atom) : nat :=
  sum_list (map (fun x => S (size x)) xs).

Definition branchSize (a : Atom) (br : BranchName) : nat :=
  match branches a br with
  | None => 0%nat
  | Some xs => run_size xs
  end.

(** Modelled from the spec: the depth-first, branch-order flattening.  Every
    atom occupies one slot, after the slots of its descendants, so that the
    offset of an atom is the caret position just after it.  The root itself
    has no slot. *)
Fixpoint descendants (pre : Path) (a : Atom) : list Loc :=
  flat_map (fun br =>
     match branches a br with
     | None => []
     | Some xs =>
        (fix sibs (i : nat) (xs : list Atom) : list Loc :=
           match xs with
           | [] => []
           | x :: r =>
               descendants ((br, i) :: pre) x
                 ++ MkLoc ((br, i) :: pre) x :: sibs (S i) r
           end) 0%nat xs
     end) NAMED_BRANCHES.

Fixpoint siblings (pre : Path) (br : BranchName) (i : nat) (xs : list Atom)
  : list Loc :=
  match xs with
  | [] => []
  | x :: r =>
      descendants ((br, i) :: pre) x
        ++ MkLoc ((br, i) :: pre) x :: siblings pre br (S i) r
  end.

Definition branchLocs (pre : Path) (a : Atom) (br : BranchName) : list Loc :=
  match branches a br with
  | None => []
  | Some xs => siblings pre br 0 xs
  end.

(** Total size of the branches that the flattening visits before [br]. *)
Fixpoint sizeBefore (names : list BranchName) (a : Atom) (br : BranchName)
  : nat :=
  match names with
  | [] => 0%nat
  | b :: r =>
      if decide (b = br) then 0%nat
      else (branchSize a b + sizeBefore r a br)%nat
  end.

(** [walk a p] follows [p], read from the root downwards, below [a]; it
    returns the atom reached and the number of slots that precede the
    slots of its descendants. *)
Fixpoint walk (a : Atom) (p : list Step) : option (nat * Atom) :=
  match p with
  | [] => Some (0%nat, a)
  | (br, i) :: q =>
      xs ← branches a br;
      x ← xs !! i;
      '(b, y) ← walk x q;
      Some ((sizeBefore NAMED_BRANCHES a br + run_size (take i xs) + b)%nat, y)
  end.

(** The slot of the atom at a path: the slots before its descendants, then
    its descendants, then itself. *)
Definition slot (r : Atom) (p : Path) : option nat :=
  match p with
  | [] => None
  | _ => '(b, y) ← walk r (rev p); Some (b + size y)%nat
  end.

Definition lookupPath (r : Atom) (p : Path) : option Loc :=
  '(_, y) ← walk r (rev p); Some (MkLoc p y).

(** Replace the atom at a path (read from the root downwards). *)
Fixpoint modify (f : Atom -> Atom) (p : list Step) (a : Atom) : Atom :=
  match p with
  | [] => f a
  | (br, i) :: q =>
      match branches a br with
      | None => a
      | Some xs =>
          match xs !! i with
          | None => a
          | Some x => setBranch a br (<[i := modify f q x]> xs)
          end
      end
  end.

(** Modelled from the spec: branch queries and lazy creation.  A branch
    always opens with a [first] sentinel, which creation puts there;
    creating a branch that exists changes nothing. *)
Definition branch (a : Atom) (name : BranchName) : option (list Atom) :=
  branches a name.

Definition makeFirstAtom (a : Atom) : Atom := leaf first (mode a) "" PlainAtom.

Definition createBranch (name : BranchName) (a : Atom) : Atom :=
  match branches a name with
  | Some _ => a
  | None => setBranch a name [makeFirstAtom a]
  end.

(** A branch is empty when it does not exist or holds its sentinel only. *)
Definition hasEmptyBranch (a : Atom) (name : BranchName) : bool :=
  match branches a name with
  | None => true
  | Some xs => bool_decide (length xs <= 1)%nat
  end.

(* ================================================================== *)
(** * Part II: the model                                               *)
(* ================================================================== *)

(** Modelled from the spec: the cursor state of [ModelPrivate].  Offsets are
    JavaScript numbers, hence integers that a command may drive out of
    range before it checks them. *)
Record Model := MkModel {
  root : Atom;
  position : Z;
  anchor : Z;
  suppressChangeNotifications : bool
}.

Definition atoms (m : Model) : list Loc := descendants [] (root m).

Definition lastOffset (m : Model) : Z := Z.of_nat (length (atoms m)) - 1.

(** Modelled from the spec: [at(offset)], which answers [None]
    (JavaScript's [undefined]) out of range. *)
Definition at_ (m : Model) (i : Z) : option Loc :=
  if decide (i < 0) then None else atoms m !! Z.to_nat i.

(** Modelled from the spec: [offsetOf(atom)], the slot of the atom, the
    inverse of [at]; -1 stands for an atom that is not in the tree. *)
Definition offsetOf (m : Model) (l : Loc) : Z :=
  match slot (root m) (path l) with
  | Some k => Z.of_nat k
  | None => -1
  end.

Definition locate (m : Model) (p : Path) : option Loc := lookupPath (root m) p.

(** Modelled from the spec: the structural queries of an atom ([parent],
    [leftSibling], [rightSibling], [firstSibling], [lastSibling],
    [isFirstSibling], [isLastSibling], [firstChild], [lastChild],
    [treeBranch], [treeDepth]).  They are read off the path of the atom. *)

Definition parent (m : Model) (l : Loc) : option Loc :=
  match path l with
  | [] => None
  | _ :: q => locate m q
  end.

Definition rightSibling (m : Model) (l : Loc) : option Loc :=
  match path l with
  | [] => None
  | (br, i) :: q => locate m ((br, S i) :: q)
  end.

Definition leftSibling (m : Model) (l : Loc) : option Loc :=
  match path l with
  | (br, S i) :: q => locate m ((br, i) :: q)
  | _ => None
  end.

Definition isFirstSibling (l : Loc) : bool :=
  match path l with
  | (_, O) :: _ => true
  | _ => false
  end.

Definition isLastSibling (m : Model) (l : Loc) : bool :=
  match rightSibling m l with
  | Some _ => false
  | None => true
  end.

Definition firstSibling (m : Model) (l : Loc) : option Loc :=
  match path l with
  | [] => None
  | (br, _) :: q => locate m ((br, O) :: q)
  end.

Definition lastSibling (m : Model) (l : Loc) : option Loc :=
  match path l with
  | [] => None
  | (br, _) :: q =>
      o ← locate m q;
      xs ← branches (node o) br;
      locate m ((br, pred (length xs)) :: q)
  end.

(** The first and the last slot among the descendants of an atom. *)
Definition firstChild (l : Loc) : option Loc :=
  head (descendants (path l) (node l)).

Definition lastChild (l : Loc) : option Loc :=
  last (descendants (path l) (node l)).

Definition treeBranch (l : Loc) : option BranchName :=
  match path l with
  | [] => None
  | (br, _) :: _ => Some br
  end.

(** Depth below the root's own branches: the atoms of the root have depth
    zero. *)
Definition treeDepth (l : Loc) : nat := pred (length (path l)).

(** Modelled from the spec: [getAllAtoms(offset)], the tail of the
    flattening from an offset on, in document order. *)
Definition getAllAtoms (m : Model) (from : Z) : list Loc :=
  drop (Z.to_nat from) (atoms m).

(** Tree updates at an atom.  The offset model is recomputed from the new
    tree: offsets taken before the update are those of the old one. *)
Definition updateAtom (f : Atom -> Atom) (l : Loc) (m : Model) : Model :=
  MkModel (modify f (rev (path l)) (root m)) (position m) (anchor m)
          (suppressChangeNotifications m).

(** Insert [x] just after the atom at [l] in the branch that holds it. *)
Definition insertAfter (x : Atom) (s : Step) (a : Atom) : Atom :=
  match branches a s.1 with
  | None => a
  | Some xs => setBranch a s.1 (take (S s.2) xs ++ x :: drop (S s.2) xs)
  end.

Definition addChildAfter (x : Atom) (l : Loc) (m : Model) : Model :=
  match path l with
  | [] => m
  | s :: q =>
      MkModel (modify (insertAfter x s) (rev q) (root m)) (position m)
              (anchor m) (suppressChangeNotifications m)
  end.

(** ** Cursor state *)

Definition setCursor (a p : Z) (m : Model) : Model :=
  MkModel (root m) p a (suppressChangeNotifications m).

(** The selection is collapsed when anchor and position coincide. *)
Definition collapsed (m : Model) : bool := bool_decide (anchor m = position m).

(** Modelled from the spec: [selectionIsPlaceholder], the selection covers
    exactly one atom, a placeholder. *)
Definition selectionIsPlaceholder (m : Model) : bool :=
  bool_decide (Z.abs (anchor m - position m) = 1)
  && match at_ m (Z.max (anchor m) (position m)) with
     | Some l => bool_decide (type (node l) = placeholder)
     | None => false
     end.

(** Modelled from the spec: [getMode(model, offset)] of the selection
    module, the mode of the atom at the offset. *)
Definition getMode (m : Model) (offset : Z) : option Mode :=
  mode ∘ node <$> at_ m offset.

(** ** Character classes of the regular expressions *)

Definition isDigit (c : ascii) : bool :=
  let n := nat_of_ascii c in bool_decide (48 <= n <= 57)%nat.

Definition isLetter (c : ascii) : bool :=
  let n := nat_of_ascii c in
  bool_decide (65 <= n <= 90)%nat || bool_decide (97 <= n <= 122)%nat.

(** The white space characters of one byte: U+0009 to U+000D and U+0020. *)
Definition isSpace (c : ascii) : bool :=
  let n := nat_of_ascii c in
  bool_decide (9 <= n <= 13)%nat || bool_decide (n = 32)%nat.

(** The white space characters of two and of three bytes.  Strings hold
    UTF-8, and the class [\s] of the regular expressions has, besides the
    characters of one byte, U+00A0 (C2 A0), U+1680 (E1 9A 80), U+2000 to
    U+200A (E2 80 80 to E2 80 8A), U+2028 and U+2029 (E2 80 A8, E2 80 A9),
    U+202F (E2 80 AF), U+205F (E2 81 9F), U+3000 (E3 80 80) and U+FEFF
    (EF BB BF). *)
Definition spaceOfTwo (c d : nat) : bool :=
  bool_decide (c = 194)%nat && bool_decide (d = 160)%nat.

Definition spaceOfThree (c d e : nat) : bool :=
  (bool_decide (c = 225)%nat && bool_decide (d = 154)%nat
   && bool_decide (e = 128)%nat)
  || (bool_decide (c = 226)%nat && bool_decide (d = 128)%nat
      && (bool_decide (128 <= e <= 138)%nat || bool_decide (e = 168)%nat
          || bool_decide (e = 169)%nat || bool_decide (e = 175)%nat))
  || (bool_decide (c = 226)%nat && bool_decide (d = 129)%nat
      && bool_decide (e = 159)%nat)
  || (bool_decide (c = 227)%nat && bool_decide (d = 128)%nat
      && bool_decide (e = 128)%nat)
  || (bool_decide (c = 239)%nat && bool_decide (d = 187)%nat
      && bool_decide (e = 191)%nat).

(** A white space character starts the string. *)
Definition startsWithSpace (s : string) : bool :=
  match s with
  | EmptyString => false
  | String c r =>
      isSpace c
      || match r with
         | EmptyString => false
         | String d r' =>
             spaceOfTwo (nat_of_ascii c) (nat_of_ascii d)
             || match r' with
                | EmptyString => false
                | String e _ =>
                    spaceOfThree (nat_of_ascii c) (nat_of_ascii d)
                                 (nat_of_ascii e)
                end
         end
  end.

(** [/\s/.test(s)]: a white space character starts somewhere in [s]. *)
Fixpoint hasSpace (s : string) : bool :=
  match s with
  | EmptyString => false
  | String _ r => startsWithSpace s || hasSpace r
  end.

(** [re.test(s)] for a one-character class: some character of [s] is in
    the class. *)
Fixpoint test (cls : ascii -> bool) (s : string) : bool :=
  match s with
  | EmptyString => false
  | String c r => cls c || test cls r
  end.

(** Modelled from the spec: the constant [LETTER_AND_DIGITS] of the
    definitions module, an alphanumeric class; here its ASCII part. *)
Definition LETTER_AND_DIGITS (c : ascii) : bool := isLetter c || isDigit c.

Definition isNumber (atom : option Loc) : bool :=
  match atom with
  | None => false
  | Some l =>
      (bool_decide (type (node l) = mord)
         && test (fun c => isDigit c || bool_decide (c = "."%char))
                 (value (node l)))
      || (bool_decide (type (node l) = mpunct)
         && bool_decide (value (node l) = ","))
  end.

(* ================================================================== *)
(** * Part III: effects                                                *)
(* ================================================================== *)

Inductive Direction := forward | backward | upward | downward.

#[global] Instance Direction_eq_dec : EqDecision Direction.
Proof. solve_decision. Defined.

(** What a command says to the announcer, and the focus it moves. *)
Inductive Announcement := Plonk | Move | MoveUp | MoveDown | Line.

Definition Element : Type := nat.

Inductive Event :=
  | Announce (kind : Announcement) (previousPosition : option Z)
  | Focus (e : Element).

#[global] Instance Announcement_eq_dec : EqDecision Announcement.
Proof. solve_decision. Defined.

#[global] Instance Event_eq_dec : EqDecision Event.
Proof. solve_decision. Defined.

(** The outcome of running a piece of the program: a value, an uncaught
    [TypeError] (a property of [undefined] was read, or [undefined] was
    handed to the offset model), or a loop that outlived its step budget. *)
Inductive Result (A : Type) :=
  | Ok (a : A)
  | TypeError
  | OutOfFuel.
Arguments Ok {A} a.
Arguments TypeError {A}.
Arguments OutOfFuel {A}.

#[global] Instance Result_ret : MRet Result := fun A a => Ok a.
#[global] Instance Result_bind : MBind Result := fun A B k r =>
  match r with
  | Ok a => k a
  | TypeError => TypeError
  | OutOfFuel => OutOfFuel
  end.

#[global] Instance Result_fmap : FMap Result := fun A B f r =>
  match r with
  | Ok a => Ok (f a)
  | TypeError => TypeError
  | OutOfFuel => OutOfFuel
  end.

(** A command runs on the model; it returns a value, the model it leaves and
    the events it emitted, oldest first. *)
Definition Cmd (A : Type) : Type := Model -> Result (A * Model * list Event).

#[global] Instance Cmd_ret : MRet Cmd := fun A a m => Ok (a, m, []).
#[global] Instance Cmd_bind : MBind Cmd := fun A B k c m =>
  match c m with
  | Ok (a, m', out) =>
      match k a m' with
      | Ok (b, m'', out') => Ok (b, m'', out ++ out')
      | TypeError => TypeError
      | OutOfFuel => OutOfFuel
      end
  | TypeError => TypeError
  | OutOfFuel => OutOfFuel
  end.

Definition getModel : Cmd Model := fun m => Ok (m, m, []).
Definition putModel (m' : Model) : Cmd unit := fun _ => Ok (tt, m', []).
Definition modifyModel (f : Model -> Model) : Cmd unit :=
  fun m => Ok (tt, f m, []).
Definition announce (k : Announcement) (prev : option Z) : Cmd unit :=
  fun m => Ok (tt, m, [Announce k prev]).
Definition focus (e : Element) : Cmd unit := fun m => Ok (tt, m, [Focus e]).
Definition throw {A} : Cmd A := fun _ => TypeError.
Definition outOfFuel {A} : Cmd A := fun _ => OutOfFuel.
Definition liftResult {A} (r : Result A) : Cmd A :=
  fun m => match r with
           | Ok a => Ok (a, m, [])
           | TypeError => TypeError
           | OutOfFuel => OutOfFuel
           end.

(** Reading a property of a value that may be [undefined]. *)
Definition defined {A} (o : option A) : Result A :=
  match o with
  | Some x => Ok x
  | None => TypeError
  end.

(** The events of an outcome, and whether a soft-fail is among them. *)
Definition plonked (out : list Event) : bool :=
  bool_decide (Announce Plonk None ∈ out).

(** ** Model methods with effects *)

(** Modelled from the spec: assigning [model.position] puts the caret
    there, anchor and position alike (a collapsed selection).  The commands
    assign the offset they computed without comparing it with [lastOffset];
    keeping [0 <= position, anchor <= lastOffset] is the business of the
    model class, whose code is not part of the commands file.  Here the
    offset is stored as the command computed it, also out of range. *)
Definition setPosition (p : Z) : Cmd unit := modifyModel (setCursor p p).

(** Modelled from the spec: [setSelection(anchor, position)]; it reports
    whether the selection changed.  As for [position], the two offsets are
    stored as the command computed them, also out of range. *)
Definition setSelection (a p : Z) : Cmd bool := fun m =>
  Ok (negb (bool_decide (anchor m = a /\ position m = p)), setCursor a p m, []).

(** Modelled from the spec: collapse the selection towards a direction;
    [false] when it was collapsed already. *)
Definition collapseSelection (direction : Direction) : Cmd bool := fun m =>
  if collapsed m then Ok (false, m, [])
  else
    let p := match direction with
             | backward => Z.min (anchor m) (position m)
             | _ => Z.max (anchor m) (position m)
             end in
    Ok (true, setCursor p p m, []).

(** [offsetOf] of a value that may be [undefined]: handing [undefined] to
    the offset model is a contract failure, which fails loudly. *)
Definition offsetOf_ (m : Model) (o : option Loc) : Result Z :=
  offsetOf m <$> defined o.

(** Modelled from the spec: the sibling span that contains an offset. *)
Definition getSiblingsRange (m : Model) (offset : Z) : Result (Z * Z) :=
  l ← defined (at_ m offset);
  s ← offsetOf_ m (firstSibling m l);
  e ← offsetOf_ m (lastSibling m l);
  mret (s, e).

(** Modelled from the spec: the span of a named branch of an atom. *)
Definition getBranchRange (m : Model) (offset : Z) (name : BranchName)
  : Result (Z * Z) :=
  l ← defined (at_ m offset);
  xs ← defined (branches (node l) name);
  s ← offsetOf_ m (locate m ((name, O) :: path l));
  e ← offsetOf_ m (locate m ((name, pred (length xs)) :: path l));
  mret (s, e).

(** ** The surroundings of the commands *)

(** What the commands take from outside their file: the host's hooks, the
    focus provider, the options of the mathfield, and the two model methods
    whose effect the commands only pass on. *)
Record Env := MkEnv {
  (** [hooks.moveOut(model, direction)] *)
  moveOut : Model -> Direction -> bool;
  (** [hooks.tabOut], which a host may leave undefined *)
  tabOut : option (Model -> Direction -> bool);
  (** [getTabbableElements()] and [document.activeElement] *)
  tabbableElements : list Element;
  activeElement : option Element;
  (** [mathfield.options.scriptDepth]: subscript and superscript bounds *)
  scriptDepth : Z * Z;
  (** [deleteRange(model, getCommandSuggestionRange(model))] *)
  deleteCommandSuggestion : Model -> Model;
  (** [model.extendSelection(direction)] *)
  extendSelection : Direction -> Model -> bool * Model;
  (** the direction of [model.collapseSelection()] without argument *)
  defaultDirection : Direction
}.

(* ================================================================== *)
(** * Part IV: the commands                                            *)
(* ================================================================== *)

(** ** Word boundaries *)

Definition isTextAtom (l : Loc) : bool :=
  match class (node l) with TextAtom => true | _ => false end.

Definition isCommandAtom (l : Loc) : bool :=
  match class (node l) with CommandAtom _ => true | _ => false end.

Definition isSuggestion (l : Loc) : bool :=
  match class (node l) with CommandAtom s => s | _ => false end.

Definition inText (l : Loc) : bool := bool_decide (mode (node l) = text).

Definition alnumText (l : Loc) : bool :=
  inText l && test LETTER_AND_DIGITS (value (node l)).

Definition spaceText (l : Loc) : bool :=
  inText l && hasSpace (value (node l)).

Definition nonSpaceText (l : Loc) : bool :=
  inText l && negb (hasSpace (value (node l))).

(** The loops of the commands take a budget of steps; every turn of a loop
    spends one, and a loop that needs a turn it cannot pay for ends the
    run with [OutOfFuel].  What is left of the budget is returned. *)

(** [while (model.at(i) && p(model.at(i))) i += dir] *)
Fixpoint skipWhile (fuel : nat) (m : Model) (p : Loc -> bool) (dir i : Z)
  : Result (Z * nat) :=
  match at_ m i with
  | Some l =>
      if p l then
        match fuel with
        | O => OutOfFuel
        | S f => skipWhile f m p dir (i + dir)
        end
      else Ok (i, fuel)
  | None => Ok (i, fuel)
  end.

(** [while (model.at(i) && match) { match = p(model.at(i)); i += dir }] *)
Fixpoint matchWhile (fuel : nat) (m : Model) (p : Loc -> bool) (dir i : Z)
    (matched : bool) : Result (Z * nat) :=
  match at_ m i with
  | Some l =>
      if matched then
        match fuel with
        | O => OutOfFuel
        | S f => matchWhile f m p dir (i + dir) (p l)
        end
      else Ok (i, fuel)
  | None => Ok (i, fuel)
  end.

(** [do { match = p(model.at(i)); i += dir } while (model.at(i) && match)] *)
Definition doMatchWhile (fuel : nat) (m : Model) (p : Loc -> bool) (dir i : Z)
  : Result (Z * nat) :=
  l ← defined (at_ m i);
  match fuel with
  | O => OutOfFuel
  | S f => matchWhile f m p dir (i + dir) (p l)
  end.

(** [model.at(i) ? i - 2 * dir : i - dir] *)
Definition landing (m : Model) (dir i : Z) : Z :=
  match at_ m i with
  | Some _ => i - 2 * dir
  | None => i - dir
  end.

Definition wordBoundaryOffset (fuel : nat) (m : Model) (offset : Z)
    (direction : Direction) : Result (Z * nat) :=
  l ← defined (at_ m offset);
  if negb (inText l) then Ok (offset, fuel)
  else
    let dir := match direction with backward => -1 | _ => 1 end in
    '(result, fuel') ←
      (if test LETTER_AND_DIGITS (value (node l)) then
         (* (1) We start with an alphanumerical character *)
         '(i, f) ← doMatchWhile fuel m alnumText dir offset;
         Ok (landing m dir i, f)
       else if hasSpace (value (node l)) then
         (* (2) We start with whitespace *)
         '(i, f) ← skipWhile fuel m spaceText dir offset;
         match at_ m i with
         | None => Ok (i - dir, f)
         | Some _ =>
             '(i', f') ← doMatchWhile f m nonSpaceText dir i;
             Ok (landing m dir i', f')
         end
       else
         (* (3): the stores to [result] before and inside the second loop
            are overwritten by the last one *)
         '(i, f) ← skipWhile fuel m nonSpaceText dir offset;
         '(i', f') ← matchWhile f m spaceText dir i true;
         Ok (landing m dir i', f'));
    Ok (result - (if decide (dir > 0) then 0 else 1), fuel').

(** ** Skipping *)

Definition typeOf (o : option Loc) : option AtomType := type ∘ node <$> o.

(** [atom.isSuggestion = false] *)
Definition clearSuggestion (l : Loc) (m : Model) : Model :=
  updateAtom (fun a => setClass a (CommandAtom false)) l m.

(** [while (atom && atom instanceof CommandAtom) { atom.isSuggestion = false;
    offset = model.offsetOf(atom); atom = atom.rightSibling; }] *)
Fixpoint acceptSuggestion (fuel : nat) (m : Model) (atom : option Loc)
    (offset : Z) : Result (Model * Z * nat) :=
  match atom with
  | Some l =>
      if isCommandAtom l then
        match fuel with
        | O => OutOfFuel
        | S f =>
            let m' := clearSuggestion l m in
            acceptSuggestion f m' (rightSibling m' l) (offsetOf m' l)
        end
      else Ok (m, offset, fuel)
  | None => Ok (m, offset, fuel)
  end.

Definition commandLetter (l : Loc) : bool :=
  test (fun c => isLetter c || bool_decide (c = "*"%char)) (value (node l)).

(** [while (atom && atom instanceof CommandAtom && /[a-zA-Z\*]/.test(atom.value))
    { offset = model.offsetOf(atom); atom = atom.rightSibling; }], and the
    same towards the left. *)
Fixpoint commandRun (fuel : nat) (m : Model) (next : Loc -> option Loc)
    (atom : option Loc) (offset : Z) : Result (Z * nat) :=
  match atom with
  | Some l =>
      if isCommandAtom l && commandLetter l then
        match fuel with
        | O => OutOfFuel
        | S f => commandRun f m next (next l) (offsetOf m l)
        end
      else Ok (offset, fuel)
  | None => Ok (offset, fuel)
  end.

Definition fenceLevel (l : Loc) (level : Z) : Z :=
  if decide (type (node l) = mopen) then level + 1
  else if decide (type (node l) = mclose) then level - 1
  else level.

(** [do { level += ..; atom = next(atom) } while (!edge(atom) && level !== 0)];
    the atom met after the last sibling is [undefined], and asking it for
    its edge throws. *)
Fixpoint balance (fuel : nat) (next : Loc -> option Loc) (edge : Loc -> bool)
    (atom : Loc) (level : Z) : Result (Loc * nat) :=
  match fuel with
  | O => OutOfFuel
  | S f =>
      let level' := fenceLevel atom level in
      atom' ← defined (next atom);
      if negb (edge atom') && negb (bool_decide (level' = 0))
      then balance f next edge atom' level'
      else Ok (atom', f)
  end.

(** [while (offset > 0 && atom.type === 'first') { offset -= 1;
    atom = model.at(offset); }] *)
Fixpoint leadingFirsts (fuel : nat) (m : Model) (atom : option Loc)
    (offset : Z) : Result (Z * nat) :=
  if decide (offset > 0) then
    l ← defined atom;
    if decide (type (node l) = first) then
      match fuel with
      | O => OutOfFuel
      | S f => leadingFirsts f m (at_ m (offset - 1)) (offset - 1)
      end
    else Ok (offset, fuel)
  else Ok (offset, fuel).

(** [while (offset >= 0 && nextType === type) { .. }] of the backward walk *)
Fixpoint sameTypeBackward (fuel : nat) (m : Model) (ty : AtomType)
    (offset : Z) (nextType : option AtomType) : Result (Z * nat) :=
  if bool_decide (offset >= 0) && bool_decide (nextType = Some ty) then
    match fuel with
    | O => OutOfFuel
    | S f =>
        offset' ←
          (if decide (typeOf (at_ m offset) = Some msubsup) then
             l ← defined (at_ m offset);
             offsetOf_ m (leftSibling m l)
           else Ok (offset - 1));
        l' ← defined (at_ m offset');
        sameTypeBackward f m ty offset' (Some (type (node l')))
    end
  else Ok (offset, fuel).

(** [while (model.at(offset).rightSibling?.type === 'msubsup')
    offset = model.offsetOf(model.at(offset).rightSibling);] *)
Fixpoint overScripts (fuel : nat) (m : Model) (offset : Z)
  : Result (Z * nat) :=
  l ← defined (at_ m offset);
  if decide (typeOf (rightSibling m l) = Some msubsup) then
    match fuel with
    | O => OutOfFuel
    | S f =>
        offset' ← offsetOf_ m (rightSibling m l);
        overScripts f m offset'
    end
  else Ok (offset, fuel).

(** [while (offset <= lastOffset && (nextType === type ||
    nextType === 'msubsup')) { (the loop above); offset += 1;
    nextType = model.at(offset)?.type; }].  The budget [fuel] is shared with
    the inner loop; [gas] only bounds the turns of this loop for the
    recursion, and starts equal to the budget. *)
Fixpoint sameTypeForward (gas fuel : nat) (m : Model) (ty : AtomType)
    (offset : Z) (nextType : option AtomType) : Result (Z * nat) :=
  if bool_decide (offset <= lastOffset m)
     && (bool_decide (nextType = Some ty)
         || bool_decide (nextType = Some msubsup)) then
    match gas, fuel with
    | S g, S f =>
        '(offset', f') ← overScripts f m offset;
        sameTypeForward g f' m ty (offset' + 1) (typeOf (at_ m (offset' + 1)))
    | _, _ => OutOfFuel
    end
  else Ok (offset, fuel).

(** The atom next to the caret on the side of the skip. *)
Definition skipFrom (m : Model) (direction : Direction)
  : Result (option Loc) :=
  let atom := at_ m (position m) in
  if decide (direction = forward) then
    a ← defined atom;
    if decide (type (node a) = msubsup) then
      match rightSibling m a with
      | Some r => Ok (Some r)
      | None => Ok (at_ m (position m + 1))
      end
    else Ok (at_ m (position m + 1))
  else Ok atom.

(** The offset that the skip aims at; [None] when the command gave up with
    a soft-fail (the two [return false] in a command zone). *)
Definition skipTarget (fuel : nat) (direction : Direction) (atom : Loc)
  : Cmd (option Z) :=
  m ← getModel;
  let offset := offsetOf m atom in
  if isTextAtom atom then
    (* We're in a text zone, skip word by word *)
    '(o, _) ← liftResult (wordBoundaryOffset fuel m offset direction);
    mret (Some o)
  else if isCommandAtom atom then
    (* We're in a command zone, skip suggestion *)
    if isSuggestion atom then
      '(m', o, _) ← liftResult (acceptSuggestion fuel m (Some atom) offset);
      _ ← putModel m';
      mret (Some o)
    else
      let next := if decide (direction = forward)
                  then rightSibling m else leftSibling m in
      match next atom with
      | Some a =>
          if isCommandAtom a then
            '(o, _) ← liftResult (commandRun fuel m next (Some a) offset);
            mret (Some o)
          else _ ← announce Plonk None; mret None
      | None => _ ← announce Plonk None; mret None
      end
  else if decide (direction = forward /\ type (node atom) = mopen) then
    (* Right before a 'mopen', skip to the corresponding balanced fence *)
    '(a, _) ← liftResult
      (balance fuel (rightSibling m) (isLastSibling m) atom 0);
    o ← liftResult (offsetOf_ m (leftSibling m a));
    mret (Some o)
  else if decide (direction = backward /\ type (node atom) = mclose) then
    (* Right after a 'mclose', skip to the corresponding balanced fence *)
    '(a, _) ← liftResult (balance fuel (leftSibling m) isFirstSibling atom 0);
    mret (Some (offsetOf m a))
  else if decide (direction = backward) then
    if decide (type (node atom) = first) then
      '(o, _) ← liftResult (leadingFirsts fuel m (Some atom) offset);
      mret (Some o)
    else
      let ty := match class (node atom) with
                | SubsupAtom baseType => baseType
                | _ => type (node atom)
                end in
      offset1 ← liftResult
        (if decide (type (node atom) = msubsup) then
           (* If we're after a 'msubsup', skip to its left sibling *)
           l ← defined (at_ m offset);
           offsetOf_ m (leftSibling m l)
         else Ok offset);
      let offset2 := offset1 - 1 in
      '(o, _) ← liftResult
        (sameTypeBackward fuel m ty offset2 (typeOf (at_ m offset2)));
      mret (Some o)
  else
    '(o, _) ← liftResult
      (sameTypeForward fuel fuel m (type (node atom)) offset
                       (typeOf (at_ m offset)));
    mret (Some (o - 1)).

Definition skip (fuel : nat) (direction : Direction) (extend : bool)
  : Cmd bool :=
  m0 ← getModel;
  let previousPosition := position m0 in
  _ ← (if negb extend then collapseSelection direction else mret false);
  m ← getModel;
  atom ← liftResult (skipFrom m direction);
  match atom with
  | None => _ ← announce Plonk None; mret false
  | Some atom =>
      target ← skipTarget fuel direction atom;
      match target with
      | None => mret false
      | Some offset =>
          m ← getModel;
          if extend then
            changed ← setSelection (anchor m) offset;
            if negb changed then _ ← announce Plonk None; mret false
            else _ ← announce Move (Some previousPosition); mret true
          else if decide (offset = position m) then
            _ ← announce Plonk None; mret false
          else
            _ ← setPosition offset;
            _ ← announce Move (Some previousPosition);
            mret true
      end
  end.

(** ** Group selection *)

(** [while (!done && start > 0) ..], from [start = n] *)
Fixpoint wordStart (m : Model) (n : nat) : Result Z :=
  match n with
  | O => Ok 0
  | S n' =>
      l ← defined (at_ m (Z.of_nat n));
      if alnumText l then wordStart m n' else Ok (Z.of_nat n)
  end.

(** [while (!done && end <= model.lastOffset) ..]; [n] is the distance of
    [end] to the offset after the last one.  Returns [end] and [done]. *)
Fixpoint wordEnd (m : Model) (n : nat) (end_ : Z) : Result (Z * bool) :=
  match n with
  | O => Ok (end_, false)
  | S n' =>
      l ← defined (at_ m end_);
      if alnumText l then wordEnd m n' (end_ + 1) else Ok (end_, true)
  end.

(** [while (isNumber(model.at(start))) start -= 1], from [start = n - 1] *)
Fixpoint numberStart (m : Model) (n : nat) : Z :=
  match n with
  | O => -1
  | S n' =>
      if isNumber (at_ m (Z.of_nat n')) then numberStart m n'
      else Z.of_nat n'
  end.

(** [while (isNumber(model.at(end))) end += 1]; [n] as in [wordEnd] *)
Fixpoint numberEnd (m : Model) (n : nat) (end_ : Z) : Z :=
  match n with
  | O => end_
  | S n' => if isNumber (at_ m end_) then numberEnd m n' (end_ + 1) else end_
  end.

Definition selectGroup : Cmd bool :=
  m ← getModel;
  if decide (getMode m (position m) = Some text) then
    let start := Z.min (anchor m) (position m) in
    let end_ := Z.max (anchor m) (position m) in
    start ← liftResult
      (if decide (start > 0) then wordStart m (Z.to_nat start) else Ok start);
    '(end_, done) ← liftResult
      (wordEnd m (Z.to_nat (lastOffset m + 1 - end_)) end_);
    let end_ := if done : bool then end_ - 1 else end_ in
    if decide (start >= end_) then
      (* No word found. Select a single character *)
      _ ← setSelection (end_ - 1) end_;
      mret true
    else
      _ ← setSelection start end_;
      mret true
  else
    let atom := at_ m (position m) in
    if isNumber atom then
      let start := Z.min (anchor m) (position m) in
      let end_ := Z.max (anchor m) (position m) in
      let start :=
        if decide (start < 0) then start
        else numberStart m (S (Z.to_nat start)) in
      let end_ := numberEnd m (Z.to_nat (lastOffset m + 1 - end_)) end_ in
      _ ← setSelection start (end_ - 1);
      mret true
    else
      a ← liftResult (defined atom);
      s ← liftResult (offsetOf_ m (firstSibling m a));
      e ← liftResult (offsetOf_ m (lastSibling m a));
      _ ← setSelection s e;
      mret true.

Section Commands.

Context (env : Env).

(** [let result = true; if (!model.suppressChangeNotifications)
    result = model.hooks?.moveOut(model, direction);] *)
Definition consultMoveOut (m : Model) (direction : Direction) : bool :=
  if suppressChangeNotifications m then true else moveOut env m direction.

(** ** Vertical movement *)

(** [while (atom && atom.treeBranch !== name) atom = atom.parent]; the
    number of ancestors bounds the walk. *)
Fixpoint ancestorInBranch (n : nat) (m : Model) (name : BranchName)
    (atom : option Loc) : option Loc :=
  match atom with
  | None => None
  | Some l =>
      if decide (treeBranch l = Some name) then Some l
      else
        match n with
        | O => None
        | S n' => ancestorInBranch n' m name (parent m l)
        end
  end.

Definition nearestInBranch (m : Model) (name : BranchName)
    (atom : option Loc) : option Loc :=
  ancestorInBranch (from_option (length ∘ path) O atom) m name atom.

(** [moveUpward] and [moveDownward] are the same function up to the
    direction of the collapse, the branch looked for among the ancestors
    ([from]), the branch moved to ([to]), the announcement and the direction
    handed to the hook. *)
Definition moveVertically (collapseTo : Direction) (from to : BranchName)
    (kind : Announcement) (direction : Direction) (extend : bool)
  : Cmd bool :=
  _ ← collapseSelection collapseTo;
  m ← getModel;
  (* Find a target branch *)
  match nearestInBranch m from (at_ m (position m)) with
  | Some atom =>
      owner ← liftResult (defined (parent m atom));
      _ ← (if extend then
             a ← liftResult (offsetOf_ m (leftSibling m owner));
             _ ← setSelection a (offsetOf m owner);
             mret tt
           else
             (* If branch doesn't exist, create it *)
             _ ← modifyModel (updateAtom (createBranch to) owner);
             m' ← getModel;
             o ← liftResult (defined (locate m' (path owner)));
             xs ← liftResult (defined (branch (node o) to));
             (* Move to the last atom of the branch *)
             p ← liftResult
               (offsetOf_ m' (locate m' ((to, pred (length xs)) :: path o)));
             setPosition p);
      _ ← announce kind None;
      mret true
  | None =>
      here ← liftResult (defined (at_ m (position m)));
      match parent m here ≫= parent m with
      | None =>
          let result := consultMoveOut m direction in
          _ ← announce (if result then Plonk else Line) None;
          mret result
      | Some _ => mret true
      end
  end.

Definition moveUpward (extend : bool) : Cmd bool :=
  moveVertically backward below above MoveUp upward extend.

Definition moveDownward (extend : bool) : Cmd bool :=
  moveVertically forward above below MoveDown downward extend.

(** ** Character movement *)

(** The candidate offset of a forward or backward move: one step, corrected
    at a capture-selection or skip-boundary atom. *)
Definition moveCandidate (m : Model) (direction : Direction) : Result Z :=
  let pos := position m + (if decide (direction = forward) then 1 else -1) in
  if decide (direction = forward) then
    let atom := at_ m (position m + 1) in
    match atom ≫= parent m with
    | Some owner =>
        if captureSelection (node owner) then
          (* When going forward, if in a capture selection, jump to after *)
          k ← offsetOf_ m (lastChild owner); Ok (k + 1)
        else if from_option (skipBoundary ∘ node) false atom then Ok (pos + 1)
        else Ok pos
    | None =>
        if from_option (skipBoundary ∘ node) false atom then Ok (pos + 1)
        else Ok pos
    end
  else if decide (direction = backward) then
    let atom := at_ m (position m - 1) in
    match atom ≫= parent m with
    | Some owner =>
        if captureSelection (node owner) then
          (* When going backward, if in a capture selection, jump to before *)
          k ← offsetOf_ m (firstChild owner); Ok (Z.max 0 (k - 1))
        else if from_option isFirstSibling false atom
                && skipBoundary (node owner) then Ok (pos - 1)
        else Ok pos
    | None => Ok pos
    end
  else Ok pos.

(** Steps 2 and 3 of [move], for a caret that is about to go to [pos]:
    leave the document, select a placeholder, or put the caret there. *)
Definition stepCaret (direction : Direction) (previousPosition : Z)
  : Cmd bool :=
  m ← getModel;
  (* 1. Handle `captureSelection` and `skipBoundary` *)
  pos ← liftResult (moveCandidate m direction);
  if decide (pos < 0 \/ pos > lastOffset m) then
    (* 2. We're going out of bounds *)
    let result := consultMoveOut m direction in
    _ ← (if result then announce Plonk None else mret tt);
    mret result
  else
    (* 3. Handle placeholder *)
    _ ← (if decide (typeOf (at_ m pos) = Some placeholder) then
           (* We're going right of a placeholder: select it *)
           _ ← setSelection (pos - 1) pos; mret tt
         else if decide (typeOf (at_ m pos ≫= rightSibling m)
                         = Some placeholder) then
           (* We're going left of a placeholder: select it *)
           _ ← setSelection pos (pos + 1); mret tt
         else setPosition pos);
    _ ← announce Move (Some previousPosition);
    mret true.

(** [move]; the budget [depth] pays for the call of [move] by itself. *)
Fixpoint move (depth : nat) (direction : Direction) (extend : bool)
  : Cmd bool :=
  _ ← modifyModel (deleteCommandSuggestion env);
  if decide (direction = upward) then moveUpward extend
  else if decide (direction = downward) then moveDownward extend
  else
    (m ← getModel;
    let previousPosition := position m in
    if extend then
      (fun m => Ok (extendSelection env direction m, [])) : Cmd bool
    else if selectionIsPlaceholder m then
      _ ← collapseSelection direction;
      match depth with
      | O => outOfFuel
      | S d => move d direction false
      end
    else
      wasRange ← collapseSelection direction;
      if wasRange : bool then
        _ ← announce Move (Some previousPosition);
        mret true
      else stepCaret direction previousPosition) : Cmd bool.

(** ** Placeholder leap *)

(** [tabbable.indexOf(element)] *)
Fixpoint indexOf (e : Element) (l : list Element) : Z :=
  match l with
  | [] => -1
  | x :: r =>
      if decide (x = e) then 0
      else let k := indexOf e r in if decide (k < 0) then -1 else k + 1
  end.

(** A candidate of the leap: a placeholder, or the only atom of a branch
    below the root's. *)
Definition leapCandidate (m : Model) (atom : Loc) : bool :=
  bool_decide (type (node atom) = placeholder)
  || (bool_decide (0 < treeDepth atom)%nat
      && isFirstSibling atom && isLastSibling m atom).

(** The candidates of a leap from the caret of [m], nearest first. *)
Definition leapCandidates (m : Model) (dir : Direction) : list Loc :=
  let dist := if decide (dir = forward) then 1 else -1 in
  let atoms := getAllAtoms m (position m + dist) in
  let atoms := if decide (dir = backward) then reverse atoms else atoms in
  List.filter (leapCandidate m) atoms.

(** The index of the element that takes the focus: the next or previous
    one, cyclically. *)
Definition nextIndex (tabbable : list Element) (active : Element) (dist : Z)
  : Z :=
  let index := indexOf active tabbable + dist in
  let index :=
    if decide (index < 0) then Z.of_nat (length tabbable) - 1 else index in
  if decide (index >= Z.of_nat (length tabbable)) then 0 else index.

(** The default handling of a leap without target: move the focus to the
    next focusable element of the document. *)
Definition tabToNext (dist : Z) : Cmd bool :=
  let tabbable := tabbableElements env in
  match activeElement env with
  | None => _ ← announce Plonk None; mret false
  | Some active =>
      if decide (length tabbable = 1%nat) then
        _ ← announce Plonk None; mret false
      else
        let index := nextIndex tabbable active dist in
        e ← liftResult
          (defined (if decide (index < 0) then None
                    else tabbable !! Z.to_nat index));
        _ ← focus e;
        if decide (index = 0) then _ ← announce Plonk None; mret false
        else mret true
  end.

(** The first statement of [leap]: a leap that starts on a placeholder
    first moves past it. *)
Definition leapStart (depth : nat) (dir : Direction) : Cmd unit :=
  m ← getModel;
  a ← liftResult (defined (at_ m (anchor m)));
  if decide (type (node a) = placeholder) then
    (* If we're already at a placeholder, move by one more *)
    _ ← move depth dir false; mret tt
  else mret tt.

(** [model.hooks.tabOut?.(model, dir)], read as a condition *)
Definition consultTabOut (m : Model) (dir : Direction) : bool :=
  match tabOut env with
  | Some hook => hook m dir
  | None => false
  end.

Definition leap (depth : nat) (dir : Direction) (callHooks : bool)
  : Cmd bool :=
  let dist := if decide (dir = forward) then 1 else -1 in
  _ ← leapStart depth dir;
  m ← getModel;
  match leapCandidates m dir with
  | [] =>
      (* No placeholders were found: call handler or move to the next
         focusable element in the document *)
      let handled := negb callHooks || negb (consultTabOut m dir) in
      if handled then _ ← announce Plonk None; mret false
      else tabToNext dist
  | target :: _ =>
      (* Set the selection to the next placeholder *)
      let previousPosition := position m in
      let newPosition := offsetOf m target in
      _ ← (if decide (type (node target) = placeholder) then
             _ ← setSelection (newPosition - 1) newPosition; mret tt
           else setPosition newPosition);
      _ ← announce Move (Some previousPosition);
      mret true
  end.

(** ** Superscript and subscript *)

(** The loop of [superscriptDepth] ([super = true]) and of [subscriptDepth]
    ([super = false]): count the ancestors that carry a script, and remember
    the kind of the outermost one met. *)
Fixpoint scriptNesting (n : nat) (m : Model) (super : bool)
    (atom : option Loc) (result : Z) (was : bool) : Z * bool :=
  match atom with
  | None => (result, was)
  | Some l =>
      let noSup := hasEmptyBranch (node l) superscript in
      let noSub := hasEmptyBranch (node l) subscript in
      let result' := if negb noSup || negb noSub then result + 1 else result in
      let was' := if negb noSup then super
                  else if negb noSub then negb super
                  else was in
      match n with
      | O => (result', was')
      | S n' => scriptNesting n' m super (parent m l) result' was'
      end
  end.

Definition nestingAt (m : Model) (super : bool) : Z :=
  let atom := at_ m (position m) in
  let '(result, was) :=
    scriptNesting (from_option (length ∘ path) O atom) m super atom 0 false in
  if was then result else 0.

Definition superscriptDepth (m : Model) : Z := nestingAt m true.
Definition subscriptDepth (m : Model) : Z := nestingAt m false.

(** The body shared by [moveToSuperscript] and [moveToSubscript]; they
    differ in the branch, the depth they bound and the atom they add. *)
Definition moveToScript (name : BranchName) (depthOf : Model -> Z)
    (bound : Z) (newAtom : Loc -> Atom) : Cmd bool :=
  _ ← collapseSelection (defaultDirection env);
  m ← getModel;
  if decide (depthOf m >= bound) then
    _ ← announce Plonk None; mret false
  else
    target ← liftResult (defined (at_ m (position m)));
    target ←
      (if decide (limits (node target) ≠ Some limits_
                  /\ limits (node target) ≠ Some auto) then
         (* This atom can't have a superscript/subscript:
            add an adjacent `msubsup` atom instead. *)
         _ ← (if decide (typeOf (at_ m (position m + 1)) ≠ Some msubsup) then
                _ ← liftResult (defined (parent m target));
                modifyModel (addChildAfter (newAtom target) target)
              else mret tt);
         m' ← getModel;
         liftResult (defined (at_ m' (position m' + 1)))
       else mret target);
    (* Ensure there is a branch *)
    _ ← modifyModel (updateAtom (createBranch name) target);
    m' ← getModel;
    s ← liftResult (offsetOf_ m' (locate m' ((name, O) :: path target)));
    '(a, p) ← liftResult (getSiblingsRange m' s);
    _ ← setSelection a p;
    mret true.

(** U+200B, the value of the atom that [moveToSubscript] adds *)
Definition zeroWidthSpace : string :=
  String (ascii_of_nat 226) (String (ascii_of_nat 128)
    (String (ascii_of_nat 139) EmptyString)).

Definition moveToSuperscript : Cmd bool :=
  moveToScript superscript superscriptDepth (scriptDepth env).2
    (fun target =>
       MkAtom msubsup math "" (SubsupAtom (type (node target)))
              false false None (fun _ => None)).

Definition moveToSubscript : Cmd bool :=
  moveToScript subscript subscriptDepth (scriptDepth env).1
    (fun target => leaf msubsup (mode (node target)) zeroWidthSpace PlainAtom).

(** ** The registered commands *)

Definition moveAfterParent : Cmd bool :=
  m ← getModel;
  let previousPosition := position m in
  here ← liftResult (defined (at_ m previousPosition));
  match parent m here with
  | None => _ ← announce Plonk None; mret false
  | Some owner =>
      _ ← setPosition (offsetOf m owner);
      _ ← announce Move (Some previousPosition);
      mret true
  end.

Definition moveBeforeParent : Cmd bool :=
  m ← getModel;
  here ← liftResult (defined (at_ m (position m)));
  match parent m here with
  | None => _ ← announce Plonk None; mret false
  | Some owner => _ ← setPosition (offsetOf m owner); mret true
  end.

Definition opposite (relation : BranchName) : option BranchName :=
  match relation with
  | superscript => Some subscript
  | subscript => Some superscript
  | above => Some below
  | below => Some above
  | body => None
  end.

Definition moveToOpposite : Cmd bool :=
  m ← getModel;
  cursor ← liftResult (defined (at_ m (position m)));
  match parent m cursor with
  | None => _ ← announce Plonk None; mret false
  | Some owner =>
      match treeBranch cursor ≫= opposite with
      | None =>
          match limits (node cursor) with
          | None => moveToSuperscript
          | Some _ => moveToSubscript
          end
      | Some oppositeRelation =>
          (* Don't have children of the opposite relation yet: add them *)
          _ ← modifyModel (updateAtom (createBranch oppositeRelation) owner);
          m' ← getModel;
          '(a, p) ← liftResult
            (getBranchRange m' (offsetOf m' owner) oppositeRelation);
          setSelection a p
      end
  end.

(** [moveToGroupStart] and [moveToGroupEnd] *)
Definition moveToGroupEdge (edge : Model -> Loc -> option Loc) : Cmd bool :=
  m ← getModel;
  here ← liftResult (defined (at_ m (position m)));
  pos ← liftResult (offsetOf_ m (edge m here));
  if decide (pos = position m) then _ ← announce Plonk None; mret false
  else _ ← setPosition pos; mret true.

Definition moveToGroupStart : Cmd bool := moveToGroupEdge firstSibling.
Definition moveToGroupEnd : Cmd bool := moveToGroupEdge lastSibling.

Definition moveToMathFieldStart : Cmd bool :=
  m ← getModel;
  if decide (position m = 0) then _ ← announce Plonk None; mret false
  else _ ← setPosition 0; mret true.

Definition moveToMathFieldEnd : Cmd bool :=
  m ← getModel;
  if decide (position m = lastOffset m) then
    _ ← announce Plonk None; mret false
  else _ ← setPosition (lastOffset m); mret true.

(** [const result = ..; if (!result) model.announce('plonk'); return result] *)
Definition orPlonk (c : Cmd bool) : Cmd bool :=
  result ← c;
  _ ← (if negb result then announce Plonk None else mret tt);
  mret result.

(** The command registered under the name [selectGroup]. *)
Definition selectGroupCommand : Cmd bool := orPlonk selectGroup.

Definition selectAll : Cmd bool :=
  m ← getModel; setSelection 0 (lastOffset m).

Definition extendSelectionForward : Cmd bool :=
  orPlonk (fun m => Ok (extendSelection env forward m, [])).

Definition extendSelectionBackward : Cmd bool :=
  orPlonk (fun m => Ok (extendSelection env backward m, [])).

Definition extendToGroupEdge (edge : Model -> Loc -> option Loc) : Cmd bool :=
  orPlonk (m ← getModel;
           here ← liftResult (defined (at_ m (position m)));
           pos ← liftResult (offsetOf_ m (edge m here));
           setSelection (anchor m) pos).

Definition extendToGroupStart : Cmd bool := extendToGroupEdge firstSibling.
Definition extendToGroupEnd : Cmd bool := extendToGroupEdge lastSibling.

Definition extendToMathFieldStart : Cmd bool :=
  orPlonk (m ← getModel; setSelection (anchor m) 0).

Definition extendToMathFieldEnd : Cmd bool :=
  orPlonk (m ← getModel; setSelection (anchor m) (lastOffset m)).

End Commands.

(** ** The remaining registered commands *)

(** The commands that only name a call of [leap], [move] or [skip]. *)
Section Registered.

Context (env : Env).

Definition moveToNextPlaceholder (depth : nat) : Cmd bool :=
  leap env depth forward true.
Definition moveToPreviousPlaceholder (depth : nat) : Cmd bool :=
  leap env depth backward true.
Definition moveToNextChar (depth : nat) : Cmd bool :=
  move env depth forward false.
Definition moveToPreviousChar (depth : nat) : Cmd bool :=
  move env depth backward false.
Definition moveUp (depth : nat) : Cmd bool := move env depth upward false.
Definition moveDown (depth : nat) : Cmd bool := move env depth downward false.
Definition extendSelectionUpward (depth : nat) : Cmd bool :=
  move env depth upward true.
Definition extendSelectionDownward (depth : nat) : Cmd bool :=
  move env depth downward true.

End Registered.

Definition moveToNextWord (fuel : nat) : Cmd bool := skip fuel forward false.
Definition moveToPreviousWord (fuel : nat) : Cmd bool :=
  skip fuel backward false.
Definition extendToNextWord (fuel : nat) : Cmd bool := skip fuel forward true.
Definition extendToPreviousWord (fuel : nat) : Cmd bool :=
  skip fuel backward true.
Definition extendToNextBoundary (fuel : nat) : Cmd bool :=
  skip fuel forward true.
Definition extendToPreviousBoundary (fuel : nat) : Cmd bool :=
  skip fuel backward true.

(** The commands of the [delete] category hand a range to [deleteRange],
    or call [deleteForward] and [deleteBackward]; the three come from the
    delete module, and the commands only name them or compute the range. *)
Section Deletion.

Context (deleteRange : Z * Z -> Cmd bool).

Definition deleteAll : Cmd bool := deleteRange (0, -1).

Definition deleteWord (fuel : nat) (direction : Direction) : Cmd bool :=
  m ← getModel;
  '(o, _) ← liftResult (wordBoundaryOffset fuel m (position m) direction);
  deleteRange (anchor m, o).

Definition deleteNextWord (fuel : nat) : Cmd bool := deleteWord fuel forward.
Definition deletePreviousWord (fuel : nat) : Cmd bool :=
  deleteWord fuel backward.

Definition deleteToGroupEdge (edge : Model -> Loc -> option Loc) : Cmd bool :=
  m ← getModel;
  here ← liftResult (defined (at_ m (position m)));
  pos ← liftResult (offsetOf_ m (edge m here));
  deleteRange (anchor m, pos).

Definition deleteToGroupStart : Cmd bool := deleteToGroupEdge firstSibling.
Definition deleteToGroupEnd : Cmd bool := deleteToGroupEdge lastSibling.

Definition deleteToMathFieldStart : Cmd bool :=
  m ← getModel; deleteRange (anchor m, 0).

Definition deleteToMathFieldEnd : Cmd bool :=
  m ← getModel; deleteRange (anchor m, -1).

End Deletion.

(* ================================================================== *)
(** * Part V: vocabulary of the statements, and sample documents       *)
(* ================================================================== *)

(** What the flattening holds at slot [k]: an atom whose path leads to it
    and whose slot, computed along the path, is [k]. *)
Definition flat_sound (a : Atom) : Prop :=
  forall pre k l, descendants pre a !! k = Some l ->
    exists q b, path l = q ++ pre /\ q <> []
             /\ walk a (rev q) = Some (b, node l) /\ k = (b + size (node l))%nat.

(** Every atom that a path leads to sits in the flattening, at its slot. *)
Definition flat_complete (a : Atom) : Prop :=
  forall pre q b y, q <> [] -> walk a (rev q) = Some (b, y) ->
    descendants pre a !! (b + size y)%nat = Some (MkLoc (q ++ pre) y).

(** The caret of [m] is about to leave the document in a direction. *)
Definition leavesDocument (m : Model) (direction : Direction) : Prop :=
  exists pos, moveCandidate m direction = Ok pos
              /\ (pos < 0 \/ pos > lastOffset m).

(** ** Sample documents *)

Definition sym (t : AtomType) (v : string) : Atom := leaf t math v PlainAtom.

Definition sentinel : Atom := leaf first math "" PlainAtom.

(** A document whose root holds the given atoms after the sentinel. *)
Definition document (xs : list Atom) : Atom :=
  setBranch (leaf root_type math "" PlainAtom) body (sentinel :: xs).

Fixpoint textRun (s : string) : list Atom :=
  match s with
  | EmptyString => []
  | String c r => leaf text_type text (String c EmptyString) TextAtom :: textRun r
  end.

Definition caretAt (p : Z) (r : Atom) : Model := MkModel r p p false.

(** A host that lets the default handling proceed, with no pending
    suggestion and three focusable elements, the first of them active. *)
Definition defaultHost : Env :=
  MkEnv (fun _ _ => true) (Some (fun _ _ => true)) [10; 20; 30]%nat (Some 10%nat)
        (0, 0) (fun m => m) (fun _ m => (false, m)) forward.

(** A host that handles edge exits and tab-outs itself. *)
Definition handlingHost : Env :=
  MkEnv (fun _ _ => false) (Some (fun _ _ => false)) [10; 20; 30]%nat
        (Some 10%nat) (5, 5) (fun m => m) (fun _ m => (false, m)) forward.

(** "blue yellow" in a text run *)
Definition blueYellow : Atom := document (textRun "blue yellow").


(** x, a placeholder, y *)
Definition withPlaceholder : Atom :=
  document [sym mord "x"; sym placeholder ""; sym mord "y"].

(** two placeholders side by side *)
Definition twoPlaceholders : Atom :=
  document [sym placeholder ""; sym placeholder ""].

(** a placeholder, +, x *)
Definition placeholderPlusX : Atom :=
  document [sym placeholder ""; sym mbin "+"; sym mord "x"].

(** x over nothing: a fraction that has a denominator only *)
Definition denominatorOnly : Atom :=
  document [setBranch (sym genfrac "") below [sentinel; sym mord "x"]].

(** x with a superscript 2 *)
Definition xSquared : Atom :=
  document [sym mord "x";
            setBranch (MkAtom msubsup math "" (SubsupAtom mord) false false
                              None (fun _ => None))
                      superscript [sentinel; sym mord "2"]].

(** a single space in a text run *)
Definition oneSpace : Atom := document (textRun " ").

(** ** Cursor states that the statements name *)

(** The model after [collapseSelection(direction)]. *)
Definition collapseTo (direction : Direction) (m : Model) : Model :=
  if collapsed m then m
  else let p := match direction with
                | backward => Z.min (anchor m) (position m)
                | _ => Z.max (anchor m) (position m)
                end in
       setCursor p p m.

(** The model after step 3 of [move] took the caret to [pos]. *)
Definition caretTarget (m : Model) (pos : Z) : Model :=
  if decide (typeOf (at_ m pos) = Some placeholder) then
    setCursor (pos - 1) pos m
  else if decide (typeOf (at_ m pos ≫= rightSibling m) = Some placeholder) then
    setCursor pos (pos + 1) m
  else setCursor pos pos m.

(** ** Atoms that bend a step of the caret *)

(** A capture-selection owner or a skip-boundary atom meets a forward step
    from offset [p]. *)
Definition bendsForward (m : Model) (p : Z) : bool :=
  let atom := at_ m (p + 1) in
  from_option (captureSelection ∘ node) false (atom ≫= parent m)
  || from_option (skipBoundary ∘ node) false atom.

(** A capture-selection owner or the first atom of a skip-boundary owner
    meets a backward step from offset [p]. *)
Definition bendsBackward (m : Model) (p : Z) : bool :=
  let atom := at_ m (p - 1) in
  from_option (captureSelection ∘ node) false (atom ≫= parent m)
  || (from_option isFirstSibling false atom
      && from_option (skipBoundary ∘ node) false (atom ≫= parent m)).

(** A placeholder sits at offset [pos], or just to the right of the atom
    there. *)
Definition nearPlaceholder (m : Model) (pos : Z) : bool :=
  bool_decide (typeOf (at_ m pos) = Some placeholder)
  || bool_decide (typeOf (at_ m pos ≫= rightSibling m) = Some placeholder).

(** x, y, z *)
Definition xyz : Atom := document [sym mord "x"; sym mord "y"; sym mord "z"].

(** "a b" in a text run *)
Definition aSpaceB : Atom := document (textRun "a b").

(** ( a ( b ) c ) around any three atoms, and the siblings that follow *)
Definition fencesThen (a b c : Atom) (rest : list Atom) : Atom :=
  document (sym mopen "(" :: a :: sym mopen "(" :: b :: sym mclose ")" :: c
            :: sym mclose ")" :: rest).

(** ( a ( b ) c ) *)
Definition fences : Atom :=
  fencesThen (sym mord "a") (sym mord "b") (sym mord "c") [].

(** ( a ( b ) c ) d *)
Definition fencesAndD : Atom :=
  fencesThen (sym mord "a") (sym mord "b") (sym mord "c") [sym mord "d"].

(** The atom [x] as the [i]-th sibling in the body of the root. *)
Definition inBody (i : nat) (x : Atom) : Loc := MkLoc [(body, i)] x.

(** Neither an open nor a close fence. *)
Definition notFence (a : Atom) : Prop := type a <> mopen /\ type a <> mclose.

(** ** Budgets *)

(** A run that did not outlive its budget: it returned or it threw. *)
Definition halts {A} (r : Result A) : Prop := r <> OutOfFuel.

(** The slots between offset [i] and the edge of the document towards
    which [dir] points, [i] included. *)
Definition room (m : Model) (dir i : Z) : nat :=
  if decide (dir > 0) then Z.to_nat (lastOffset m + 1 - i)
  else Z.to_nat (i + 1).

(** An atom of the document [m], as [at] hands them out. *)
Definition inDocument (m : Model) (l : Loc) : Prop :=
  exists k, at_ m k = Some l.

(** The budget that the specification grants a skip: [lastOffset + 1] steps. *)
Definition skipBudget (m : Model) : nat := Z.to_nat (lastOffset m + 1).

(** Every path of [m'] is a path of [m]. *)
Definition sameShape (m' m : Model) : Prop :=
  forall p, is_Some (locate m' p) -> is_Some (locate m p).

(** Turns that [acceptSuggestion] may still take from an atom on. *)
Definition siblingsAhead (m : Model) (atom : option Loc) : nat :=
  match atom with
  | None => O
  | Some l =>
      match path l with
      | [] => 1%nat
      | (_, i) :: _ => Z.to_nat (lastOffset m + 1 - Z.of_nat i) `max` 1
      end
  end.

(** "abc" in a text run *)
Definition abc : Atom := document (textRun "abc").

(** ** More sample documents *)

(** x, then an open fence that nothing closes *)
Definition unclosed : Atom := document [sym mord "x"; sym mopen "("].

(** 1, 2, +, x *)
Definition twelvePlusX : Atom :=
  document [sym mord "1"; sym mord "2"; sym mbin "+"; sym mord "x"].

(** x over nothing: a fraction that has a numerator only *)
Definition numeratorOnly : Atom :=
  document [setBranch (sym genfrac "") above [sentinel; sym mord "x"]].

(** x over y *)
Definition xOverY : Atom :=
  document [setBranch (setBranch (sym genfrac "") above [sentinel; sym mord "x"])
                      below [sentinel; sym mord "y"]].

(** A command atom that was typed, not suggested. *)
Definition typed (v : string) : Atom :=
  leaf command_type math v (CommandAtom false).

(** the command letters s, i, n *)
Definition sinCommand : Atom := document [typed "s"; typed "i"; typed "n"].

(** A command atom that completes what was typed. *)
Definition suggested (v : string) : Atom :=
  leaf command_type math v (CommandAtom true).

(** the command letter s, and the suggestion i, n that completes it *)
Definition sinSuggested : Atom :=
  document [typed "s"; suggested "i"; suggested "n"].

(** An atom once [isSuggestion = false] was stored in it. *)
Definition accepted (a : Atom) : Atom := setClass a (CommandAtom false).

(** The atoms of [run] follow [x] one after the other along [next]. *)
Fixpoint linked (next : Loc -> option Loc) (x : Loc) (run : list Loc) : Prop :=
  match run with
  | [] => True
  | a :: r => next x = Some a /\ linked next a r
  end.

(* ================================================================== *)
(** * Part VI: the offset model is a bijection                         *)
(* ================================================================== *)

Lemma size_unfold a : size a = sum_list (map (branchSize a) NAMED_BRANCHES).
Proof. destruct a; reflexivity. Qed.

Lemma siblings_fix pre br i xs :
  (fix sibs (i : nat) (xs : list Atom) : list Loc :=
           match xs with
           | [] => []
           | x :: r =>
               descendants ((br, i) :: pre) x
                 ++ MkLoc ((br, i) :: pre) x :: sibs (S i) r
           end) i xs = siblings pre br i xs.
Proof. revert i; induction xs as [|x r IH]; intros i; simpl; [done|]. by rewrite IH. Qed.

Lemma descendants_unfold pre a :
  descendants pre a = flat_map (branchLocs pre a) NAMED_BRANCHES.
Proof.
  destruct a as [t md v c cs sb lm bs]. unfold branchLocs. simpl.
  destruct (bs above), (bs body), (bs below), (bs superscript), (bs subscript);
    rewrite ?siblings_fix; reflexivity.
Qed.


Lemma run_size_cons x r : run_size (x :: r) = S (size x + run_size r).
Proof. reflexivity. Qed.

Lemma siblings_cons pre br i x r :
  siblings pre br i (x :: r) =
  descendants ((br, i) :: pre) x ++ MkLoc ((br, i) :: pre) x :: siblings pre br (S i) r.
Proof. reflexivity. Qed.

Lemma length_siblings pre br i xs :
  Forall (fun x => forall pre, length (descendants pre x) = size x) xs ->
  length (siblings pre br i xs) = run_size xs.
Proof.
  intros H. revert i. induction H as [|x r Hx _ IH]; intros i; [done|].
  rewrite siblings_cons, run_size_cons, length_app, Hx. simpl. rewrite IH. lia.
Qed.

Lemma length_descendants a : forall pre, length (descendants pre a) = size a.
Proof.
  induction a as [a IH] using Atom_tree_ind. intros pre.
  rewrite descendants_unfold, size_unfold.
  induction NAMED_BRANCHES as [|b names IHn]; [done|].
  simpl. rewrite length_app, IHn. f_equal.
  unfold branchLocs, branchSize. destruct (branches a b) as [xs|] eqn:E; [|done].
  apply length_siblings, (IH b xs E).
Qed.

Lemma length_branchLocs pre a br : length (branchLocs pre a br) = branchSize a br.
Proof.
  unfold branchLocs, branchSize. destruct (branches a br); [|done].
  apply length_siblings, Forall_forall. intros x _ pre'. apply length_descendants.
Qed.

Lemma length_siblings' pre br i xs : length (siblings pre br i xs) = run_size xs.
Proof. apply length_siblings, Forall_forall. intros x _ pre'. apply length_descendants. Qed.

(** Lookups in the flattening, branch by branch *)
Lemma lookup_branches_inv pre a names k l :
  NoDup names ->
  flat_map (branchLocs pre a) names !! k = Some l ->
  exists br k', br ∈ names /\ k = (sizeBefore names a br + k')%nat
             /\ branchLocs pre a br !! k' = Some l.
Proof.
  intros Hnd. revert k. induction Hnd as [|b names Hb Hnd IH]; intros k; [done|].
  simpl. destruct (decide (k < branchSize a b)%nat) as [Hlt|Hge].
  - rewrite lookup_app_l by (by rewrite length_branchLocs). intros Hk.
    exists b, k. rewrite decide_True by done. split; [left|done].
  - rewrite lookup_app_r by (rewrite length_branchLocs; lia).
    rewrite length_branchLocs. intros (br & k' & Hin & Hk & Hl)%IH.
    exists br, k'. rewrite decide_False by (intros ->; done).
    split; [by right|]. split; [lia|done].
Qed.

Lemma lookup_branches pre a names br k l :
  br ∈ names ->
  branchLocs pre a br !! k = Some l ->
  flat_map (branchLocs pre a) names !! (sizeBefore names a br + k)%nat = Some l.
Proof.
  intros Hin Hl. induction names as [|b names IH]; [by apply elem_of_nil in Hin|].
  simpl. destruct (decide (b = br)) as [->|Hne].
  - rewrite lookup_app_l; [done|]. by apply lookup_lt_Some in Hl.
  - rewrite lookup_app_r by (rewrite length_branchLocs; lia).
    rewrite length_branchLocs.
    replace (branchSize a b + sizeBefore names a br + k - branchSize a b)%nat
      with (sizeBefore names a br + k)%nat by lia.
    apply IH. apply elem_of_cons in Hin as [|]; congruence.
Qed.

Lemma NoDup_NAMED_BRANCHES : NoDup NAMED_BRANCHES.
Proof. by apply (bool_decide_unpack (NoDup NAMED_BRANCHES)). Qed.

Lemma elem_of_NAMED_BRANCHES br : br ∈ NAMED_BRANCHES.
Proof. unfold NAMED_BRANCHES. destruct br; repeat constructor. Qed.


Lemma siblings_sound pre br i xs k l :
  Forall flat_sound xs ->
  siblings pre br i xs !! k = Some l ->
  exists j q b y, xs !! j = Some y
     /\ path l = q ++ (br, (i + j)%nat) :: pre
     /\ walk y (rev q) = Some (b, node l)
     /\ k = (run_size (take j xs) + b + size (node l))%nat.
Proof.
  intros H. revert i k. induction H as [|x r Hx _ IH]; intros i k; [done|].
  rewrite siblings_cons.
  destruct (decide (k < size x)%nat) as [Hlt|Hge].
  - rewrite lookup_app_l by (by rewrite length_descendants).
    intros (q & b & Hp & _ & Hw & Hk)%Hx.
    exists O, q, b, x. rewrite Nat.add_0_r. done.
  - rewrite lookup_app_r by (rewrite length_descendants; lia).
    rewrite length_descendants.
    destruct (k - size x)%nat as [|k'] eqn:Ek; simpl.
    + intros [= <-]. exists O, [], O, x. simpl. rewrite Nat.add_0_r.
      repeat split; try done. lia.
    + intros (j & q & b & y & Hj & Hp & Hw & Hk)%IH.
      exists (S j), q, b, y.
      change (take (S j) (x :: r)) with (x :: take j r). rewrite run_size_cons.
      replace (i + S j)%nat with (S i + j)%nat by lia.
      repeat split; try done. lia.
Qed.

Lemma descendants_sound a : flat_sound a.
Proof.
  induction a as [a IH] using Atom_tree_ind. intros pre k l.
  rewrite descendants_unfold.
  intros (br & k' & _ & -> & Hl)%lookup_branches_inv; [|apply NoDup_NAMED_BRANCHES].
  unfold branchLocs in Hl. destruct (branches a br) as [xs|] eqn:E; [|done].
  apply siblings_sound in Hl as (j & q & b & y & Hj & Hp & Hw & ->); [|by eapply IH].
  exists (q ++ [(br, j)]), (sizeBefore NAMED_BRANCHES a br + run_size (take j xs) + b)%nat.
  split; [by rewrite Hp, <- app_assoc|].
  split; [by destruct q|].
  rewrite rev_app_distr. simpl. rewrite E. simpl. rewrite Hj. simpl. rewrite Hw. simpl.
  split; [done|lia].
Qed.

#[local] Opaque NAMED_BRANCHES.


Lemma siblings_complete pre br i xs j x q b y :
  Forall flat_complete xs ->
  xs !! j = Some x ->
  walk x (rev q) = Some (b, y) ->
  siblings pre br i xs !! (run_size (take j xs) + b + size y)%nat
  = Some (MkLoc (q ++ (br, (i + j)%nat) :: pre) y).
Proof.
  intros H. revert i j. induction H as [|x0 r Hx _ IH]; intros i j Hj Hw; [done|].
  rewrite siblings_cons. destruct j as [|j].
  - injection Hj as ->. change (take 0 (x :: r)) with (@nil Atom).
    rewrite Nat.add_0_r. unfold run_size at 1. simpl sum_list.
    destruct (decide (q = [])) as [->|Hq].
    + injection Hw as <- <-. rewrite lookup_app_r by (rewrite length_descendants; lia).
      rewrite length_descendants. replace (0 + 0 + size x - size x)%nat with O by lia. done.
    + pose proof (Hx ((br, i) :: pre) q b y Hq Hw) as Hl.
      rewrite lookup_app_l; [done|]. by apply lookup_lt_Some in Hl.
  - change (take (S j) (x0 :: r)) with (x0 :: take j r). rewrite run_size_cons.
    rewrite lookup_app_r by (rewrite length_descendants; lia).
    rewrite length_descendants.
    replace (S (size x0 + run_size (take j r)) + b + size y - size x0)%nat
      with (S (run_size (take j r) + b + size y)) by lia.
    replace (i + S j)%nat with (S i + j)%nat by lia.
    apply (IH (S i) j Hj Hw).
Qed.

Lemma descendants_complete a : flat_complete a.
Proof.
  induction a as [a IH] using Atom_tree_ind. intros pre q b y Hq.
  destruct (rev q) as [|[br j] p] eqn:Er.
  { apply (f_equal (@rev _)) in Er. rewrite rev_involutive in Er. done. }
  assert (q = rev p ++ [(br, j)]) as ->.
  { apply (f_equal (@rev _)) in Er. by rewrite rev_involutive in Er. }
  simpl. destruct (branches a br) as [xs|] eqn:E; [|done]. simpl.
  destruct (xs !! j) as [x|] eqn:Ej; [|done]. simpl.
  destruct (walk x p) as [[b' y']|] eqn:Ew; [|done]. simpl. intros [= <- ->].
  rewrite descendants_unfold, <- !Nat.add_assoc.
  apply lookup_branches; [apply elem_of_NAMED_BRANCHES|].
  unfold branchLocs. rewrite E, <- app_assoc, Nat.add_assoc. simpl.
  apply (siblings_complete pre br 0 xs j x (rev p) b' y); [by eapply IH|done|].
  by rewrite rev_involutive.
Qed.

(** ** The offset model *)

Lemma at_Some_range m k l : at_ m k = Some l -> 0 <= k <= lastOffset m.
Proof.
  unfold at_, lastOffset. destruct (decide (k < 0)); [done|].
  intros H%lookup_lt_Some. lia.
Qed.

Lemma at_is_Some m k : 0 <= k <= lastOffset m -> is_Some (at_ m k).
Proof.
  unfold at_, lastOffset. intros H. rewrite decide_False by lia.
  apply lookup_lt_is_Some. lia.
Qed.

Lemma at_None m k : at_ m k = None <-> k < 0 \/ lastOffset m < k.
Proof.
  split.
  - intros H. destruct (decide (0 <= k <= lastOffset m)) as [Hr|]; [|lia].
    apply at_is_Some in Hr as [l Hl]. congruence.
  - intros H. destruct (at_ m k) eqn:E; [|done]. apply at_Some_range in E. lia.
Qed.

Lemma at_slot m k l :
  at_ m k = Some l -> slot (root m) (path l) = Some (Z.to_nat k)
                      /\ locate m (path l) = Some l.
Proof.
  unfold at_. destruct (decide (k < 0)); [done|]. intros H.
  apply descendants_sound in H as (q & b & Hp & Hq & Hw & Hk).
  rewrite app_nil_r in Hp. subst q. unfold slot, locate, lookupPath.
  rewrite Hw. simpl. destruct (path l) eqn:E; [done|]. rewrite Hk.
  split; [done|]. destruct l; simpl in *. by subst.
Qed.

Lemma offsetOf_at m k l : at_ m k = Some l -> offsetOf m l = k.
Proof.
  intros H. pose proof (at_Some_range _ _ _ H).
  apply at_slot in H as [H _]. unfold offsetOf. rewrite H. lia.
Qed.

Lemma at_offsetOf m p l :
  p <> [] -> locate m p = Some l -> at_ m (offsetOf m l) = Some l.
Proof.
  unfold locate, lookupPath. intros Hp.
  destruct (walk (root m) (rev p)) as [[b y]|] eqn:Ew; [|done]. simpl.
  intros [= <-]. unfold offsetOf, slot. simpl. rewrite Ew. simpl.
  destruct p; [done|]. unfold at_. rewrite decide_False by lia.
  rewrite Nat2Z.id. rewrite <- (app_nil_r (_ :: _)).
  by apply descendants_complete.
Qed.

(** ** Walking down a path in two stages *)

Lemma walk_app a p q :
  walk a (p ++ q) =
  '(b, x) ← walk a p; '(b', y) ← walk x q; Some ((b + b')%nat, y).
Proof.
  revert a. induction p as [|[br i] p IH]; intros a; simpl.
  - by destruct (walk a q) as [[? ?]|].
  - destruct (branches a br) as [xs|]; [|done]. simpl.
    destruct (xs !! i) as [x|]; [|done]. simpl. rewrite IH.
    destruct (walk x p) as [[b x']|]; [|done]. simpl.
    destruct (walk x' q) as [[b' y]|]; [|done]. simpl. do 2 f_equal. lia.
Qed.

(** The place of an atom among its siblings, read off a successful lookup. *)
Lemma locate_cons_inv m br i (q : Path) l :
  locate m ((br, i) :: q) = Some l ->
  exists b o xs,
    walk (root m) (rev q) = Some (b, o) /\ branches o br = Some xs
    /\ xs !! i = Some (node l) /\ path l = (br, i) :: q
    /\ slot (root m) ((br, i) :: q)
       = Some (b + sizeBefore NAMED_BRANCHES o br + run_size (take i xs)
               + size (node l))%nat.
Proof.
  unfold locate, lookupPath, slot. simpl rev. rewrite walk_app.
  destruct (walk (root m) (rev q)) as [[b o]|]; simpl; [|done].
  destruct (branches o br) as [xs|] eqn:E; simpl; [|done].
  destruct (xs !! i) as [x|] eqn:Ei; simpl; [|done]. intros [= <-].
  exists b, o, xs. simpl. repeat split; try done. do 2 f_equal. lia.
Qed.

Lemma locate_path m p l : locate m p = Some l -> path l = p.
Proof.
  unfold locate, lookupPath. destruct (walk _ _) as [[? ?]|]; [|done].
  by intros [= <-].
Qed.

Lemma run_size_take_S xs i x :
  xs !! i = Some x -> run_size (take (S i) xs) = (run_size (take i xs) + S (size x))%nat.
Proof.
  intros H. rewrite (take_S_r _ _ _ H). unfold run_size.
  rewrite map_app, sum_list_with_app. simpl. unfold id. lia.
Qed.

Lemma offsetOf_locate m p l :
  p <> [] -> locate m p = Some l ->
  0 <= offsetOf m l <= lastOffset m /\ at_ m (offsetOf m l) = Some l.
Proof.
  intros Hp Hl. pose proof (at_offsetOf m p l Hp Hl) as H.
  split; [|done]. by apply at_Some_range in H.
Qed.

(** The right sibling sits after the atom: past its own descendants. *)
Lemma rightSibling_offset m k l r :
  at_ m k = Some l -> rightSibling m l = Some r ->
  offsetOf m r = k + Z.of_nat (size (node r)) + 1
  /\ at_ m (offsetOf m r) = Some r.
Proof.
  intros Hk Hr. pose proof (offsetOf_at _ _ _ Hk) as Ho.
  apply at_slot in Hk as [_ Hl]. unfold rightSibling in Hr.
  destruct (path l) as [|[br i] q] eqn:Ep; [done|].
  split; [|by apply (offsetOf_locate m ((br, S i) :: q) r)].
  apply locate_cons_inv in Hl as (b & o & xs & Hw & Hb & Hi & _ & Hs).
  apply locate_cons_inv in Hr as (b' & o' & xs' & Hw' & Hb' & Hi' & Hp' & Hs').
  rewrite Hw in Hw'. injection Hw' as <- <-. rewrite Hb in Hb'. injection Hb' as <-.
  unfold offsetOf in *. rewrite Ep, Hs in Ho. rewrite Hp', Hs'.
  rewrite (run_size_take_S _ _ _ Hi). lia.
Qed.

(** The left sibling sits before the atom and its descendants. *)
Lemma leftSibling_offset m k l r :
  at_ m k = Some l -> leftSibling m l = Some r ->
  offsetOf m r = k - Z.of_nat (size (node l)) - 1
  /\ 0 <= offsetOf m r /\ at_ m (offsetOf m r) = Some r.
Proof.
  intros Hk Hr. pose proof (offsetOf_at _ _ _ Hk) as Ho.
  apply at_slot in Hk as [_ Hl]. unfold leftSibling in Hr.
  destruct (path l) as [|[br [|i]] q] eqn:Ep; try done.
  assert (0 <= offsetOf m r <= lastOffset m /\ at_ m (offsetOf m r) = Some r)
    as [[? ?] ?] by (by apply (offsetOf_locate m ((br, i) :: q) r)).
  repeat split; try done.
  apply locate_cons_inv in Hl as (b & o & xs & Hw & Hb & Hi & _ & Hs).
  apply locate_cons_inv in Hr as (b' & o' & xs' & Hw' & Hb' & Hi' & Hp' & Hs').
  rewrite Hw in Hw'. injection Hw' as <- <-. rewrite Hb in Hb'. injection Hb' as <-.
  unfold offsetOf in *. rewrite Ep, Hs in Ho. rewrite Hp', Hs'.
  rewrite (run_size_take_S _ _ _ Hi') in Ho. lia.
Qed.

(* ================================================================== *)
(** * Part VII: character movement                                     *)
(* ================================================================== *)

Ltac run :=
  unfold mbind, mret, Cmd_bind, Cmd_ret, getModel, putModel, modifyModel,
    announce, focus, throw, outOfFuel, liftResult, setPosition, setSelection;
  simpl.

Lemma result_eta {A} (r : Result (A * Model * list Event)) :
  match r with
  | Ok (b, m, out) => Ok (b, m, out)
  | TypeError => TypeError
  | OutOfFuel => OutOfFuel
  end = r.
Proof. by destruct r as [[[? ?] ?]| |]. Qed.

Lemma collapseTo_collapsed d m : collapsed m = true -> collapseTo d m = m.
Proof. unfold collapseTo. by intros ->. Qed.

#[global] Arguments collapseTo : simpl never.

Section Movement.

Context (env : Env).

Lemma collapseSelection_eq d m :
  collapseSelection d m = Ok (negb (collapsed m), collapseTo d m, []).
Proof. unfold collapseSelection, collapseTo. by destruct (collapsed m). Qed.

Lemma stepCaret_eq dir prev m :
  stepCaret env dir prev m =
  match moveCandidate m dir with
  | Ok pos =>
      if decide (pos < 0 \/ pos > lastOffset m) then
        Ok (consultMoveOut env m dir, m,
            if consultMoveOut env m dir then [Announce Plonk None] else [])
      else Ok (true, caretTarget m pos, [Announce Move (Some prev)])
  | TypeError => TypeError
  | OutOfFuel => OutOfFuel
  end.
Proof.
  unfold stepCaret, caretTarget. run.
  destruct (moveCandidate m dir) as [pos| |]; try done.
  destruct (decide (pos < 0 \/ pos > lastOffset m)).
  - by destruct (consultMoveOut env m dir).
  - repeat case_decide; reflexivity.
Qed.

Lemma move_eq depth dir m :
  dir = forward \/ dir = backward ->
  move env depth dir false m =
  let m1 := deleteCommandSuggestion env m in
  if selectionIsPlaceholder m1 then
    match depth with
    | O => OutOfFuel
    | S d => move env d dir false (collapseTo dir m1)
    end
  else if collapsed m1 then stepCaret env dir (position m1) m1
  else Ok (true, collapseTo dir m1, [Announce Move (Some (position m1))]).
Proof.
  intros Hd. 
  assert (dir <> upward /\ dir <> downward) as [H1 H2] by (destruct Hd; subst; done).
  destruct depth; simpl; run; rewrite !decide_False by done; run;
    destruct (selectionIsPlaceholder _) eqn:E1; simpl;
    rewrite collapseSelection_eq; simpl; try done;
    try (destruct (collapsed _) eqn:E2; simpl; try done);
    rewrite ?collapseTo_collapsed by done;
    rewrite ?result_eta; done.
Qed.

Lemma stepCaret_inv dir prev m b m' out :
  stepCaret env dir prev m = Ok (b, m', out) ->
  (leavesDocument m dir /\ m' = m /\ b = consultMoveOut env m dir
     /\ out = (if b then [Announce Plonk None] else []))
  \/ (b = true /\ out = [Announce Move (Some prev)]).
Proof.
  rewrite stepCaret_eq. destruct (moveCandidate m dir) as [pos| |] eqn:E; try done.
  case_decide as Hoob; intros [= <- <- <-].
  - left. split; [by exists pos|done].
  - by right.
Qed.

Lemma plonked_move p : plonked [Announce Move p] = false.
Proof. by vm_compute. Qed.

Lemma collapsed_not_placeholder m :
  collapsed m = true -> selectionIsPlaceholder m = false.
Proof.
  unfold selectionIsPlaceholder, collapsed. intros Hc%bool_decide_eq_true.
  by rewrite Hc, Z.sub_diag.
Qed.

(** The move of a selection that is not a placeholder selection. *)
Lemma move_plain_report dir m1 b m' out :
  (if collapsed m1 then stepCaret env dir (position m1) m1
   else Ok (true, collapseTo dir m1, [Announce Move (Some (position m1))]))
  = Ok (b, m', out) ->
  (b = false ->
     out = [] /\ leavesDocument m' dir /\ consultMoveOut env m' dir = false)
  /\ (plonked out = true ->
     b = true /\ leavesDocument m' dir /\ consultMoveOut env m' dir = true)
  /\ (b = false \/ plonked out = true -> collapsed m1 = true -> m' = m1).
Proof.
  destruct (collapsed m1) eqn:E2.
  - intros [(Hl & -> & -> & ->)|[-> ->]]%stepCaret_inv.
    + destruct (consultMoveOut env m1 dir) eqn:Ec; repeat split; try done.
    + rewrite plonked_move. repeat split; try done. by intros [|].
  - intros [= <- <- <-]. rewrite plonked_move. repeat split; try done.
Qed.

(** C1, amended.  A forward or backward [move] without extend that returns
    [false] went out of bounds and was told so by the [moveOut] hook, which
    returned [false]: nothing is announced then, in particular no plonk.  A
    plonk is announced only out of bounds when the default handling proceeds
    (the hook returned [true], or notifications are suppressed), and then
    [move] returns [true].  In both cases a cursor that was collapsed after
    the pending suggestion was removed is left as it was.  Conversely, from
    such a cursor whose candidate offset is out of bounds, [move] returns
    the boolean of the hook and announces plonk exactly when it is [true]. *)
Theorem move_edge_report depth dir m :
  dir = forward \/ dir = backward ->
  (forall b m' out,
     move env depth dir false m = Ok (b, m', out) ->
     (b = false ->
        out = [] /\ leavesDocument m' dir /\ consultMoveOut env m' dir = false)
     /\ (plonked out = true ->
        b = true /\ leavesDocument m' dir /\ consultMoveOut env m' dir = true)
     /\ (b = false \/ plonked out = true ->
        collapsed (deleteCommandSuggestion env m) = true ->
        m' = deleteCommandSuggestion env m))
  /\ (collapsed (deleteCommandSuggestion env m) = true ->
      leavesDocument (deleteCommandSuggestion env m) dir ->
      let m1 := deleteCommandSuggestion env m in
      let result := consultMoveOut env m1 dir in
      move env depth dir false m
      = Ok (result, m1, if result then [Announce Plonk None] else [])).
Proof.
  intros Hd. split.
  - revert m. induction depth as [|depth IH]; intros m b m' out;
      rewrite move_eq by done; cbv zeta;
      destruct (selectionIsPlaceholder (deleteCommandSuggestion env m)) eqn:E1;
      try done; try apply move_plain_report.
    intros H. destruct (IH _ _ _ _ H) as (H1 & H2 & H3). repeat split; try tauto.
    intros _ Hc%collapsed_not_placeholder. congruence.
  - intros Hc (pos & Hp & Hoob). rewrite move_eq by done. cbv zeta.
    rewrite collapsed_not_placeholder by done.
    rewrite Hc, stepCaret_eq, Hp. by rewrite decide_True.
Qed.
End Movement.

(** The theorem at the end of "x, placeholder, y", under a host that lets
    the default proceed. *)
Lemma move_edge_report_witness :
  (forward = forward \/ forward = backward)
  /\ move defaultHost 1 forward false (caretAt 3 withPlaceholder)
     = Ok (true, caretAt 3 withPlaceholder, [Announce Plonk None]).
Proof.
  split; [by left|].
  apply (move_edge_report defaultHost 1 forward (caretAt 3 withPlaceholder)).
  - by left.
  - reflexivity.
  - exists 4. split; [reflexivity|]. right. reflexivity.
Defined.

(** C1 as stated fails at the end of the document: under a host whose hook
    returns [true] the move returns [true] although nothing changed and a
    plonk was announced; under a host whose hook returns [false] it returns
    [false] without any plonk. *)
Lemma move_false_iff_unchanged_plonk_counterexample :
  let m := caretAt 3 withPlaceholder in
  (move defaultHost 1 forward false m = Ok (true, m, [Announce Plonk None])
   /\ ~ (true = false <-> m = m /\ plonked [Announce Plonk None] = true))
  /\ (move handlingHost 1 forward false m = Ok (false, m, [])
     /\ ~ (false = false <-> m = m /\ plonked [] = true)).
Proof.
  repeat split; try (vm_compute; reflexivity).
  - intros [_ H]. by specialize (H (conj eq_refl eq_refl)).
  - intros [H _]. by destruct (H eq_refl) as [_ ?].
Qed.

Section Reversibility.

Context (env : Env).

Lemma moveCandidate_forward m :
  bendsForward m (position m) = false ->
  moveCandidate m forward = Ok (position m + 1).
Proof.
  unfold bendsForward, moveCandidate. simpl.
  intros [H1 H2]%orb_false_elim.
  destruct (at_ m (position m + 1) ≫= parent m) as [owner|]; simpl in *.
  - by rewrite H1, H2.
  - by rewrite H2.
Qed.

Lemma moveCandidate_backward m :
  bendsBackward m (position m) = false ->
  moveCandidate m backward = Ok (position m - 1).
Proof.
  unfold bendsBackward, moveCandidate. simpl.
  intros [H1 H2]%orb_false_elim.
  destruct (at_ m (position m - 1) ≫= parent m) as [owner|]; simpl in *; [|done].
  by rewrite H1, H2.
Qed.

Lemma caretTarget_plain m pos :
  nearPlaceholder m pos = false -> caretTarget m pos = setCursor pos pos m.
Proof.
  unfold nearPlaceholder, caretTarget.
  intros [H1%bool_decide_eq_false H2%bool_decide_eq_false]%orb_false_elim.
  by rewrite !decide_False.
Qed.

(** C2, amended.  From a caret at [P] strictly inside the document, with no
    pending suggestion, no capture-selection or skip-boundary atom next to
    the step and no placeholder at [P], at [P + 1] or just right of the atoms
    there, [move(forward)] puts the caret at [P + 1] and [move(backward)]
    from there puts it back at [P]. *)
Theorem move_forward_then_backward depth m P :
  0 < P < lastOffset m ->
  position m = P -> anchor m = P ->
  deleteCommandSuggestion env m = m ->
  deleteCommandSuggestion env (setCursor (P + 1) (P + 1) m)
    = setCursor (P + 1) (P + 1) m ->
  bendsForward m P = false ->
  bendsBackward m (P + 1) = false ->
  nearPlaceholder m (P + 1) = false ->
  nearPlaceholder m P = false ->
  move env depth forward false m
    = Ok (true, setCursor (P + 1) (P + 1) m, [Announce Move (Some P)])
  /\ move env depth backward false (setCursor (P + 1) (P + 1) m)
    = Ok (true, m, [Announce Move (Some (P + 1))]).
Proof.
  intros HP Hpos Hanc Hd1 Hd2 Hf Hb Hp1 Hp0.
  assert (collapsed m = true) as Hc
    by (unfold collapsed; apply bool_decide_eq_true; congruence).
  split.
  - rewrite move_eq by (by left). cbv zeta. rewrite Hd1.
    rewrite collapsed_not_placeholder, Hc by done.
    rewrite stepCaret_eq, moveCandidate_forward by (by rewrite Hpos).
    rewrite Hpos, decide_False by lia.
    by rewrite caretTarget_plain.
  - rewrite move_eq by (by right). cbv zeta. rewrite Hd2.
    set (m2 := setCursor (P + 1) (P + 1) m).
    assert (collapsed m2 = true) as Hc2 by (by apply bool_decide_eq_true).
    rewrite collapsed_not_placeholder, Hc2 by done.
    rewrite stepCaret_eq, moveCandidate_backward by done.
    simpl position. replace (P + 1 - 1) with P by lia.
    change (lastOffset m2) with (lastOffset m). rewrite decide_False by lia.
    rewrite (caretTarget_plain m2 P) by done.
    do 3 f_equal. destruct m; simpl in *; by subst.
Qed.
End Reversibility.

(** The theorem between x and y of "x, y, z". *)
Lemma move_forward_then_backward_witness :
  move defaultHost 1 forward false (caretAt 1 xyz)
    = Ok (true, setCursor 2 2 (caretAt 1 xyz), [Announce Move (Some 1)])
  /\ move defaultHost 1 backward false (setCursor 2 2 (caretAt 1 xyz))
    = Ok (true, caretAt 1 xyz, [Announce Move (Some 2)]).
Proof.
  apply (move_forward_then_backward defaultHost 1 (caretAt 1 xyz) 1);
    try reflexivity.
  split; reflexivity.
Defined.

(** C2 as stated fails before a placeholder: from offset 1 of
    "x, placeholder, y" the forward move succeeds and lands at 2 with the
    placeholder selected; the backward move from that state lands at 0, and
    from a bare caret at 2 it stays at 2.  No capture-selection or
    skip-boundary atom is involved. *)
Lemma move_reversibility_counterexample :
  let m := caretAt 1 withPlaceholder in
  let selected := setCursor 1 2 m in
  (0 < 1 < lastOffset m)
  /\ bendsForward m 1 = false /\ bendsBackward m 2 = false
  /\ move defaultHost 1 forward false m
     = Ok (true, selected, [Announce Move (Some 1)])
  /\ move defaultHost 1 backward false selected
     = Ok (true, caretAt 0 withPlaceholder, [Announce Move (Some 1)])
  /\ position (caretAt 0 withPlaceholder) <> 1
  /\ move defaultHost 1 backward false (caretAt 2 withPlaceholder)
     = Ok (true, selected, [Announce Move (Some 2)])
  /\ position selected <> 1.
Proof.
  repeat split; try (vm_compute; reflexivity); vm_compute; discriminate.
Qed.

Section Placeholders.

Context (env : Env).

(** C6, amended.  For an in-bounds forward or backward [move] of a collapsed
    selection without extend, with destination offset [pos]: when the atom
    at [pos] is a placeholder the selection becomes [(pos - 1, pos)], that
    one atom; when it is not, and its right sibling is a placeholder, the
    selection becomes [(pos, pos + 1)], which is that sibling as soon as it
    has no descendants.  The destination atom comes first in either
    direction. *)
Theorem move_selects_placeholder depth dir m pos :
  dir = forward \/ dir = backward ->
  let m1 := deleteCommandSuggestion env m in
  collapsed m1 = true ->
  moveCandidate m1 dir = Ok pos ->
  0 <= pos <= lastOffset m1 ->
  (typeOf (at_ m1 pos) = Some placeholder ->
     move env depth dir false m
     = Ok (true, setCursor (pos - 1) pos m1,
           [Announce Move (Some (position m1))]))
  /\ (forall d r,
       at_ m1 pos = Some d -> type (node d) <> placeholder ->
       rightSibling m1 d = Some r -> type (node r) = placeholder ->
       move env depth dir false m
       = Ok (true, setCursor pos (pos + 1) m1,
             [Announce Move (Some (position m1))])
       /\ (size (node r) = 0%nat -> at_ m1 (pos + 1) = Some r)).
Proof.
  intros Hd m1 Hc Hp Hr.
  assert (move env depth dir false m
          = Ok (true, caretTarget m1 pos, [Announce Move (Some (position m1))]))
    as Hm.
  { rewrite move_eq by done. cbv zeta. fold m1.
    rewrite collapsed_not_placeholder, Hc by done.
    rewrite stepCaret_eq, Hp. by rewrite decide_False by lia. }
  split.
  - intros Ht. rewrite Hm. unfold caretTarget. by rewrite decide_True.
  - intros d r Hd' Hnt Hrs Htr. split.
    + rewrite Hm. unfold caretTarget. rewrite Hd'. simpl.
      rewrite decide_False by congruence.
      rewrite Hrs. simpl. by rewrite Htr, decide_True.
    + intros Hz. destruct (rightSibling_offset _ _ _ _ Hd' Hrs) as [Ho Ha].
      rewrite Hz in Ho. by replace (pos + 1) with (offsetOf m1 r) by lia.
Qed.
End Placeholders.

(** The theorem on "x, placeholder, y": forwards from 1, backwards from 2
    where the caret is collapsed after the placeholder's left neighbour. *)
Lemma move_selects_placeholder_witness :
  (move defaultHost 1 forward false (caretAt 1 withPlaceholder)
   = Ok (true, setCursor 1 2 (caretAt 1 withPlaceholder),
         [Announce Move (Some 1)]))
  /\ (move defaultHost 1 backward false (caretAt 2 withPlaceholder)
      = Ok (true, setCursor 1 2 (caretAt 2 withPlaceholder),
            [Announce Move (Some 2)])).
Proof.
  split.
  - apply (move_selects_placeholder defaultHost 1 forward
             (caretAt 1 withPlaceholder) 2); try reflexivity; [by left|done].
  - pose proof (move_selects_placeholder defaultHost 1 backward
             (caretAt 2 withPlaceholder) 1 (or_intror eq_refl) eq_refl eq_refl
             ltac:(done)) as [_ H].
    eapply H; reflexivity || done.
Defined.

(** C6 as stated fails between two placeholders: moving backward from
    offset 2 the destination is offset 1, its right sibling (at offset 2) is
    a placeholder, and yet the selection becomes [(0, 1)], the destination
    itself, not [(1, 2)]. *)
Lemma move_backward_placeholder_counterexample :
  let m := caretAt 2 twoPlaceholders in
  collapsed m = true
  /\ moveCandidate m backward = Ok 1
  /\ 0 <= 1 <= lastOffset m
  /\ typeOf (at_ m 1 ≫= rightSibling m) = Some placeholder
  /\ (at_ m 1 ≫= rightSibling m) = at_ m 2
  /\ move defaultHost 1 backward false m
     = Ok (true, setCursor 0 1 m, [Announce Move (Some 2)])
  /\ (anchor (setCursor 0 1 m), position (setCursor 0 1 m)) <> (1, 2).
Proof.
  repeat split; try (vm_compute; reflexivity); vm_compute; discriminate.
Qed.

(* ================================================================== *)
(** * Part VIII: boundaries, groups and vertical moves                 *)
(* ================================================================== *)

(** ** Binding a computation of the offset model *)

Lemma bind_liftResult {A B} (r : Result A) (k : A -> Cmd B) m :
  (liftResult r ≫= k) m =
  match r with
  | Ok a => k a m
  | TypeError => TypeError
  | OutOfFuel => OutOfFuel
  end.
Proof.
  unfold mbind, Cmd_bind, liftResult. destruct r; try done.
  simpl. apply result_eta.
Qed.

Lemma bind_getModel {B} (k : Model -> Cmd B) m : (getModel ≫= k) m = k m m.
Proof. unfold mbind, Cmd_bind, getModel. simpl. apply result_eta. Qed.

Lemma locate_cons m br i (q : Path) b o xs x :
  walk (root m) (rev q) = Some (b, o) -> branches o br = Some xs ->
  xs !! i = Some x ->
  locate m ((br, i) :: q) = Some (MkLoc ((br, i) :: q) x).
Proof.
  intros Hw Hb Hi. unfold locate, lookupPath. simpl rev.
  rewrite walk_app, Hw. simpl. rewrite Hb. simpl. by rewrite Hi.
Qed.

Lemma locate_walk m (q : Path) b o :
  walk (root m) (rev q) = Some (b, o) -> locate m q = Some (MkLoc q o).
Proof. intros Hw. unfold locate, lookupPath. by rewrite Hw. Qed.

Lemma at_path_cons m k l :
  at_ m k = Some l ->
  exists br i q b o xs,
    path l = (br, i) :: q /\ walk (root m) (rev q) = Some (b, o)
    /\ branches o br = Some xs /\ xs !! i = Some (node l).
Proof.
  intros [Hs Hl]%at_slot. destruct (path l) as [|[br i] q] eqn:Ep; [done|].
  apply locate_cons_inv in Hl as (b & o & xs & Hw & Hb & Hi & _).
  by exists br, i, q, b, o, xs.
Qed.

Lemma firstSibling_is_Some m k l :
  at_ m k = Some l -> is_Some (firstSibling m l).
Proof.
  intros (br & i & q & b & o & xs & Hp & Hw & Hb & Hi)%at_path_cons.
  unfold firstSibling. rewrite Hp.
  destruct (xs !! 0%nat) as [x|] eqn:E0.
  - by rewrite (locate_cons _ _ _ _ _ _ _ _ Hw Hb E0).
  - apply lookup_ge_None in E0. apply lookup_lt_Some in Hi. lia.
Qed.

Lemma lastSibling_is_Some m k l :
  at_ m k = Some l -> is_Some (lastSibling m l).
Proof.
  intros (br & i & q & b & o & xs & Hp & Hw & Hb & Hi)%at_path_cons.
  unfold lastSibling. rewrite Hp, (locate_walk _ _ _ _ Hw).
  simpl. rewrite Hb. simpl.
  destruct (xs !! pred (length xs)) as [x|] eqn:E0.
  - by rewrite (locate_cons _ _ _ _ _ _ _ _ Hw Hb E0).
  - apply lookup_ge_None in E0. apply lookup_lt_Some in Hi. lia.
Qed.

(** ** [selectGroup] always succeeds *)

Lemma wordStart_ok m n :
  Z.of_nat n <= lastOffset m -> exists z, wordStart m n = Ok z.
Proof.
  induction n as [|n IH]; intros Hn; [by eexists|].
  cbn [wordStart].
  destruct (at_is_Some m (Z.of_nat (S n))) as [l ->]; [lia|]. simpl.
  destruct (alnumText l); [apply IH; lia|by eexists].
Qed.

Lemma wordEnd_ok m n e :
  0 <= e -> (n <> O -> Z.of_nat n <= lastOffset m + 1 - e) ->
  exists r, wordEnd m n e = Ok r.
Proof.
  revert e. induction n as [|n IH]; intros e He Hn; [by eexists|].
  specialize (Hn ltac:(done)).
  cbn [wordEnd].
  destruct (at_is_Some m e) as [l ->]; [lia|]. simpl.
  destruct (alnumText l); [apply IH; lia|by eexists].
Qed.

Lemma selectGroup_returns m :
  is_Some (at_ m (position m)) ->
  exists m', selectGroup m = Ok (true, m', []).
Proof.
  intros [here Hh]. pose proof (at_Some_range _ _ _ Hh) as Hr.
  unfold selectGroup. rewrite bind_getModel.
  destruct (decide (getMode m (position m) = Some text)) as [Ht|Ht].
  - destruct (decide (Z.min (anchor m) (position m) > 0)) as [Hpos|Hpos].
    + destruct (wordStart_ok m (Z.to_nat (Z.min (anchor m) (position m))))
        as [s Hs]; [lia|].
      destruct (wordEnd_ok m
                  (Z.to_nat (lastOffset m + 1 - Z.max (anchor m) (position m)))
                  (Z.max (anchor m) (position m))) as [[e d] He]; [lia|lia|].
      rewrite bind_liftResult, Hs, bind_liftResult, He.
      case_decide; run; by eexists.
    + destruct (wordEnd_ok m
                  (Z.to_nat (lastOffset m + 1 - Z.max (anchor m) (position m)))
                  (Z.max (anchor m) (position m))) as [[e d] He]; [lia|lia|].
      rewrite bind_liftResult, bind_liftResult, He.
      case_decide; run; by eexists.
  - rewrite Hh. destruct (isNumber (Some here)).
    + run. by eexists.
    + destruct (firstSibling_is_Some _ _ _ Hh) as [f Hf].
      destruct (lastSibling_is_Some _ _ _ Hh) as [g Hg].
      rewrite bind_liftResult. simpl. rewrite bind_liftResult, Hf. simpl.
      rewrite bind_liftResult, Hg. simpl. run. by eexists.
Qed.

Lemma selectGroup_never_fails m b m' out :
  selectGroup m = Ok (b, m', out) -> b = true /\ out = [].
Proof.
  unfold selectGroup. rewrite bind_getModel.
  destruct (decide (getMode m (position m) = Some text)) as [Ht|Ht].
  - rewrite bind_liftResult. destruct (if decide _ then _ else _) as [s| |]; try done.
    rewrite bind_liftResult. destruct (wordEnd _ _ _) as [[e d]| |]; try done.
    case_decide; run; by intros [= <- <- <-].
  - destruct (isNumber _).
    + run. by intros [= <- <- <-].
    + rewrite bind_liftResult. destruct (defined _) as [a| |]; try done.
      rewrite bind_liftResult. destruct (offsetOf_ _ _) as [s| |]; try done.
      rewrite bind_liftResult. destruct (offsetOf_ _ _) as [e| |]; try done.
      run. by intros [= <- <- <-].
Qed.

(** ** Vertical moves without a branch to go to *)

Section Boundaries.

Context (env : Env).

Lemma moveVertically_no_branch c from to kind dir extend m here :
  let m1 := collapseTo c m in
  at_ m1 (position m1) = Some here ->
  nearestInBranch m1 from (Some here) = None ->
  moveVertically env c from to kind dir extend m =
  match parent m1 here ≫= parent m1 with
  | None =>
      let result := consultMoveOut env m1 dir in
      Ok (result, m1, [Announce (if result then Plonk else Line) None])
  | Some _ => Ok (true, m1, [])
  end.
Proof.
  intros m1 Hh Hn. unfold moveVertically. run.
  rewrite collapseSelection_eq. fold m1. simpl. rewrite Hh, Hn. simpl.
  rewrite !result_eta. by destruct (option_bind _ _ _ _).
Qed.

(** C9, amended.  [moveToMathFieldStart], [moveToMathFieldEnd],
    [moveToGroupStart] and [moveToGroupEnd] return [false] and announce a
    plonk when the caret is already there.  [selectGroup] never returns
    [false] and never announces anything; it returns [true] whenever the
    position is in the document.  [moveUpward] and [moveDownward], with no
    ancestor in a [below] (resp. [above]) branch: at the top of the document
    they return the boolean of the [moveOut] hook ([true] when notifications
    are suppressed) and announce plonk when it is [true], line when it is
    [false]; deeper they return [true] and announce nothing. *)
Theorem boundary_reports m :
  (position m = 0 ->
     moveToMathFieldStart m = Ok (false, m, [Announce Plonk None]))
  /\ (position m = lastOffset m ->
     moveToMathFieldEnd m = Ok (false, m, [Announce Plonk None]))
  /\ (forall here edge,
        at_ m (position m) = Some here ->
        (firstSibling m here = Some edge -> offsetOf m edge = position m ->
           moveToGroupStart m = Ok (false, m, [Announce Plonk None]))
        /\ (lastSibling m here = Some edge -> offsetOf m edge = position m ->
           moveToGroupEnd m = Ok (false, m, [Announce Plonk None])))
  /\ (forall b m' out,
        selectGroupCommand m = Ok (b, m', out) -> b = true /\ out = [])
  /\ (is_Some (at_ m (position m)) ->
        exists m', selectGroupCommand m = Ok (true, m', []))
  /\ (forall extend here,
        let m1 := collapseTo backward m in
        at_ m1 (position m1) = Some here ->
        nearestInBranch m1 below (Some here) = None ->
        moveUpward env extend m =
        match parent m1 here ≫= parent m1 with
        | None =>
            let result := consultMoveOut env m1 upward in
            Ok (result, m1, [Announce (if result then Plonk else Line) None])
        | Some _ => Ok (true, m1, [])
        end)
  /\ (forall extend here,
        let m1 := collapseTo forward m in
        at_ m1 (position m1) = Some here ->
        nearestInBranch m1 above (Some here) = None ->
        moveDownward env extend m =
        match parent m1 here ≫= parent m1 with
        | None =>
            let result := consultMoveOut env m1 downward in
            Ok (result, m1, [Announce (if result then Plonk else Line) None])
        | Some _ => Ok (true, m1, [])
        end).
Proof.
  repeat split.
  - intros H. unfold moveToMathFieldStart. run. by rewrite decide_True.
  - intros H. unfold moveToMathFieldEnd. run. by rewrite decide_True.
  - intros Hf Ho. unfold moveToGroupStart, moveToGroupEdge.
    rewrite bind_getModel, bind_liftResult, H. cbn [defined].
    rewrite bind_liftResult, Hf. cbn. by rewrite decide_True.
  - intros Hf Ho. unfold moveToGroupEnd, moveToGroupEdge.
    rewrite bind_getModel, bind_liftResult, H. cbn [defined].
    rewrite bind_liftResult, Hf. cbn. by rewrite decide_True.
  - unfold selectGroupCommand, orPlonk in H. revert H. run.
    destruct (selectGroup m) as [[[b0 m0] out0]| |] eqn:E; [|done..].
    apply selectGroup_never_fails in E as [-> ->]. simpl. by intros [= <- <- <-].
  - unfold selectGroupCommand, orPlonk in H. revert H. run.
    destruct (selectGroup m) as [[[b0 m0] out0]| |] eqn:E; [|done..].
    apply selectGroup_never_fails in E as [-> ->]. simpl. by intros [= <- <- <-].
  - intros [m' Hm]%selectGroup_returns. exists m'.
    unfold selectGroupCommand, orPlonk. run. by rewrite Hm.
  - intros extend here m1 Hh Hn. by apply moveVertically_no_branch.
  - intros extend here m1 Hh Hn. by apply moveVertically_no_branch.
Qed.
End Boundaries.

(** The theorem at the start of "x, y, z". *)
Lemma boundary_reports_witness :
  moveToMathFieldStart (caretAt 0 xyz)
  = Ok (false, caretAt 0 xyz, [Announce Plonk None]).
Proof.
  destruct (boundary_reports defaultHost (caretAt 0 xyz)) as [H _].
  apply H. reflexivity.
Defined.

(** C9 as stated fails: after the space of "a b" no word is found and
    [selectGroup] selects one character and returns [true] without a plonk;
    at the top of "x, y, z" [moveUpward] returns [true] with the plonk, or
    [false] with a line announcement when the host handles the exit; in the
    superscript of x squared it returns [true] and announces nothing. *)
Lemma boundary_false_plonk_counterexample :
  (getMode (caretAt 2 aSpaceB) 2 = Some text
   /\ selectGroupCommand (caretAt 2 aSpaceB)
      = Ok (true, setCursor 0 1 (caretAt 2 aSpaceB), []))
  /\ (nearestInBranch (caretAt 1 xyz) below (at_ (caretAt 1 xyz) 1) = None
     /\ moveUpward defaultHost false (caretAt 1 xyz)
        = Ok (true, caretAt 1 xyz, [Announce Plonk None])
     /\ moveUpward handlingHost false (caretAt 1 xyz)
        = Ok (false, caretAt 1 xyz, [Announce Line None]))
  /\ (nearestInBranch (caretAt 3 xSquared) below (at_ (caretAt 3 xSquared) 3)
       = None
     /\ moveUpward defaultHost false (caretAt 3 xSquared)
        = Ok (true, caretAt 3 xSquared, [])).
Proof. repeat split; vm_compute; reflexivity. Qed.

(* ================================================================== *)
(** * Part IX: placeholder leap and script depth                       *)
(* ================================================================== *)

Section Leap.

Context (env : Env).

Lemma leap_eq depth dir callHooks m m1 out1 :
  leapStart env depth dir m = Ok (tt, m1, out1) ->
  leapCandidates m1 dir = [] ->
  leap env depth dir callHooks m =
  if negb callHooks || negb (consultTabOut env m1 dir) then
    Ok (false, m1, out1 ++ [Announce Plonk None])
  else
    match tabToNext env (if decide (dir = forward) then 1 else -1) m1 with
    | Ok (b, m2, out2) => Ok (b, m2, out1 ++ out2)
    | TypeError => TypeError
    | OutOfFuel => OutOfFuel
    end.
Proof.
  intros Hs Hc. unfold leap. run. rewrite Hs. simpl. rewrite Hc.
  destruct (negb callHooks || negb (consultTabOut env m1 dir)); simpl; [done|].
  by destruct (tabToNext env _ m1) as [[[? ?] ?]| |].
Qed.

(** C8, amended.  When [leap(forward)] finds no candidate in the document:
    if [tabOut] is undefined or returns [false], the leap returns [false]
    and announces a plonk.  If [tabOut] returns [true], the focus provider
    decides: [false] with a plonk when no element has the focus or exactly
    one element is focusable; otherwise the focus moves to the next element,
    and the leap returns [true] without plonk unless that element is the
    first one, in which case it returns [false] with a plonk. *)
Theorem leap_without_candidate depth m m1 out1 :
  leapStart env depth forward m = Ok (tt, m1, out1) ->
  leapCandidates m1 forward = [] ->
  (consultTabOut env m1 forward = false ->
     leap env depth forward true m
     = Ok (false, m1, out1 ++ [Announce Plonk None]))
  /\ (consultTabOut env m1 forward = true ->
     (activeElement env = None \/ length (tabbableElements env) = 1%nat ->
        leap env depth forward true m
        = Ok (false, m1, out1 ++ [Announce Plonk None]))
     /\ (forall active e,
           activeElement env = Some active ->
           length (tabbableElements env) <> 1%nat ->
           let index := nextIndex (tabbableElements env) active 1 in
           0 <= index ->
           tabbableElements env !! Z.to_nat index = Some e ->
           leap env depth forward true m
           = if decide (index = 0)
             then Ok (false, m1, out1 ++ [Focus e; Announce Plonk None])
             else Ok (true, m1, out1 ++ [Focus e]))).
Proof.
  intros Hs Hc. rewrite (leap_eq _ _ _ _ _ _ Hs Hc). simpl.
  split; [by intros ->|]. intros ->. simpl. unfold tabToNext. split.
  - intros [->|Hl]; [done|]. destruct (activeElement env); [|done].
    by rewrite decide_True.
  - intros active e Ha Hl Hi He. rewrite Ha, decide_False by done.
    run. rewrite decide_False by lia. rewrite He. simpl.
    by destruct (decide (nextIndex _ _ _ = 0)).
Qed.
End Leap.

(** The theorem after the x of "placeholder + x", under a host whose
    [tabOut] returns [false]. *)
Lemma leap_without_candidate_witness :
  leap handlingHost 1 forward true (caretAt 3 placeholderPlusX)
  = Ok (false, caretAt 3 placeholderPlusX, [] ++ [Announce Plonk None]).
Proof.
  destruct (leap_without_candidate handlingHost 1 (caretAt 3 placeholderPlusX)
              (caretAt 3 placeholderPlusX) [] eq_refl eq_refl) as [H _].
  apply H. reflexivity.
Defined.

(** C8 as stated fails after the x of "placeholder + x" when [tabOut]
    returns [true] and the first of three focusable elements has the focus:
    the focus moves to the second and the leap returns [true], without
    plonk. *)
Lemma leap_tabOut_true_counterexample :
  let m := caretAt 3 placeholderPlusX in
  leapCandidates m forward = []
  /\ consultTabOut defaultHost m forward = true
  /\ leap defaultHost 1 forward true m = Ok (true, m, [Focus 20%nat])
  /\ plonked [Focus 20%nat] = false.
Proof. repeat split; vm_compute; reflexivity. Qed.

Section Scripts.

Context (env : Env).

Lemma moveToScript_limit name depthOf bound newAtom m :
  depthOf (collapseTo (defaultDirection env) m) >= bound ->
  moveToScript env name depthOf bound newAtom m
  = Ok (false, collapseTo (defaultDirection env) m, [Announce Plonk None]).
Proof.
  intros H. unfold moveToScript. run. rewrite collapseSelection_eq. simpl.
  by rewrite decide_True.
Qed.

Lemma root_collapseTo d m : root (collapseTo d m) = root m.
Proof. unfold collapseTo. by destruct (collapsed m). Qed.

(** C10, amended.  When the superscript (resp. subscript) depth, computed
    after the selection was collapsed, reaches the [scriptDepth] bound,
    [moveToSuperscript] (resp. [moveToSubscript]) returns [false] and
    announces a plonk; the tree is untouched, and the selection is only
    collapsed: it is unchanged when it was collapsed already. *)
Theorem script_depth_limit m :
  let m1 := collapseTo (defaultDirection env) m in
  (superscriptDepth m1 >= (scriptDepth env).2 ->
     moveToSuperscript env m = Ok (false, m1, [Announce Plonk None]))
  /\ (subscriptDepth m1 >= (scriptDepth env).1 ->
     moveToSubscript env m = Ok (false, m1, [Announce Plonk None]))
  /\ root m1 = root m
  /\ (collapsed m = true -> m1 = m).
Proof.
  repeat split.
  - apply moveToScript_limit.
  - apply moveToScript_limit.
  - apply root_collapseTo.
  - apply collapseTo_collapsed.
Qed.
End Scripts.

(** The theorem on "x, y, z" with a bound of zero. *)
Lemma script_depth_limit_witness :
  moveToSuperscript defaultHost (caretAt 1 xyz)
  = Ok (false, caretAt 1 xyz, [Announce Plonk None]).
Proof.
  destruct (script_depth_limit defaultHost (caretAt 1 xyz)) as [H _].
  apply H. vm_compute. discriminate.
Defined.

(** C10 as stated fails on a range: with the selection from 0 to 1 and the
    bound reached, the command answers [false] with a plonk and leaves the
    selection collapsed at 1. *)
Lemma script_limit_keeps_selection_counterexample :
  let m := setCursor 0 1 (caretAt 0 xyz) in
  superscriptDepth (collapseTo forward m) >= (scriptDepth defaultHost).2
  /\ moveToSuperscript defaultHost m
     = Ok (false, caretAt 1 xyz, [Announce Plonk None])
  /\ (anchor m, position m) = (0, 1)
  /\ (anchor (caretAt 1 xyz), position (caretAt 1 xyz)) = (1, 1).
Proof. repeat split; vm_compute; reflexivity || discriminate. Qed.

(* ================================================================== *)
(** * Part X: skipping word by word                                    *)
(* ================================================================== *)

(** C5.  In the text run "blue yellow" with the caret at offset 0,
    [skip(forward)] lands at offset 4, just after the e of "blue" and before
    the space; from there [skip(forward)] lands at offset 11, just after
    "yellow".  Any budget of at least [lastOffset + 1] steps does. *)
Theorem word_boundary_scenario (extra : nat) :
  let start := caretAt 0 blueYellow in
  let budget := (Z.to_nat (lastOffset start + 1) + extra)%nat in
  (value ∘ node <$> at_ start 4) = Some "e"
  /\ (value ∘ node <$> at_ start 5) = Some " "
  /\ (value ∘ node <$> at_ start 11) = Some "w"
  /\ lastOffset start = 11
  /\ skip budget forward false start
     = Ok (true, caretAt 4 blueYellow, [Announce Move (Some 0)])
  /\ skip budget forward false (caretAt 4 blueYellow)
     = Ok (true, caretAt 11 blueYellow, [Announce Move (Some 4)]).
Proof. repeat split; vm_compute; reflexivity. Qed.

(* ================================================================== *)
(** * Part XI: moving up creates the branch                            *)
(* ================================================================== *)

(** ** Updating the atom at a path *)

Lemma branches_setBranch a name xs :
  branches (setBranch a name xs) name = Some xs.
Proof. unfold setBranch. simpl. by rewrite decide_True. Qed.

Lemma walk_modify f p : forall a b x,
  walk a p = Some (b, x) -> exists b', walk (modify f p a) p = Some (b', f x).
Proof.
  induction p as [|[br i] q IH]; intros a b x.
  - intros [= <- <-]. by exists O.
  - cbn [walk modify].
    destruct (branches a br) as [xs|] eqn:Eb; [|done]. simpl.
    destruct (xs !! i) as [x0|] eqn:Ei; [|done]. simpl.
    destruct (walk x0 q) as [[b0 y]|] eqn:Ew; [|done]. simpl.
    intros [= <- <-]. destruct (IH _ _ _ Ew) as [b' Hw'].
    cbn [walk]. rewrite decide_True by done. simpl.
    rewrite list_lookup_insert_eq by (by eapply lookup_lt_Some). simpl.
    rewrite Hw'. simpl. by eexists.
Qed.

Lemma locate_updateAtom f owner m b :
  walk (root m) (rev (path owner)) = Some (b, node owner) ->
  locate (updateAtom f owner m) (path owner)
  = Some (MkLoc (path owner) (f (node owner))).
Proof.
  intros Hw. destruct (walk_modify f _ _ _ _ Hw) as [b' Hw'].
  unfold locate, lookupPath, updateAtom. simpl. by rewrite Hw'.
Qed.

Lemma locate_inv m p l :
  locate m p = Some l ->
  path l = p /\ exists b, walk (root m) (rev p) = Some (b, node l).
Proof.
  unfold locate, lookupPath.
  destruct (walk (root m) (rev p)) as [[b y]|]; [|done].
  intros [= <-]. split; [done|]. by exists b.
Qed.

(** ** Running a command step by step *)

Lemma bind_Ok {A B} (c : Cmd A) (k : A -> Cmd B) m a m' out :
  c m = Ok (a, m', out) ->
  (c ≫= k) m =
  match k a m' with
  | Ok (b, m'', out') => Ok (b, m'', out ++ out')
  | TypeError => TypeError
  | OutOfFuel => OutOfFuel
  end.
Proof. intros H. unfold mbind, Cmd_bind. by rewrite H. Qed.

Lemma bind_modifyModel {B} f (k : unit -> Cmd B) m :
  (modifyModel f ≫= k) m = k tt (f m).
Proof. unfold mbind, Cmd_bind, modifyModel. simpl. apply result_eta. Qed.

Lemma bind_collapseSelection {B} d (k : bool -> Cmd B) m :
  (collapseSelection d ≫= k) m = k (negb (collapsed m)) (collapseTo d m).
Proof.
  unfold mbind, Cmd_bind. rewrite collapseSelection_eq. simpl. apply result_eta.
Qed.

Section Vertical.

Context (env : Env).

(** C7.  When [moveUpward] runs without extend from a position that has an
    ancestor-or-self in a [below] branch, and the owner of the nearest one
    has no [above] branch, it returns [true], announces the move, gives the
    owner an [above] branch made of its sentinel, and puts the caret at the
    offset of that atom, the last of the new branch. *)
Theorem moveUpward_creates_branch m here atom owner :
  let m1 := collapseTo backward m in
  at_ m1 (position m1) = Some here ->
  nearestInBranch m1 below (Some here) = Some atom ->
  parent m1 atom = Some owner ->
  branch (node owner) above = None ->
  let grown := createBranch above (node owner) in
  let target := MkLoc ((above, O) :: path owner) (makeFirstAtom (node owner)) in
  exists m',
    moveUpward env false m = Ok (true, m', [Announce MoveUp None])
    /\ root m' = modify (createBranch above) (rev (path owner)) (root m1)
    /\ locate m' (path owner) = Some (MkLoc (path owner) grown)
    /\ branch grown above = Some [makeFirstAtom (node owner)]
    /\ at_ m' (position m') = Some target
    /\ anchor m' = position m'
    /\ position m' = offsetOf m' target
    /\ parent m' target = Some (MkLoc (path owner) grown)
    /\ treeBranch target = Some above.
Proof.
  intros m1 Hh Hn Hp Hb grown target.
  assert (exists b, walk (root m1) (rev (path owner)) = Some (b, node owner))
    as [b Hw].
  { unfold parent in Hp. destruct (path atom) as [|s q]; [done|].
    apply locate_inv in Hp as [Hq Hw]. by rewrite Hq. }
  set (m2 := updateAtom (createBranch above) owner m1).
  pose proof (locate_updateAtom (createBranch above) owner m1 b Hw) as Ho.
  fold m2 grown in Ho.
  assert (branch grown above = Some [makeFirstAtom (node owner)]) as Hg.
  { unfold grown, createBranch, branch in *. rewrite Hb.
    apply branches_setBranch. }
  assert (locate m2 ((above, O) :: path owner) = Some target) as Ht.
  { apply locate_inv in Ho as [_ [b2 Hw2]]. simpl in Hw2.
    by apply (locate_cons m2 above O (path owner) b2 grown _ _ Hw2 Hg). }
  destruct (offsetOf_locate m2 ((above, O) :: path owner) target
              ltac:(done) Ht) as [Hr Ha].
  exists (setCursor (offsetOf m2 target) (offsetOf m2 target) m2).
  split.
  - unfold moveUpward, moveVertically.
    rewrite bind_collapseSelection, bind_getModel. fold m1. rewrite Hh, Hn.
    rewrite bind_liftResult, Hp. cbn [defined].
    erewrite bind_Ok; cycle 1.
    { rewrite bind_modifyModel, bind_getModel. fold m2.
      rewrite bind_liftResult, Ho. cbn [defined node path].
      rewrite bind_liftResult, Hg. cbn [defined length pred].
      rewrite bind_liftResult, Ht. reflexivity. }
    reflexivity.
  - repeat split; done.
Qed.
End Vertical.

(** The theorem after the x of a fraction that has a denominator only: the
    caret ends at offset 1, in the new numerator. *)
Lemma moveUpward_creates_branch_witness :
  exists m',
    moveUpward defaultHost false (caretAt 2 denominatorOnly)
    = Ok (true, m', [Announce MoveUp None])
    /\ position m' = 1.
Proof.
  destruct (moveUpward_creates_branch defaultHost (caretAt 2 denominatorOnly)
    (MkLoc [(below, 1%nat); (body, 1%nat)] (sym mord "x"))
    (MkLoc [(below, 1%nat); (body, 1%nat)] (sym mord "x"))
    (MkLoc [(body, 1%nat)]
       (setBranch (sym genfrac "") below [sentinel; sym mord "x"]))
    eq_refl eq_refl eq_refl eq_refl) as (m' & H1 & H2 & H3 & H4 & H5 & H6 & H7 & _).
  exists m'. split; [exact H1|].
  rewrite H7. unfold offsetOf. rewrite H2. reflexivity.
Defined.

(* ================================================================== *)
(** * Part XII: a skip ends within its budget                          *)
(* ================================================================== *)

(** ** The loops over offsets *)

Lemma room_step m dir i l :
  dir = 1 \/ dir = -1 -> at_ m i = Some l ->
  room m dir i = S (room m dir (i + dir)).
Proof.
  intros Hd Hi%at_Some_range. unfold room.
  destruct Hd as [-> | ->]; simpl; lia.
Qed.

Lemma skipWhile_budget fuel m p dir i :
  dir = 1 \/ dir = -1 -> (room m dir i <= fuel)%nat ->
  exists i' f, skipWhile fuel m p dir i = Ok (i', f)
               /\ (room m dir i' <= f)%nat.
Proof.
  intros Hd. revert i. induction fuel as [|fuel IH]; intros i Hr; simpl.
  - destruct (at_ m i) as [l|] eqn:E; [|by eexists _, _].
    rewrite (room_step m dir i l Hd E) in Hr. lia.
  - destruct (at_ m i) as [l|] eqn:E; [|by eexists _, _].
    destruct (p l); [|by eexists _, _].
    apply IH. rewrite (room_step m dir i l Hd E) in Hr. lia.
Qed.

Lemma matchWhile_budget fuel m p dir i matched :
  dir = 1 \/ dir = -1 -> (room m dir i <= fuel)%nat ->
  exists i' f, matchWhile fuel m p dir i matched = Ok (i', f)
               /\ (room m dir i' <= f)%nat.
Proof.
  intros Hd. revert i matched.
  induction fuel as [|fuel IH]; intros i matched Hr; simpl.
  - destruct (at_ m i) as [l|] eqn:E; [|by eexists _, _].
    rewrite (room_step m dir i l Hd E) in Hr. lia.
  - destruct (at_ m i) as [l|] eqn:E; [|by eexists _, _].
    destruct matched; [|by eexists _, _].
    apply IH. rewrite (room_step m dir i l Hd E) in Hr. lia.
Qed.

Lemma doMatchWhile_budget fuel m p dir i :
  dir = 1 \/ dir = -1 -> (room m dir i <= fuel)%nat ->
  is_Some (at_ m i) ->
  exists i' f, doMatchWhile fuel m p dir i = Ok (i', f)
               /\ (room m dir i' <= f)%nat.
Proof.
  intros Hd Hr [l Hl]. unfold doMatchWhile. rewrite Hl. simpl.
  rewrite (room_step m dir i l Hd Hl) in Hr.
  destruct fuel as [|fuel]; [lia|]. apply matchWhile_budget; [done|lia].
Qed.

Lemma room_le m dir i :
  dir = 1 \/ dir = -1 -> is_Some (at_ m i) -> (room m dir i <= skipBudget m)%nat.
Proof.
  intros Hd [l Hl%at_Some_range]. unfold room, skipBudget.
  destruct Hd as [-> | ->]; simpl; lia.
Qed.

Lemma wordBoundaryOffset_halts fuel m offset direction :
  (skipBudget m <= fuel)%nat -> halts (wordBoundaryOffset fuel m offset direction).
Proof.
  intros Hf. unfold wordBoundaryOffset, halts.
  destruct (at_ m offset) as [l|] eqn:El; [|done]. simpl.
  destruct (inText l); simpl; [|done].
  set (dir := match direction with backward => -1 | _ => 1 end).
  assert (dir = 1 \/ dir = -1) as Hd by (unfold dir; destruct direction; auto).
  assert (room m dir offset <= fuel)%nat as Hr.
  { etrans; [apply room_le; [done|by eexists]|done]. }
  destruct (test LETTER_AND_DIGITS (value (node l))).
  - destruct (doMatchWhile_budget fuel m alnumText dir offset Hd Hr)
      as (i & f & -> & _); [by eexists|]. done.
  - destruct (hasSpace (value (node l))).
    + destruct (skipWhile_budget fuel m spaceText dir offset Hd Hr)
        as (i & f & -> & Hi). simpl.
      destruct (at_ m i) as [l'|] eqn:Ei; [|done].
      destruct (doMatchWhile_budget f m nonSpaceText dir i Hd Hi)
        as (i' & f' & -> & _); [by eexists|]. done.
    + destruct (skipWhile_budget fuel m nonSpaceText dir offset Hd Hr)
        as (i & f & -> & Hi). simpl.
      destruct (matchWhile_budget f m spaceText dir i true Hd Hi)
        as (i' & f' & -> & _). done.
Qed.

(** ** The loops over siblings *)

Section SiblingWalks.

Context (m : Model) (next : Loc -> option Loc) (potential : Loc -> nat).
Hypothesis next_decreases : forall l r,
  inDocument m l -> next l = Some r ->
  inDocument m r /\ (potential r < potential l)%nat.

Lemma commandRun_halts fuel atom offset :
  from_option (inDocument m) True atom ->
  (from_option (fun l => S (potential l)) O atom <= fuel)%nat ->
  halts (commandRun fuel m next atom offset).
Proof.
  unfold halts. revert atom offset.
  induction fuel as [|fuel IH]; intros [l|] offset Hin Hf; simpl in *;
    try done.
  - lia.
  - destruct (isCommandAtom l && commandLetter l); [|done].
    apply IH.
    + destruct (next l) as [r|] eqn:E; [|done]. simpl.
      by destruct (next_decreases l r Hin E).
    + destruct (next l) as [r|] eqn:E; simpl; [|lia].
      destruct (next_decreases l r Hin E). lia.
Qed.

Lemma balance_halts fuel edge l level :
  inDocument m l -> (S (potential l) <= fuel)%nat ->
  halts (balance fuel next edge l level).
Proof.
  unfold halts. revert l level.
  induction fuel as [|fuel IH]; intros l level Hin Hf; simpl; [lia|].
  destruct (next l) as [r|] eqn:E; [|done]. simpl.
  destruct (next_decreases l r Hin E).
  destruct (negb (edge r) && _); [|done]. apply IH; [done|lia].
Qed.

End SiblingWalks.

Lemma rightSibling_decreases m l r :
  inDocument m l -> rightSibling m l = Some r ->
  inDocument m r
  /\ (Z.to_nat (lastOffset m - offsetOf m r)
      < Z.to_nat (lastOffset m - offsetOf m l))%nat.
Proof.
  intros [k Hk] Hr. destruct (rightSibling_offset _ _ _ _ Hk Hr) as [Ho Ha].
  split; [by eexists|]. rewrite (offsetOf_at _ _ _ Hk).
  apply at_Some_range in Ha. lia.
Qed.

Lemma leftSibling_decreases m l r :
  inDocument m l -> leftSibling m l = Some r ->
  inDocument m r
  /\ (Z.to_nat (offsetOf m r) < Z.to_nat (offsetOf m l))%nat.
Proof.
  intros [k Hk] Hr.
  destruct (leftSibling_offset _ _ _ _ Hk Hr) as (Ho & H0 & Ha).
  split; [by eexists|]. rewrite (offsetOf_at _ _ _ Hk). lia.
Qed.

Lemma inDocument_budget_right m l :
  inDocument m l ->
  (S (Z.to_nat (lastOffset m - offsetOf m l)) <= skipBudget m)%nat.
Proof.
  intros [k Hk]. rewrite (offsetOf_at _ _ _ Hk).
  apply at_Some_range in Hk. unfold skipBudget. lia.
Qed.

Lemma inDocument_budget_left m l :
  inDocument m l -> (S (Z.to_nat (offsetOf m l)) <= skipBudget m)%nat.
Proof.
  intros [k Hk]. rewrite (offsetOf_at _ _ _ Hk).
  apply at_Some_range in Hk. unfold skipBudget. lia.
Qed.

(** ** Accepting a suggestion: the tree changes, its shape does not *)


Lemma branches_setBranch_ne a name xs br :
  br <> name -> branches (setBranch a name xs) br = branches a br.
Proof. intros H. unfold setBranch. simpl. by rewrite decide_False. Qed.

Lemma walk_modify_is_Some f :
  (forall a, branches (f a) = branches a) ->
  forall q p a, is_Some (walk (modify f p a) q) -> is_Some (walk a q).
Proof.
  intros Hf. induction q as [|[br i] q IH]; intros p a; [by eexists|].
  destruct p as [|[br0 i0] p]; cbn [modify].
  - cbn [walk]. rewrite Hf.
    destruct (branches a br) as [xs|]; simpl; [|done].
    destruct (xs !! i) as [x|]; simpl; [|done].
    destruct (walk x q) as [[? ?]|]; simpl; [by eexists|done].
  - destruct (branches a br0) as [xs0|] eqn:E0; [|done].
    destruct (xs0 !! i0) as [x0|] eqn:Ei0; [|done].
    cbn [walk].
    destruct (decide (br = br0)) as [->|Hne].
    + rewrite branches_setBranch, E0. simpl.
      destruct (decide (i = i0)) as [->|Hni].
      * rewrite list_lookup_insert_eq by (by eapply lookup_lt_Some).
        rewrite Ei0. simpl.
        destruct (walk (modify f p x0) q) as [[? ?]|] eqn:Ew; simpl; [|by intros [? ?]].
        intros _. destruct (IH p x0) as [[? ?] ->]; [by rewrite Ew|].
        by eexists.
      * rewrite list_lookup_insert_ne by done.
        destruct (xs0 !! i) as [x|]; simpl; [|done].
        destruct (walk x q) as [[? ?]|]; simpl; [by eexists|done].
    + rewrite branches_setBranch_ne by done.
      destruct (branches a br) as [xs|]; simpl; [|done].
      destruct (xs !! i) as [x|]; simpl; [|done].
      destruct (walk x q) as [[? ?]|]; simpl; [by eexists|done].
Qed.

Lemma sameShape_clearSuggestion l m' m :
  sameShape m' m -> sameShape (clearSuggestion l m') m.
Proof.
  intros H p Hp. apply H. revert Hp.
  unfold locate, lookupPath, clearSuggestion, updateAtom. simpl.
  destruct (walk (modify _ _ _) _) as [[b y]|] eqn:E; [|by intros [? ?]].
  intros _.
  destruct (walk_modify_is_Some (fun a => setClass a (CommandAtom false))
              (fun _ => eq_refl) (rev p) (rev (path l)) (root m'))
    as [[? ?] ->]; [by rewrite E|]. by eexists.
Qed.

Lemma length_le_run_size xs : (length xs <= run_size xs)%nat.
Proof.
  induction xs as [|x r IH]; [done|]. rewrite run_size_cons. simpl length. lia.
Qed.

Lemma locate_index_le m br i (q : Path) :
  is_Some (locate m ((br, i) :: q)) -> Z.of_nat i <= lastOffset m.
Proof.
  intros [l Hl].
  destruct (offsetOf_locate m ((br, i) :: q) l ltac:(done) Hl) as [[_ Hle] _].
  apply locate_cons_inv in Hl as (b & o & xs & _ & _ & Hi & Hp & Hs).
  unfold offsetOf in Hle. rewrite Hp, Hs in Hle.
  pose proof (length_le_run_size (take i xs)) as Hlen.
  rewrite length_take in Hlen. apply lookup_lt_Some in Hi. lia.
Qed.


Lemma acceptSuggestion_halts fuel m m' atom offset :
  sameShape m' m -> (siblingsAhead m atom <= fuel)%nat ->
  halts (acceptSuggestion fuel m' atom offset).
Proof.
  unfold halts. revert m' atom offset.
  induction fuel as [|fuel IH]; intros m' [l|] offset Hs Hf; simpl in *;
    try done.
  - destruct (path l) as [|[br i] q]; lia.
  - destruct (isCommandAtom l); [|done].
    apply IH; [by apply sameShape_clearSuggestion|].
    unfold rightSibling. destruct (path l) as [|[br i] q] eqn:Ep; simpl; [lia|].
    destruct (locate (clearSuggestion l m') ((br, S i) :: q)) as [r|] eqn:Er;
      simpl; [|lia].
    rewrite (locate_path _ _ _ Er).
    assert (is_Some (locate m ((br, S i) :: q))) as Hi%locate_index_le.
    { apply (sameShape_clearSuggestion l m' m Hs). by rewrite Er. }
    lia.
Qed.

Lemma siblingsAhead_budget m l :
  inDocument m l -> (siblingsAhead m (Some l) <= skipBudget m)%nat.
Proof.
  intros [k Hk]. pose proof (at_Some_range _ _ _ Hk).
  unfold siblingsAhead, skipBudget.
  destruct (path l) as [|[br i] q]; lia.
Qed.

(** ** The loops of a math zone *)

Lemma offsetOf_le m l : offsetOf m l <= lastOffset m.
Proof.
  unfold offsetOf. destruct (slot (root m) (path l)) as [k|] eqn:E.
  - unfold slot in E. destruct (path l) as [|s q] eqn:Ep; [done|].
    destruct (walk (root m) (rev (s :: q))) as [[b y]|] eqn:Ew; [|done].
    injection E as <-.
    pose proof (descendants_complete (root m) [] (s :: q) b y ltac:(done) Ew)
      as H%lookup_lt_Some.
    unfold lastOffset, atoms. lia.
  - unfold lastOffset. lia.
Qed.

Lemma leadingFirsts_halts fuel m atom offset :
  (Z.to_nat offset <= fuel)%nat -> halts (leadingFirsts fuel m atom offset).
Proof.
  unfold halts. revert atom offset.
  induction fuel as [|fuel IH]; intros atom offset Hf; simpl.
  - case_decide; [lia|done].
  - case_decide; [|done]. destruct atom as [l|]; [|done]. simpl.
    case_decide; [|done]. apply IH. lia.
Qed.

Lemma sameTypeBackward_halts fuel m ty offset nextType :
  (Z.to_nat (offset + 1) <= fuel)%nat ->
  halts (sameTypeBackward fuel m ty offset nextType).
Proof.
  unfold halts. revert offset nextType.
  induction fuel as [|fuel IH]; intros offset nextType Hf; simpl.
  - destruct (bool_decide (offset >= 0)) eqn:E; [|done].
    apply bool_decide_eq_true in E. lia.
  - destruct (bool_decide (offset >= 0)) eqn:E; [|done].
    apply bool_decide_eq_true in E. simpl.
    destruct (bool_decide (nextType = Some ty)); [|done].
    case_decide as Ht.
    + destruct (at_ m offset) as [l|] eqn:El; [|done]. simpl.
      destruct (leftSibling m l) as [r|] eqn:Er; [|done]. simpl.
      destruct (leftSibling_offset _ _ _ _ El Er) as (Ho & H0 & Ha).
      rewrite Ha. simpl. apply IH. pose proof (at_Some_range _ _ _ El). lia.
    + simpl. destruct (at_ m (offset - 1)) as [l'|]; [|done]. simpl.
      apply IH. lia.
Qed.

Lemma overScripts_budget fuel m offset :
  (Z.to_nat (lastOffset m - offset) <= fuel)%nat ->
  match overScripts fuel m offset with
  | Ok (offset', f) =>
      (Z.to_nat (lastOffset m - offset') <= f)%nat /\ (f <= fuel)%nat
  | TypeError => True
  | OutOfFuel => False
  end.
Proof.
  revert offset. induction fuel as [|fuel IH]; intros offset Hf; simpl.
  - destruct (at_ m offset) as [l|] eqn:El; [|done]. simpl.
    case_decide as Ht; [|done].
    destruct (rightSibling m l) as [r|] eqn:Er; [|done].
    destruct (rightSibling_offset _ _ _ _ El Er) as [Ho Ha%at_Some_range].
    pose proof (at_Some_range _ _ _ El). lia.
  - destruct (at_ m offset) as [l|] eqn:El; [|done]. simpl.
    case_decide as Ht; [|split; lia].
    destruct (rightSibling m l) as [r|] eqn:Er; [|done]. simpl.
    destruct (rightSibling_offset _ _ _ _ El Er) as [Ho Ha%at_Some_range].
    pose proof (at_Some_range _ _ _ El).
    specialize (IH (offsetOf m r) ltac:(lia)).
    destruct (overScripts fuel m (offsetOf m r)) as [[o f]| |]; try done.
    destruct IH. split; lia.
Qed.

Lemma sameTypeForward_halts gas fuel m ty offset :
  (fuel <= gas)%nat ->
  (Z.to_nat (lastOffset m + 1 - offset) <= fuel)%nat ->
  halts (sameTypeForward gas fuel m ty offset (typeOf (at_ m offset))).
Proof.
  unfold halts. revert fuel offset.
  induction gas as [|gas IH]; intros fuel offset Hg Hf; simpl.
  - destruct (bool_decide (offset <= lastOffset m)) eqn:E; [|done].
    apply bool_decide_eq_true in E. lia.
  - destruct (bool_decide (offset <= lastOffset m)) eqn:E; [|done].
    apply bool_decide_eq_true in E. simpl.
    destruct (_ || _); [|done].
    destruct fuel as [|fuel]; [lia|].
    pose proof (overScripts_budget fuel m offset ltac:(lia)) as Ho.
    destruct (overScripts fuel m offset) as [[o f]| |]; try done. simpl.
    destruct Ho. apply IH; lia.
Qed.

(** ** The skip *)

Lemma halts_bind {A B} (c : Cmd A) (k : A -> Cmd B) m :
  halts (c m) ->
  (forall a m' out, c m = Ok (a, m', out) -> halts (k a m')) ->
  halts ((c ≫= k) m).
Proof.
  unfold halts, mbind, Cmd_bind. intros Hc Hk.
  destruct (c m) as [[[a m'] out]| |]; try done.
  specialize (Hk a m' out eq_refl). by destruct (k a m') as [[[? ?] ?]| |].
Qed.

Lemma halts_liftResult {A B} (r : Result A) (k : A -> Cmd B) m :
  halts r -> (forall a, r = Ok a -> halts (k a m)) ->
  halts ((liftResult r ≫= k) m).
Proof.
  intros Hr Hk. rewrite bind_liftResult. destruct r; try done. by apply Hk.
Qed.

Lemma halts_Ok {A} (a : A) : halts (Ok a).
Proof. done. Qed.

Lemma halts_TypeError {A} : halts (@TypeError A).
Proof. done. Qed.

Lemma skipFrom_inDocument m direction atom :
  skipFrom m direction = Ok (Some atom) -> inDocument m atom.
Proof.
  unfold skipFrom. case_decide.
  - destruct (at_ m (position m)) as [a|] eqn:Ea; [|done]. simpl.
    case_decide.
    + destruct (rightSibling m a) as [r|] eqn:Er.
      * intros [= <-]. eapply rightSibling_decreases; [by eexists|done].
      * intros [= H']. by eexists.
    + intros [= H']. by eexists.
  - intros [= H']. by eexists.
Qed.

Lemma skipTarget_halts fuel direction atom m :
  inDocument m atom -> (skipBudget m <= fuel)%nat ->
  halts (skipTarget fuel direction atom m).
Proof.
  intros Hin Hf. unfold skipTarget. rewrite bind_getModel.
  destruct (isTextAtom atom).
  { apply halts_liftResult; [by apply wordBoundaryOffset_halts|].
    by intros [? ?] _. }
  destruct (isCommandAtom atom).
  { destruct (isSuggestion atom).
    - apply halts_liftResult.
      + apply (acceptSuggestion_halts fuel m m); [by intros p|].
        etrans; [by apply siblingsAhead_budget|done].
      + by intros [[? ?] ?] _.
    - case_decide.
      + destruct (rightSibling m atom) as [a|] eqn:Ea; [|done].
        destruct (isCommandAtom a); [|done].
        destruct (rightSibling_decreases _ _ _ Hin Ea) as [Ha _].
        apply halts_liftResult; [|by intros [? ?] _].
        apply (commandRun_halts m (rightSibling m)
                 (fun l => Z.to_nat (lastOffset m - offsetOf m l))).
        * apply rightSibling_decreases.
        * done.
        * simpl. etrans; [by apply inDocument_budget_right|done].
      + destruct (leftSibling m atom) as [a|] eqn:Ea; [|done].
        destruct (isCommandAtom a); [|done].
        destruct (leftSibling_decreases _ _ _ Hin Ea) as [Ha _].
        apply halts_liftResult; [|by intros [? ?] _].
        apply (commandRun_halts m (leftSibling m)
                 (fun l => Z.to_nat (offsetOf m l))).
        * apply leftSibling_decreases.
        * done.
        * simpl. etrans; [by apply inDocument_budget_left|done]. }
  case_decide.
  { apply halts_liftResult.
    - apply (balance_halts m (rightSibling m)
               (fun l => Z.to_nat (lastOffset m - offsetOf m l))).
      + apply rightSibling_decreases.
      + done.
      + etrans; [by apply inDocument_budget_right|done].
    - intros [a ?] _. apply halts_liftResult; [|done].
      by destruct (leftSibling m a). }
  case_decide.
  { apply halts_liftResult; [|by intros [? ?] _].
    apply (balance_halts m (leftSibling m) (fun l => Z.to_nat (offsetOf m l))).
    - apply leftSibling_decreases.
    - done.
    - etrans; [by apply inDocument_budget_left|done]. }
  destruct Hin as [k Hk]. pose proof (at_Some_range _ _ _ Hk) as Hr.
  pose proof (offsetOf_at _ _ _ Hk) as Ho.
  case_decide.
  - case_decide.
    + apply halts_liftResult; [|by intros [? ?] _].
      apply leadingFirsts_halts. unfold skipBudget in Hf. lia.
    + apply halts_liftResult.
      * case_decide; [|done]. destruct (at_ m (offsetOf m atom)); [|done].
        simpl. by destruct (leftSibling m _).
      * intros offset1 Ho1. apply halts_liftResult; [|by intros [? ?] _].
        apply sameTypeBackward_halts.
        assert (offset1 <= lastOffset m).
        { revert Ho1. case_decide.
          - destruct (at_ m (offsetOf m atom)); [|done]. simpl.
            destruct (leftSibling m _) as [r|]; [|done]. simpl.
            intros [= <-]. apply offsetOf_le.
          - intros [= <-]. lia. }
        unfold skipBudget in Hf. lia.
  - apply halts_liftResult; [|by intros [? ?] _].
    apply sameTypeForward_halts; [done|]. unfold skipBudget in Hf. lia.
Qed.

Lemma skipBudget_collapseTo d m : skipBudget (collapseTo d m) = skipBudget m.
Proof. unfold skipBudget, lastOffset, atoms. by rewrite root_collapseTo. Qed.

(** C4.  Whatever the tree, the cursor, the direction and the extend flag,
    a budget of [lastOffset + 1] turns of its loops is enough for [skip]: it
    returns or throws, and never runs out of steps. *)
Theorem skip_halts_within_budget fuel direction extend m :
  (Z.to_nat (lastOffset m + 1) <= fuel)%nat ->
  halts (skip fuel direction extend m).
Proof.
  intros Hf. unfold skip. rewrite bind_getModel.
  apply halts_bind.
  { destruct (negb extend); [by rewrite collapseSelection_eq|done]. }
  intros wasRange m1 out1 H1.
  assert (skipBudget m1 = skipBudget m) as Hb.
  { destruct (negb extend).
    - rewrite collapseSelection_eq in H1. injection H1 as _ <- _.
      apply skipBudget_collapseTo.
    - by injection H1 as _ <- _. }
  rewrite bind_getModel. apply halts_liftResult.
  { unfold skipFrom, halts. case_decide; [|done].
    destruct (at_ m1 (position m1)); [|done]. simpl.
    case_decide; [|done]. by destruct (rightSibling m1 _). }
  intros [atom|] Ha; [|done].
  apply halts_bind.
  - apply skipTarget_halts; [by eapply skipFrom_inDocument|].
    rewrite Hb. done.
  - intros [offset|] m2 out2 _; [|done].
    rewrite bind_getModel. destruct extend.
    + unfold halts. run. by destruct (bool_decide _).
    + case_decide; done.
Qed.

(** The theorem before the fences of ( a ( b ) c ). *)
Lemma skip_halts_within_budget_witness :
  (Z.to_nat (lastOffset (caretAt 0 fences) + 1) <= 8)%nat
  /\ halts (skip 8 forward false (caretAt 0 fences)).
Proof.
  split; [vm_compute; lia|].
  apply skip_halts_within_budget. vm_compute. lia.
Defined.

(* ================================================================== *)
(** * Part XIII: skipping over balanced fences                         *)
(* ================================================================== *)

#[local] Transparent NAMED_BRANCHES.

(** ** Flat documents *)

Lemma locate_document p xs i x :
  (sentinel :: xs) !! i = Some x ->
  locate (caretAt p (document xs)) [(body, i)] = Some (MkLoc [(body, i)] x).
Proof. intros H. unfold locate, lookupPath. simpl. by rewrite H. Qed.

Lemma locate_document_None p xs i :
  (sentinel :: xs) !! i = None ->
  locate (caretAt p (document xs)) [(body, i)] = None.
Proof. intros H. unfold locate, lookupPath. simpl. by rewrite H. Qed.

Lemma offsetOf_document p xs i x y :
  (sentinel :: xs) !! i = Some x ->
  offsetOf (caretAt p (document xs)) (MkLoc [(body, i)] y)
  = Z.of_nat (run_size (take i (sentinel :: xs)) + size x).
Proof.
  intros H. unfold offsetOf, slot. simpl. rewrite H. simpl. f_equal. lia.
Qed.

Lemma at_document p xs i x :
  (sentinel :: xs) !! i = Some x ->
  at_ (caretAt p (document xs))
      (Z.of_nat (run_size (take i (sentinel :: xs)) + size x))
  = Some (MkLoc [(body, i)] x).
Proof.
  intros H. rewrite <- (offsetOf_document p xs i x x H).
  apply (at_offsetOf _ [(body, i)]); [done|]. by apply locate_document.
Qed.

Lemma size_document xs : size (document xs) = S (run_size xs).
Proof.
  rewrite size_unfold. unfold NAMED_BRANCHES, branchSize, document. simpl.
  fold (run_size xs). lia.
Qed.

Lemma lastOffset_document p xs :
  lastOffset (caretAt p (document xs)) = Z.of_nat (run_size xs).
Proof.
  unfold lastOffset, atoms. rewrite length_descendants. simpl root.
  rewrite size_document. lia.
Qed.

(** ** Balancing fences *)

Lemma balance_step f next edge atom atom' level :
  next atom = Some atom' -> edge atom' = false ->
  fenceLevel atom level <> 0 ->
  balance (S f) next edge atom level
  = balance f next edge atom' (fenceLevel atom level).
Proof.
  intros Hn He Hl. cbn [balance]. rewrite Hn. simpl. rewrite He. simpl.
  by rewrite bool_decide_eq_false_2.
Qed.

Lemma balance_stop f next edge atom atom' level :
  next atom = Some atom' -> edge atom' = true ->
  balance (S f) next edge atom level = Ok (atom', f).
Proof. intros Hn He. cbn [balance]. rewrite Hn. simpl. by rewrite He. Qed.

Lemma fenceLevel_plain l level :
  type (node l) <> mopen -> type (node l) <> mclose ->
  fenceLevel l level = level.
Proof. intros H1 H2. unfold fenceLevel. by rewrite !decide_False. Qed.

Lemma balance_zero f next edge atom atom' level :
  next atom = Some atom' -> fenceLevel atom level = 0 ->
  balance (S f) next edge atom level = Ok (atom', f).
Proof.
  intros Hn Hl. cbn [balance]. rewrite Hn. simpl.
  rewrite bool_decide_eq_true_2 by done. by rewrite andb_false_r.
Qed.

(** The forward skip over balanced fences, from the outcome of the walk. *)
Lemma skip_fences fuel m l0 opening met prev rest_ :
  collapsed m = true ->
  at_ m (position m) = Some l0 -> type (node l0) <> msubsup ->
  at_ m (position m + 1) = Some opening ->
  class (node opening) = PlainAtom -> type (node opening) = mopen ->
  balance fuel (rightSibling m) (isLastSibling m) opening 0
  = Ok (met, rest_) ->
  leftSibling m met = Some prev ->
  offsetOf m prev <> position m ->
  skip fuel forward false m
  = Ok (true, setCursor (offsetOf m prev) (offsetOf m prev) m,
        [Announce Move (Some (position m))]).
Proof.
  intros Hc H0 Hs H1 Hp Ho Hb Hl Hne. unfold skip.
  rewrite bind_getModel. cbn [negb].
  rewrite bind_collapseSelection, collapseTo_collapsed by done.
  rewrite bind_getModel.
  assert (skipFrom m forward = Ok (Some opening)) as ->.
  { unfold skipFrom. rewrite decide_True by done. rewrite H0. simpl.
    rewrite decide_False by done. by rewrite H1. }
  rewrite bind_liftResult.
  erewrite bind_Ok; cycle 1.
  { unfold skipTarget. rewrite bind_getModel.
    unfold isTextAtom, isCommandAtom. rewrite Hp.
    rewrite decide_True by done.
    rewrite Hb, bind_liftResult, Hl. simpl. reflexivity. }
  cbv iota beta. rewrite bind_getModel. rewrite decide_False by done.
  unfold setPosition. rewrite bind_modifyModel. reflexivity.
Qed.

Section Fences.

Context (a b c : Atom) (rest : list Atom).
Hypothesis a_plain : notFence a.
Hypothesis b_plain : notFence b.
Hypothesis c_plain : notFence c.

Let siblings_ : list Atom :=
  sym mopen "(" :: a :: sym mopen "(" :: b :: sym mclose ")" :: c
  :: sym mclose ")" :: rest.
Let start := caretAt 0 (fencesThen a b c rest).

Lemma fences_rightSibling i x y :
  (sentinel :: siblings_) !! S i = Some y ->
  rightSibling start (inBody i x) = Some (inBody (S i) y).
Proof. intros H. unfold rightSibling. simpl. by apply locate_document. Qed.

Lemma fences_inner i x y :
  (sentinel :: siblings_) !! S i = Some y ->
  isLastSibling start (inBody i x) = false.
Proof.
  intros H. unfold isLastSibling. by rewrite (fences_rightSibling i x y H).
Qed.

Lemma fences_edge i x :
  (sentinel :: siblings_) !! S i = None ->
  isLastSibling start (inBody i x) = true.
Proof.
  intros H. unfold isLastSibling.
  change (rightSibling start (inBody i x)) with (locate start [(body, S i)]).
  unfold start, fencesThen. by rewrite locate_document_None.
Qed.

Lemma fences_lastOffset :
  lastOffset start
  = 7 + Z.of_nat (size a + size b + size c) + Z.of_nat (run_size rest).
Proof.
  unfold start, fencesThen. rewrite lastOffset_document.
  rewrite !run_size_cons. change (size (sym _ _)) with 0%nat. lia.
Qed.

Lemma fences_level (i : nat) (x : Atom) (level : Z) :
  x = a \/ x = b \/ x = c -> fenceLevel (inBody i x) level = level.
Proof.
  intros [-> | [-> | ->]]; apply fenceLevel_plain; simpl;
    unfold notFence in *; tauto.
Qed.

Ltac level_ne :=
  rewrite ?(fences_level _ a), ?(fences_level _ b), ?(fences_level _ c)
    by tauto;
  vm_compute; discriminate.

Ltac fence_turn x :=
  rewrite (balance_step _ _ _ _ x);
    [|apply fences_rightSibling; reflexivity
     |eapply fences_inner; reflexivity|level_ne].

(** Up to the inner [c], whatever follows the outer close fence. *)
Lemma fences_balance_c k :
  balance (5 + k) (rightSibling start) (isLastSibling start)
          (inBody 1 (sym mopen "(")) 0
  = balance k (rightSibling start) (isLastSibling start) (inBody 6 c) 1.
Proof.
  change (5 + k)%nat with (S (S (S (S (S k))))).
  fence_turn (inBody 2 a).
  fence_turn (inBody 3 (sym mopen "(")).
  fence_turn (inBody 4 b).
  fence_turn (inBody 5 (sym mclose ")")).
  fence_turn (inBody 6 c).
  by rewrite ?(fences_level _ a), ?(fences_level _ b), ?(fences_level _ c)
    by tauto.
Qed.

(** The outer close fence ends the branch: the walk stops on it, one
    level open. *)
Lemma fences_balance_last k :
  rest = [] ->
  balance (6 + k) (rightSibling start) (isLastSibling start)
          (inBody 1 (sym mopen "(")) 0
  = Ok (inBody 7 (sym mclose ")"), k).
Proof.
  intros E. change (6 + k)%nat with (5 + S k)%nat. rewrite fences_balance_c.
  apply balance_stop; [apply fences_rightSibling; reflexivity|].
  apply fences_edge. simpl. by rewrite E.
Qed.

(** A sibling follows the outer close fence: the walk passes the fence and
    stops on that sibling, all levels closed. *)
Lemma fences_balance_more k d :
  rest !! 0%nat = Some d ->
  balance (7 + k) (rightSibling start) (isLastSibling start)
          (inBody 1 (sym mopen "(")) 0
  = Ok (inBody 8 d, k).
Proof.
  intros E. change (7 + k)%nat with (5 + S (S k))%nat.
  rewrite fences_balance_c.
  rewrite (balance_step _ _ _ _ (inBody 7 (sym mclose ")")));
    [|apply fences_rightSibling; reflexivity
     |eapply fences_inner; exact E|level_ne].
  apply balance_zero; [apply fences_rightSibling; exact E|].
  by rewrite (fences_level _ c) by tauto.
Qed.

Lemma fences_offset_c :
  offsetOf start (inBody 6 c) = 6 + Z.of_nat (size a + size b + size c).
Proof.
  unfold start, fencesThen, inBody.
  rewrite (offsetOf_document _ _ 6 c) by reflexivity.
  cbn [take]. rewrite !run_size_cons.
  change (size (sym _ _)) with 0%nat. change (size sentinel) with 0%nat.
  change (run_size []) with 0%nat. lia.
Qed.

Lemma fences_offset_close :
  offsetOf start (inBody 7 (sym mclose ")"))
  = 7 + Z.of_nat (size a + size b + size c).
Proof.
  unfold start, fencesThen, inBody.
  rewrite (offsetOf_document _ _ 7 (sym mclose ")")) by reflexivity.
  cbn [take]. rewrite !run_size_cons.
  change (size (sym _ _)) with 0%nat. change (size sentinel) with 0%nat.
  change (run_size []) with 0%nat. lia.
Qed.

Lemma fences_at_close :
  at_ start (offsetOf start (inBody 7 (sym mclose ")")))
  = Some (inBody 7 (sym mclose ")")).
Proof.
  apply (at_offsetOf _ [(body, 7%nat)]); [done|].
  by apply locate_document.
Qed.

End Fences.

#[local] Opaque NAMED_BRANCHES.

(* ================================================================== *)
(** * Part XIV: complements                                            *)
(* ================================================================== *)

(** ** A move always returns *)

Lemma branchSize_le_size a br : (branchSize a br <= size a)%nat.
Proof.
  rewrite size_unfold. pose proof (elem_of_NAMED_BRANCHES br) as Hin.
  induction NAMED_BRANCHES as [|b names IH]; [by apply elem_of_nil in Hin|].
  change (branchSize a br
          <= branchSize a b + sum_list (map (branchSize a) names))%nat.
  apply elem_of_cons in Hin as [->|Hin]; [lia|].
  specialize (IH Hin). lia.
Qed.

(** The owner of an atom of the document has descendants. *)
Lemma parent_has_children m l owner :
  inDocument m l -> parent m l = Some owner ->
  is_Some (firstChild owner) /\ is_Some (lastChild owner).
Proof.
  intros [k (br & i & q & b & o & xs & Hp & Hw & Hb & Hi)%at_path_cons] Ho.
  unfold parent in Ho. rewrite Hp, (locate_walk _ _ _ _ Hw) in Ho.
  injection Ho as <-. unfold firstChild, lastChild. simpl.
  assert (0 < length (descendants q o))%nat as Hlen.
  { rewrite length_descendants.
    pose proof (branchSize_le_size o br) as Hle. unfold branchSize in Hle.
    rewrite Hb in Hle. pose proof (length_le_run_size xs).
    apply lookup_lt_Some in Hi. lia. }
  destruct (descendants q o) as [|d ds] eqn:E; [simpl in Hlen; lia|].
  split; [by eexists|]. rewrite last_is_Some. done.
Qed.

Lemma moveCandidate_returns m direction :
  exists pos, moveCandidate m direction = Ok pos.
Proof.
  unfold moveCandidate.
  case_decide.
  - destruct (at_ m (position m + 1)) as [atom|] eqn:Ea; simpl.
    + destruct (parent m atom) as [owner|] eqn:Eo; simpl.
      * destruct (captureSelection (node owner)).
        -- destruct (parent_has_children m atom owner) as [_ [c ->]];
             [by eexists|done|]. by eexists.
        -- destruct (skipBoundary (node atom)); by eexists.
      * destruct (skipBoundary (node atom)); by eexists.
    + by eexists.
  - case_decide; [|by eexists].
    destruct (at_ m (position m - 1)) as [atom|] eqn:Ea; simpl; [|by eexists].
    destruct (parent m atom) as [owner|] eqn:Eo; simpl; [|by eexists].
    destruct (captureSelection (node owner)).
    + destruct (parent_has_children m atom owner) as [[c ->] _];
        [by eexists|done|]. by eexists.
    + destruct (isFirstSibling atom && skipBoundary (node owner)); by eexists.
Qed.

Lemma collapsed_collapseTo d m : collapsed (collapseTo d m) = true.
Proof.
  unfold collapseTo. destruct (collapsed m) eqn:E; [done|].
  by apply bool_decide_eq_true.
Qed.

Section Totality.
Context (env : Env).

Lemma stepCaret_returns direction prev m :
  exists b m' out, stepCaret env direction prev m = Ok (b, m', out).
Proof.
  rewrite stepCaret_eq. destruct (moveCandidate_returns m direction) as [pos ->].
  case_decide; by eexists _, _, _.
Qed.

(** From a selection that is not a placeholder selection once the pending
    suggestion is removed, [move] returns, whatever its budget. *)
Lemma move_returns depth dir m :
  dir = forward \/ dir = backward ->
  selectionIsPlaceholder (deleteCommandSuggestion env m) = false ->
  exists b m' out, move env depth dir false m = Ok (b, m', out).
Proof.
  intros Hd Hs. rewrite move_eq by done. cbv zeta. rewrite Hs.
  destruct (collapsed _); [apply stepCaret_returns|by eexists _, _, _].
Qed.

(** When removing the suggestion never turns a caret into a placeholder
    selection, one call of [move] by itself is all it takes. *)
Lemma move_returns_tame depth dir m :
  dir = forward \/ dir = backward ->
  (forall m', collapsed m' = true ->
     selectionIsPlaceholder (deleteCommandSuggestion env m') = false) ->
  exists b m' out, move env (S depth) dir false m = Ok (b, m', out).
Proof.
  intros Hd Ht. destruct (selectionIsPlaceholder (deleteCommandSuggestion env m)) eqn:Hs.
  - rewrite move_eq by done. cbv zeta. rewrite Hs.
    apply move_returns; [done|]. apply Ht, collapsed_collapseTo.
  - by apply move_returns.
Qed.
End Totality.

(** ** The budget is spent: "abc" backwards *)

Example skip_spends_budget :
  lastOffset (caretAt 3 abc) = 3
  /\ skip 3 backward false (caretAt 3 abc) = OutOfFuel
  /\ halts (skip 4 backward false (caretAt 3 abc)).
Proof. repeat split; vm_compute; reflexivity || discriminate. Qed.

(** The second counter of [sameTypeForward] only serves the recursion: any
    value that covers the budget gives the same run. *)
Lemma overScripts_fuel_le fuel m offset o f :
  overScripts fuel m offset = Ok (o, f) -> (f <= fuel)%nat.
Proof.
  revert offset. induction fuel as [|fuel IH]; intros offset; simpl.
  - destruct (at_ m offset) as [l|]; [|done]. simpl.
    case_decide; [done|]. by intros [= <- <-].
  - destruct (at_ m offset) as [l|]; [|done]. simpl.
    case_decide; [|intros [= <- <-]; lia].
    destruct (offsetOf_ m (rightSibling m l)) as [o'| |]; try done. simpl.
    intros Hle%IH. lia.
Qed.

Lemma sameTypeForward_gas gas gas' fuel m ty offset nextType :
  (fuel <= gas)%nat -> (fuel <= gas')%nat ->
  sameTypeForward gas fuel m ty offset nextType
  = sameTypeForward gas' fuel m ty offset nextType.
Proof.
  revert gas' fuel offset nextType.
  induction gas as [|gas IH]; intros gas' fuel offset nextType Hg Hg'.
  - assert (fuel = O) as -> by lia. destruct gas'; simpl; [done|].
    by destruct (_ && _).
  - destruct gas' as [|gas'].
    + assert (fuel = O) as -> by lia. simpl. by destruct (_ && _).
    + simpl. destruct (_ && _); [|done].
      destruct fuel as [|fuel]; [done|].
      destruct (overScripts fuel m offset) as [[o f]| |] eqn:E; try done.
      simpl. apply overScripts_fuel_le in E. apply IH; lia.
Qed.

(* ================================================================== *)
(** * Part XV: what a skip reports, and where it gives up            *)
(* ================================================================== *)

(** Closed side conditions on the sample documents are settled by
    evaluation. *)
Ltac evaluated :=
  first [ reflexivity | discriminate
        | vm_compute;
          first [ reflexivity | discriminate
                | intuition (first [reflexivity | discriminate | congruence]) ] ].

(** ** What a skip reports *)

Lemma setCursor_same m : setCursor (anchor m) (position m) m = m.
Proof. by destruct m. Qed.

Lemma acceptSuggestion_cursor fuel : forall m atom offset m' o f,
  acceptSuggestion fuel m atom offset = Ok (m', o, f) ->
  anchor m' = anchor m /\ position m' = position m.
Proof.
  induction fuel as [|fuel IH]; intros m atom offset m' o f; simpl.
  - destruct atom as [l|]; [|by intros [= <- _ _]].
    destruct (isCommandAtom l); [done|]. by intros [= <- _ _].
  - destruct atom as [l|]; [|by intros [= <- _ _]].
    destruct (isCommandAtom l); [|by intros [= <- _ _]].
    intros [H1 H2]%IH. by rewrite H1, H2.
Qed.

Lemma skipTarget_report fuel direction atom m t m' out :
  skipTarget fuel direction atom m = Ok (t, m', out) ->
  anchor m' = anchor m /\ position m' = position m
  /\ out = match t with Some _ => [] | None => [Announce Plonk None] end.
Proof.
  unfold skipTarget. rewrite bind_getModel.
  destruct (isTextAtom atom).
  { rewrite bind_liftResult.
    destruct (wordBoundaryOffset _ _ _ _) as [[o f]| |]; try done.
    by intros [= <- <- <-]. }
  destruct (isCommandAtom atom).
  { destruct (isSuggestion atom).
    - rewrite bind_liftResult.
      destruct (acceptSuggestion _ _ _ _) as [[[m2 o] f]| |] eqn:E; try done.
      apply acceptSuggestion_cursor in E as [? ?]. run.
      by intros [= <- <- <-].
    - cbv zeta.
      destruct ((if decide (direction = forward) then _ else _) atom) as [a|];
        [|run; by intros [= <- <- <-]].
      destruct (isCommandAtom a); [|run; by intros [= <- <- <-]].
      rewrite bind_liftResult.
      destruct (commandRun _ _ _ _ _) as [[o f]| |]; try done.
      by intros [= <- <- <-]. }
  case_decide.
  { rewrite bind_liftResult.
    destruct (balance _ _ _ _ _) as [[a f]| |]; try done.
    rewrite bind_liftResult.
    destruct (offsetOf_ _ _) as [o| |]; try done. by intros [= <- <- <-]. }
  case_decide.
  { rewrite bind_liftResult.
    destruct (balance _ _ _ _ _) as [[a f]| |]; try done.
    by intros [= <- <- <-]. }
  case_decide.
  - case_decide.
    + rewrite bind_liftResult.
      destruct (leadingFirsts _ _ _ _) as [[o f]| |]; try done.
      by intros [= <- <- <-].
    + rewrite bind_liftResult.
      destruct (if decide (type (node atom) = msubsup) then _ else _)
        as [o1| |]; try done.
      rewrite bind_liftResult.
      destruct (sameTypeBackward _ _ _ _ _) as [[o f]| |]; try done.
      by intros [= <- <- <-].
  - rewrite bind_liftResult.
    destruct (sameTypeForward _ _ _ _ _ _) as [[o f]| |]; try done.
    by intros [= <- <- <-].
Qed.

(** The model on which a skip looks for its target. *)
Lemma skip_eq fuel direction (extend : bool) m :
  let m1 := if extend then m else collapseTo direction m in
  skip fuel direction extend m =
  match skipFrom m1 direction with
  | Ok None => Ok (false, m1, [Announce Plonk None])
  | Ok (Some atom) =>
      match skipTarget fuel direction atom m1 with
      | Ok (None, m2, out) => Ok (false, m2, out)
      | Ok (Some offset, m2, out) =>
          if decide (offset = position m2) then
            Ok (false, m2, out ++ [Announce Plonk None])
          else
            Ok (true,
                setCursor (if extend then anchor m2 else offset) offset m2,
                out ++ [Announce Move (Some (position m))])
      | TypeError => TypeError
      | OutOfFuel => OutOfFuel
      end
  | TypeError => TypeError
  | OutOfFuel => OutOfFuel
  end.
Proof.
  intros m1. unfold skip. rewrite bind_getModel.
  assert ((if negb extend then collapseSelection direction else mret false) m
          = Ok (negb extend && negb (collapsed m), m1, [])) as Hc.
  { unfold m1. destruct extend; simpl; [done|]. apply collapseSelection_eq. }
  erewrite bind_Ok by exact Hc. cbv beta. simpl app. rewrite result_eta.
  rewrite (bind_getModel _ m1), bind_liftResult.
  destruct (skipFrom m1 direction) as [[atom|]| |]; try done.
  destruct (skipTarget fuel direction atom m1) as [[[[offset|] m2] out]| |] eqn:E.
  - erewrite bind_Ok by exact E. cbv beta iota. rewrite bind_getModel.
    destruct extend.
    + run. destruct (decide (offset = position m2)) as [->|Hne].
      * rewrite bool_decide_eq_true_2 by done. simpl.
        by rewrite setCursor_same.
      * by rewrite bool_decide_eq_false_2 by (intros [_ ?]; done).
    + by destruct (decide (offset = position m2)); run.
  - erewrite bind_Ok by exact E. run. by rewrite ?app_nil_r.
  - unfold mbind, Cmd_bind. by rewrite E.
  - unfold mbind, Cmd_bind. by rewrite E.
Qed.

(** X1.  A [skip] that returns [false] left the cursor, position and
    anchor, where the collapse of the selection (there is none with extend)
    left it.  A [skip] that returns announces one thing and nothing else: a
    plonk when it returns [false], a move that carries the position before
    the call when it returns [true]. *)
Theorem skip_report fuel direction extend m b m' out :
  skip fuel direction extend m = Ok (b, m', out) ->
  let m1 := if extend then m else collapseTo direction m in
  (b = false -> position m' = position m1 /\ anchor m' = anchor m1)
  /\ out = [if b then Announce Move (Some (position m))
            else Announce Plonk None].
Proof.
  intros H m1. rewrite skip_eq in H. fold m1 in H.
  destruct (skipFrom m1 direction) as [[atom|]| |]; try done.
  - destruct (skipTarget fuel direction atom m1)
      as [[[[offset|] m2] out2]| |] eqn:E; try done.
    + apply skipTarget_report in E as (Ha & Hp & ->).
      destruct (decide (offset = position m2)) as [->|Hne].
      * by injection H as <- <- <-.
      * by injection H as <- <- <-.
    + apply skipTarget_report in E as (Ha & Hp & ->).
      by injection H as <- <- <-.
  - by injection H as <- <- <-.
Qed.

(** X2.  A [skip] with extend never moves the anchor; a [skip] without
    extend leaves a collapsed selection, whether it moved or not. *)
Theorem skip_selection fuel direction extend m b m' out :
  skip fuel direction extend m = Ok (b, m', out) ->
  if extend then anchor m' = anchor m else anchor m' = position m'.
Proof.
  intros H. rewrite skip_eq in H. cbv zeta in H.
  assert (forall d, anchor (collapseTo d m) = position (collapseTo d m)) as Hcol.
  { intros d. pose proof (collapsed_collapseTo d m) as Hc.
    by apply bool_decide_eq_true in Hc. }
  destruct (skipFrom _ direction) as [[atom|]| |]; try done.
  - destruct (skipTarget fuel direction atom _)
      as [[[[offset|] m2] out2]| |] eqn:E; try done.
    + apply skipTarget_report in E as (Ha & Hp & ->).
      destruct (decide (offset = position m2)) as [->|Hne];
        injection H as <- <- <-; destruct extend; simpl; try done.
      by rewrite Ha, Hp.
    + apply skipTarget_report in E as (Ha & Hp & ->).
      injection H as <- <- <-. destruct extend; [done|]. by rewrite Ha, Hp.
  - injection H as <- <- <-. by destruct extend.
Qed.

(** The theorem at the end of "x, y, z": the skip plonks, and the caret
    stays at offset 3. *)
Lemma skip_report_witness :
  skip 4 forward false (caretAt 3 xyz)
  = Ok (false, caretAt 3 xyz, [Announce Plonk None])
  /\ position (caretAt 3 xyz) = 3 /\ anchor (caretAt 3 xyz) = 3.
Proof.
  assert (skip 4 forward false (caretAt 3 xyz)
          = Ok (false, caretAt 3 xyz, [Announce Plonk None])) as H
    by (vm_compute; reflexivity).
  split; [exact H|].
  destruct (skip_report _ _ _ _ _ _ _ H) as [W _]. exact (W eq_refl).
Defined.

(** The theorem on "x, y, z", from offset 0 with extend: the anchor
    stays at 0. *)
Lemma skip_selection_witness :
  skip 4 forward true (caretAt 0 xyz)
  = Ok (true, setCursor 0 3 (caretAt 0 xyz), [Announce Move (Some 0)])
  /\ anchor (setCursor 0 3 (caretAt 0 xyz)) = anchor (caretAt 0 xyz).
Proof.
  assert (skip 4 forward true (caretAt 0 xyz)
          = Ok (true, setCursor 0 3 (caretAt 0 xyz),
                [Announce Move (Some 0)])) as H
    by (vm_compute; reflexivity).
  split; [exact H|]. exact (skip_selection _ _ _ _ _ _ _ H).
Defined.

(** ** A skip at the edges of the document *)

Lemma lastOffset_collapseTo d m : lastOffset (collapseTo d m) = lastOffset m.
Proof. unfold lastOffset, atoms. by rewrite root_collapseTo. Qed.

(** No atom follows the one at the last offset. *)
Lemma rightSibling_last m l :
  at_ m (lastOffset m) = Some l -> rightSibling m l = None.
Proof.
  intros Hl. destruct (rightSibling m l) as [r|] eqn:Er; [|done].
  destruct (rightSibling_offset _ _ _ _ Hl Er) as [Ho Ha].
  apply at_Some_range in Ha. lia.
Qed.

(** X3.  At the edges of the document a [skip] gives up: forward from the
    last offset, and backward from offset 0 where the [first] atom of the
    root sits, it returns [false], announces a plonk and leaves the model as
    the collapse of the selection left it (untouched with extend). *)
Theorem skip_at_edges fuel (extend : bool) m :
  (let m1 := if extend then m else collapseTo forward m in
   0 <= lastOffset m -> position m1 = lastOffset m ->
   skip fuel forward extend m = Ok (false, m1, [Announce Plonk None]))
  /\ (let m1 := if extend then m else collapseTo backward m in
      forall l, position m1 = 0 -> at_ m1 0 = Some l ->
      type (node l) = first -> class (node l) = PlainAtom ->
      skip fuel backward extend m = Ok (false, m1, [Announce Plonk None])).
Proof.
  split.
  - intros m1 Hl Hp. rewrite skip_eq. fold m1.
    assert (lastOffset m1 = lastOffset m) as Hm.
    { unfold m1. destruct extend; [done|]. apply lastOffset_collapseTo. }
    destruct (at_is_Some m1 (position m1)) as [a Ha]; [lia|].
    assert (at_ m1 (position m1 + 1) = None) as Hn by (apply at_None; lia).
    unfold skipFrom. rewrite decide_True by done. rewrite Ha, Hn. simpl.
    case_decide; [|done].
    rewrite Hp, <- Hm in Ha. by rewrite (rightSibling_last _ _ Ha).
  - intros m1 l Hp Hl Ht Hc. rewrite skip_eq. fold m1.
    unfold skipFrom. rewrite decide_False by done. rewrite Hp, Hl.
    assert (skipTarget fuel backward l m1 = Ok (Some 0, m1, [])) as ->.
    { unfold skipTarget. rewrite bind_getModel.
      unfold isTextAtom, isCommandAtom. rewrite Hc.
      rewrite decide_False by (by intros [? _]).
      rewrite decide_False by (rewrite Ht; by intros [_ ?]).
      rewrite decide_True by done. rewrite decide_True by done.
      rewrite (offsetOf_at _ _ _ Hl).
      by destruct fuel. }
    by rewrite decide_True.
Qed.

(** X4.  A forward [skip] throws when the atom after the caret is an open
    fence that is the last of its siblings: the loop steps to the right
    sibling, which is [undefined], and reads [isLastSibling] off it. *)
Theorem skip_unclosed_fence_throws fuel (extend : bool) m l0 opening :
  let m1 := if extend then m else collapseTo forward m in
  at_ m1 (position m1) = Some l0 -> type (node l0) <> msubsup ->
  at_ m1 (position m1 + 1) = Some opening ->
  class (node opening) = PlainAtom -> type (node opening) = mopen ->
  rightSibling m1 opening = None ->
  skip (S fuel) forward extend m = TypeError.
Proof.
  intros m1 H0 Hs H1 Hc Ht Hr. rewrite skip_eq. fold m1.
  unfold skipFrom. rewrite decide_True by done. rewrite H0. simpl.
  rewrite decide_False by done. rewrite H1.
  unfold skipTarget. rewrite bind_getModel.
  unfold isTextAtom, isCommandAtom. rewrite Hc.
  rewrite decide_True by done.
  rewrite bind_liftResult. cbn [balance]. by rewrite Hr.
Qed.

(** The theorem on "x, y, z": forward from offset 3, backward from
    offset 0. *)
Lemma skip_at_edges_witness :
  skip 4 forward false (caretAt 3 xyz)
  = Ok (false, caretAt 3 xyz, [Announce Plonk None])
  /\ skip 4 backward false (caretAt 0 xyz)
     = Ok (false, caretAt 0 xyz, [Announce Plonk None]).
Proof.
  destruct (skip_at_edges 4 false (caretAt 3 xyz)) as [Hf _].
  destruct (skip_at_edges 4 false (caretAt 0 xyz)) as [_ Hb].
  split.
  - apply Hf; vm_compute; [discriminate|reflexivity].
  - apply (Hb (inBody 0 sentinel)); vm_compute; reflexivity.
Defined.

(** The theorem on "x (", from after the x. *)
Lemma skip_unclosed_fence_throws_witness :
  skip 3 forward false (caretAt 1 unclosed) = TypeError.
Proof.
  apply (skip_unclosed_fence_throws 2 false (caretAt 1 unclosed)
           (inBody 1 (sym mord "x")) (inBody 2 (sym mopen "(")));
    vm_compute; reflexivity || discriminate.
Defined.

(* ================================================================== *)
(** * Part XVI: balanced fences, backward                            *)
(* ================================================================== *)

#[local] Transparent NAMED_BRANCHES.

Lemma collapsed_caretAt p r : collapsed (caretAt p r) = true.
Proof. by apply bool_decide_eq_true. Qed.

(** The backward skip over balanced fences, from the outcome of the walk. *)
Lemma skip_fences_backward fuel m closing met rest_ :
  collapsed m = true ->
  at_ m (position m) = Some closing ->
  class (node closing) = PlainAtom -> type (node closing) = mclose ->
  balance fuel (leftSibling m) isFirstSibling closing 0 = Ok (met, rest_) ->
  offsetOf m met <> position m ->
  skip fuel backward false m
  = Ok (true, setCursor (offsetOf m met) (offsetOf m met) m,
        [Announce Move (Some (position m))]).
Proof.
  intros Hc H0 Hp Ht Hb Hne. rewrite skip_eq. cbv zeta.
  rewrite collapseTo_collapsed by done.
  unfold skipFrom. rewrite decide_False by done. rewrite H0.
  assert (skipTarget fuel backward closing m = Ok (Some (offsetOf m met), m, []))
    as ->.
  { unfold skipTarget. rewrite bind_getModel.
    unfold isTextAtom, isCommandAtom. rewrite Hp.
    rewrite decide_False by (by intros [? _]).
    rewrite decide_True by done. by rewrite bind_liftResult, Hb. }
  by rewrite decide_False.
Qed.

Section FencesBackward.

Context (a b c : Atom) (rest : list Atom).
Hypothesis a_plain : notFence a.
Hypothesis b_plain : notFence b.
Hypothesis c_plain : notFence c.

Let siblings_ : list Atom :=
  sym mopen "(" :: a :: sym mopen "(" :: b :: sym mclose ")" :: c
  :: sym mclose ")" :: rest.

Context (p : Z).
Let model := caretAt p (fencesThen a b c rest).

Lemma fences_leftSibling i x y :
  (sentinel :: siblings_) !! i = Some y ->
  leftSibling model (inBody (S i) x) = Some (inBody i y).
Proof. intros H. unfold leftSibling. simpl. by apply locate_document. Qed.

Lemma fences_plain_level (i : nat) (x : Atom) (level : Z) :
  x = a \/ x = b \/ x = c -> fenceLevel (inBody i x) level = level.
Proof.
  intros [-> | [-> | ->]]; apply fenceLevel_plain; simpl;
    unfold notFence in *; tauto.
Qed.

Ltac back_level :=
  rewrite ?(fences_plain_level _ a), ?(fences_plain_level _ b),
    ?(fences_plain_level _ c) by tauto.

Ltac back_turn x :=
  rewrite (balance_step _ _ _ _ x);
    [|apply fences_leftSibling; reflexivity|reflexivity
     |back_level; vm_compute; discriminate].

Lemma fences_balance_backward k :
  balance (7 + k) (leftSibling model) isFirstSibling
          (inBody 7 (sym mclose ")")) 0
  = Ok (inBody 0 sentinel, k).
Proof.
  change (7 + k)%nat with (S (S (S (S (S (S (S k))))))).
  back_turn (inBody 6 c).
  back_turn (inBody 5 (sym mclose ")")).
  back_turn (inBody 4 b).
  back_turn (inBody 3 (sym mopen "(")).
  back_turn (inBody 2 a).
  back_turn (inBody 1 (sym mopen "(")).
  apply balance_zero; [apply fences_leftSibling; reflexivity|].
  back_level. reflexivity.
Qed.

End FencesBackward.

(** X5.  For the siblings ( a ( b ) c ) at the start of the root, with a,
    b and c any atoms that are not fences and [rest] the siblings that
    follow, [skip(backward)] from the offset of the outer close fence, that
    is from just after it, puts the caret at offset 0, just before the outer
    open fence.  When a sibling follows the close fence this undoes
    [skip(forward)] from offset 0, which lands on that offset. *)
Theorem fence_balance_backward (extra : nat) (a b c : Atom) (rest : list Atom) :
  notFence a -> notFence b -> notFence c ->
  let doc := fencesThen a b c rest in
  let closing := inBody 7 (sym mclose ")") in
  let p := offsetOf (caretAt 0 doc) closing in
  at_ (caretAt 0 doc) p = Some closing
  /\ at_ (caretAt 0 doc) 1 = Some (inBody 1 (sym mopen "("))
  /\ skip (skipBudget (caretAt p doc) + extra) backward false (caretAt p doc)
     = Ok (true, caretAt 0 doc, [Announce Move (Some p)])
  /\ (rest <> [] ->
      skip (skipBudget (caretAt 0 doc) + extra) forward false (caretAt 0 doc)
      = Ok (true, caretAt p doc, [Announce Move (Some 0)])).
Proof.
  intros Ha Hb Hc doc closing p.
  pose proof (fences_at_close a b c rest) as Hcl. fold doc closing p in Hcl.
  pose proof (fences_offset_close a b c rest) as Ocl. fold doc closing p in Ocl.
  pose proof (fences_lastOffset a b c rest) as Lo. fold doc in Lo.
  assert (at_ (caretAt 0 doc) 1 = Some (inBody 1 (sym mopen "("))) as H1.
  { unfold doc, fencesThen.
    refine (at_document 0 _ 1 (sym mopen "(") _). reflexivity. }
  assert (at_ (caretAt 0 doc) 0 = Some (inBody 0 sentinel)) as H0.
  { unfold doc, fencesThen.
    refine (at_document 0 _ 0 sentinel _). reflexivity. }
  split; [exact Hcl|]. split; [exact H1|]. split.
  - change (skipBudget (caretAt p doc)) with (skipBudget (caretAt 0 doc)).
    unfold skipBudget. rewrite Lo.
    replace (Z.to_nat _ + extra)%nat
      with (7 + (1 + (size a + size b + size c) + run_size rest + extra))%nat
      by lia.
    erewrite (skip_fences_backward _ (caretAt p doc) closing
                (inBody 0 sentinel)); cycle 1.
    + apply collapsed_caretAt.
    + exact Hcl.
    + done.
    + done.
    + by apply fences_balance_backward.
    + change (offsetOf (caretAt p doc) (inBody 0 sentinel)) with 0.
      change (position (caretAt p doc)) with p. lia.
    + reflexivity.
  - intros Hr. destruct rest as [|d r]; [done|].
    unfold skipBudget. rewrite Lo.
    erewrite (skip_fences _ (caretAt 0 doc) _ _ (inBody 8 d) closing);
      cycle 1.
    + apply collapsed_caretAt.
    + exact H0.
    + done.
    + exact H1.
    + done.
    + done.
    + rewrite run_size_cons.
      replace (Z.to_nat _ + extra)%nat
        with (7 + (2 + (size a + size b + size c) + size d + run_size r
                   + extra))%nat by lia.
      by apply fences_balance_more.
    + unfold leftSibling. simpl. by apply locate_document.
    + fold p. change (position (caretAt 0 doc)) with 0. lia.
    + reflexivity.
Qed.

(** The theorem for the letters a, b and c followed by d: the skip
    from offset 7 lands at offset 0, where the skip forward started. *)
Lemma fence_balance_backward_witness :
  skip 9 backward false (caretAt 7 fencesAndD)
  = Ok (true, caretAt 0 fencesAndD, [Announce Move (Some 7)])
  /\ skip 9 forward false (caretAt 0 fencesAndD)
     = Ok (true, caretAt 7 fencesAndD, [Announce Move (Some 0)]).
Proof.
  assert (forall v, notFence (sym mord v)) as H by (by split).
  destruct (fence_balance_backward 0 (sym mord "a") (sym mord "b")
              (sym mord "c") [sym mord "d"] (H "a") (H "b") (H "c"))
    as (_ & _ & Hb & Hf).
  split; [exact Hb|]. by apply Hf.
Defined.

#[local] Opaque NAMED_BRANCHES.

(* ================================================================== *)
(** * Part XVII: word boundaries                                     *)
(* ================================================================== *)

(** ** Word boundaries in a text run *)

(** A loop that meets [n] matching atoms in a row walks through them. *)
Lemma matchWhile_through m p dir (n : nat) : forall fuel i,
  (forall j : nat, (j < n)%nat ->
     exists l, at_ m (i + dir * Z.of_nat j) = Some l /\ p l = true) ->
  matchWhile (n + fuel) m p dir i true
  = matchWhile fuel m p dir (i + dir * Z.of_nat n) true.
Proof.
  induction n as [|n IH]; intros fuel i H.
  - simpl. f_equal. lia.
  - destruct (H O ltac:(lia)) as (l & Hl & Hp).
    replace (i + dir * Z.of_nat 0) with i in Hl by lia.
    change (S n + fuel)%nat with (S (n + fuel)). cbn [matchWhile].
    rewrite Hl, Hp. rewrite IH.
    + f_equal. lia.
    + intros j Hj. destruct (H (S j) ltac:(lia)) as (l' & Hl' & Hp').
      exists l'. split; [|done]. rewrite <- Hl'. f_equal. lia.
Qed.

(** Where the loop stops once the run is over. *)
Lemma matchWhile_stop m p dir fuel i :
  (forall l, at_ m i = Some l -> p l = false) ->
  matchWhile (S fuel) m p dir i true
  = Ok (match at_ m i with Some _ => i + dir | None => i end,
        match at_ m i with Some _ => fuel | None => S fuel end).
Proof.
  intros H. cbn [matchWhile]. destruct (at_ m i) as [l|] eqn:E; [|done].
  rewrite (H l eq_refl). destruct fuel; simpl; by destruct (at_ m (i + dir)).
Qed.

Lemma doMatchWhile_eq m p dir fuel i :
  is_Some (at_ m i) ->
  doMatchWhile fuel m p dir i = matchWhile fuel m p dir i true.
Proof. intros [l Hl]. unfold doMatchWhile. rewrite Hl. by destruct fuel; simpl; rewrite ?Hl. Qed.

(** The loop over a run of [n] matching atoms from [i] on, then one look
    at what follows. *)
Lemma doMatchWhile_run m p dir (n : nat) fuel i :
  (0 < n)%nat -> (n < fuel)%nat ->
  (forall j : nat, (j < n)%nat ->
     exists l, at_ m (i + dir * Z.of_nat j) = Some l /\ p l = true) ->
  (forall l, at_ m (i + dir * Z.of_nat n) = Some l -> p l = false) ->
  exists f,
    doMatchWhile fuel m p dir i
    = Ok (match at_ m (i + dir * Z.of_nat n) with
          | Some _ => i + dir * Z.of_nat n + dir
          | None => i + dir * Z.of_nat n
          end, f).
Proof.
  intros Hn Hf Hrun Hend.
  rewrite doMatchWhile_eq; cycle 1.
  { destruct (Hrun O Hn) as (l & Hl & _). exists l. rewrite <- Hl. f_equal. lia. }
  replace fuel with (n + S (fuel - n - 1))%nat by lia.
  rewrite matchWhile_through by done.
  rewrite matchWhile_stop by done. by eexists.
Qed.

(** The word boundary from an alphanumerical atom, in either direction;
    [dir] is [1] or [-1] and [target] is the offset of the first atom, if
    any, that ends the run. *)
Lemma wordBoundaryOffset_run fuel m offset direction (n : nat) :
  let dir := match direction with backward => -1 | _ => 1 end in
  let target := offset + dir * Z.of_nat n in
  (0 < n)%nat -> (n < fuel)%nat ->
  (forall j : nat, (j < n)%nat ->
     exists l, at_ m (offset + dir * Z.of_nat j) = Some l
               /\ alnumText l = true) ->
  (forall l, at_ m target = Some l -> alnumText l = false) ->
  exists f,
    wordBoundaryOffset fuel m offset direction
    = Ok (match at_ m target, at_ m (target + dir) with
          | Some _, None => target
          | _, _ => target - dir
          end - (if decide (dir > 0) then 0 else 1), f).
Proof.
  intros dir target Hn Hf Hrun Hend.
  destruct (doMatchWhile_run m alnumText dir n fuel offset Hn Hf Hrun Hend)
    as [f Hd].
  destruct (Hrun O Hn) as (l & Hl & Hp).
  replace (offset + dir * Z.of_nat 0) with offset in Hl by lia.
  exists f. unfold wordBoundaryOffset. rewrite Hl. simpl.
  apply andb_true_iff in Hp as [Ht Ha]. rewrite Ht, Ha. simpl.
  fold dir. rewrite Hd. simpl. unfold landing. fold target.
  destruct (at_ m target) as [t|] eqn:Et.
  - destruct (at_ m (target + dir)); do 2 f_equal; lia.
  - rewrite Et. do 2 f_equal; lia.
Qed.

(** X6.  [wordBoundaryOffset], forward, from an alphanumerical text atom
    at [offset] that starts a run of [n] such atoms: the answer is the
    offset of the last atom of the run, [offset + n - 1], when the run ends
    the document or when at least two atoms follow it; when exactly one atom
    follows the run, the answer is the offset of that atom, [offset + n]. *)
Theorem wordBoundaryOffset_forward fuel m offset (n : nat) :
  (0 < n)%nat -> (n < fuel)%nat ->
  (forall k, offset <= k < offset + Z.of_nat n ->
     exists l, at_ m k = Some l /\ alnumText l = true) ->
  (forall l, at_ m (offset + Z.of_nat n) = Some l -> alnumText l = false) ->
  exists f,
    wordBoundaryOffset fuel m offset forward
    = Ok (match at_ m (offset + Z.of_nat n),
                at_ m (offset + Z.of_nat n + 1) with
          | Some _, None => offset + Z.of_nat n
          | _, _ => offset + Z.of_nat n - 1
          end, f).
Proof.
  intros Hn Hf Hrun Hend.
  destruct (wordBoundaryOffset_run fuel m offset forward n Hn Hf) as [f ->].
  - intros j Hj. apply Hrun. lia.
  - intros l. rewrite Z.mul_1_l. apply Hend.
  - exists f. rewrite Z.mul_1_l. simpl.
    destruct (at_ m _) as [?|]; [destruct (at_ m _) as [?|]|];
      do 2 f_equal; lia.
Qed.

(** X7.  [wordBoundaryOffset], backward, from an alphanumerical text atom
    at [offset] that ends a run of [n] such atoms: the answer is the offset
    just before the run, [offset - n], when an atom sits before the atom
    that precedes the run (or when nothing precedes the run); it is one
    less, [offset - n - 1], when the atom that precedes the run is the first
    of the document.  In particular a run that starts at offset 1 gives
    [-1]. *)
Theorem wordBoundaryOffset_backward fuel m offset (n : nat) :
  (0 < n)%nat -> (n < fuel)%nat ->
  (forall k, offset - Z.of_nat n < k <= offset ->
     exists l, at_ m k = Some l /\ alnumText l = true) ->
  (forall l, at_ m (offset - Z.of_nat n) = Some l -> alnumText l = false) ->
  (exists f,
     wordBoundaryOffset fuel m offset backward
     = Ok (match at_ m (offset - Z.of_nat n),
                 at_ m (offset - Z.of_nat n - 1) with
           | Some _, None => offset - Z.of_nat n - 1
           | _, _ => offset - Z.of_nat n
           end, f))
  /\ (offset = Z.of_nat n -> is_Some (at_ m 0) ->
      exists f, wordBoundaryOffset fuel m offset backward = Ok (-1, f)).
Proof.
  intros Hn Hf Hrun Hend.
  destruct (wordBoundaryOffset_run fuel m offset backward n Hn Hf) as [f Hw].
  - intros j Hj. apply Hrun. lia.
  - intros l. replace (offset + -1 * Z.of_nat n) with (offset - Z.of_nat n)
      by lia. apply Hend.
  - replace (offset + -1 * Z.of_nat n) with (offset - Z.of_nat n) in Hw by lia.
    replace (offset - Z.of_nat n + -1) with (offset - Z.of_nat n - 1) in Hw
      by lia.
    simpl in Hw. split.
    + exists f. rewrite Hw.
      destruct (at_ m _) as [?|]; [destruct (at_ m _) as [?|]|];
        do 2 f_equal; lia.
    + intros -> [l0 H0]. exists f. rewrite Hw.
      replace (Z.of_nat n - Z.of_nat n) with 0 by lia. rewrite H0.
      assert (at_ m (0 - 1) = None) as -> by (apply at_None; lia).
      do 2 f_equal.
Qed.

(** The theorem on "blue yellow", from the b of "blue". *)
Lemma wordBoundaryOffset_forward_witness :
  exists f, wordBoundaryOffset 12 (caretAt 0 blueYellow) 1 forward = Ok (4, f).
Proof.
  apply (wordBoundaryOffset_forward 12 (caretAt 0 blueYellow) 1 4);
    [lia|lia| |].
  - intros k Hk.
    assert (k = 1 \/ k = 2 \/ k = 3 \/ k = 4) as [->|[->|[->| ->]]] by lia;
      eexists; split; vm_compute; reflexivity.
  - intros l [= <-]. vm_compute. reflexivity.
Defined.

(** The theorem on "blue yellow", from the e of "blue": the run
    starts at offset 1, and the answer is -1. *)
Lemma wordBoundaryOffset_backward_witness :
  exists f, wordBoundaryOffset 12 (caretAt 0 blueYellow) 4 backward = Ok (-1, f).
Proof.
  destruct (wordBoundaryOffset_backward 12 (caretAt 0 blueYellow) 4 4)
    as [_ H]; [lia|lia| | |].
  - intros k Hk.
    assert (k = 1 \/ k = 2 \/ k = 3 \/ k = 4) as [->|[->|[->| ->]]] by lia;
      eexists; split; vm_compute; reflexivity.
  - intros l [= <-]. vm_compute. reflexivity.
  - apply H; [reflexivity|]. by eexists.
Defined.

(** A loop that skips [n] matching atoms in a row walks through them. *)
Lemma skipWhile_through m p dir (n : nat) : forall fuel i,
  (forall j : nat, (j < n)%nat ->
     exists l, at_ m (i + dir * Z.of_nat j) = Some l /\ p l = true) ->
  skipWhile (n + fuel) m p dir i
  = skipWhile fuel m p dir (i + dir * Z.of_nat n).
Proof.
  induction n as [|n IH]; intros fuel i H.
  - simpl. f_equal. lia.
  - destruct (H O ltac:(lia)) as (l & Hl & Hp).
    replace (i + dir * Z.of_nat 0) with i in Hl by lia.
    change (S n + fuel)%nat with (S (n + fuel)). cbn [skipWhile].
    rewrite Hl, Hp. rewrite IH.
    + f_equal. lia.
    + intros j Hj. destruct (H (S j) ltac:(lia)) as (l' & Hl' & Hp').
      exists l'. split; [|done]. rewrite <- Hl'. f_equal. lia.
Qed.

Lemma skipWhile_stop m p dir fuel i l :
  at_ m i = Some l -> p l = false -> skipWhile fuel m p dir i = Ok (i, fuel).
Proof. intros Hl Hp. destruct fuel; simpl; by rewrite Hl, Hp. Qed.

(** X8.  [wordBoundaryOffset], forward, from a text atom at [offset] that
    holds white space (the class [\s], beyond ASCII too) and no letter or
    digit: when [s] such atoms are followed by [n] text atoms without white
    space, and the atom after those, if there is one, holds white space or
    is not a text atom, the white space is skipped, then the [n] atoms; the
    answer is the offset of the last of these, [stop - 1], or [stop], the
    offset of the atom after them, when exactly one atom follows them. *)
Theorem wordBoundaryOffset_from_space fuel m offset (s n : nat) :
  (0 < s)%nat -> (0 < n)%nat -> (s + n < fuel)%nat ->
  (forall k, offset <= k < offset + Z.of_nat s ->
     exists l, at_ m k = Some l /\ spaceText l = true
               /\ alnumText l = false) ->
  (forall k, offset + Z.of_nat s <= k < offset + Z.of_nat s + Z.of_nat n ->
     exists l, at_ m k = Some l /\ nonSpaceText l = true) ->
  let stop := offset + Z.of_nat s + Z.of_nat n in
  (forall l, at_ m stop = Some l -> nonSpaceText l = false) ->
  exists f,
    wordBoundaryOffset fuel m offset forward
    = Ok (match at_ m stop, at_ m (stop + 1) with
          | Some _, None => stop
          | _, _ => stop - 1
          end, f).
Proof.
  intros Hs Hn Hf Hsp Hrun stop Hend.
  destruct (Hsp offset ltac:(lia)) as (l0 & Hl0 & Hp0 & Ha0).
  destruct (Hrun (offset + Z.of_nat s) ltac:(lia)) as (l1 & Hl1 & Hp1).
  destruct (doMatchWhile_run m nonSpaceText 1 n (fuel - s)
              (offset + Z.of_nat s) Hn ltac:(lia)) as [f Hd].
  { intros j Hj. apply Hrun. lia. }
  { intros l. rewrite Z.mul_1_l. apply Hend. }
  rewrite Z.mul_1_l in Hd. fold stop in Hd.
  exists f. unfold wordBoundaryOffset. rewrite Hl0. simpl.
  apply andb_true_iff in Hp0 as [Ht Hw]. unfold alnumText in Ha0.
  rewrite Ht in *. simpl in Ha0. simpl. rewrite Ha0, Hw.
  replace fuel with (s + (fuel - s))%nat at 1 by lia.
  rewrite skipWhile_through; cycle 1.
  { intros j Hj. destruct (Hsp (offset + Z.of_nat j) ltac:(lia))
      as (l & Hl & Hp & _). exists l. split; [|done].
    rewrite <- Hl. f_equal. lia. }
  rewrite Z.mul_1_l. erewrite skipWhile_stop; [|exact Hl1|]; cycle 1.
  { unfold nonSpaceText, spaceText in *.
    apply andb_true_iff in Hp1 as [-> Hq]. simpl.
    by apply negb_true_iff in Hq. }
  simpl. rewrite Hl1, Hd. simpl. unfold landing.
  destruct (at_ m stop) as [t|] eqn:Et.
  - destruct (at_ m (stop + 1)); do 2 f_equal; lia.
  - rewrite Et. do 2 f_equal; lia.
Qed.

(** The theorem on "blue yellow", from the space. *)
Lemma wordBoundaryOffset_from_space_witness :
  exists f, wordBoundaryOffset 12 (caretAt 0 blueYellow) 5 forward = Ok (11, f).
Proof.
  apply (wordBoundaryOffset_from_space 12 (caretAt 0 blueYellow) 5 1 6);
    [lia|lia|lia| | |].
  - intros k Hk. assert (k = 5) as -> by lia.
    eexists; repeat split; vm_compute; reflexivity.
  - intros k Hk.
    assert (k = 6 \/ k = 7 \/ k = 8 \/ k = 9 \/ k = 10 \/ k = 11)
      as [->|[->|[->|[->|[->| ->]]]]] by lia;
      eexists; split; vm_compute; reflexivity.
  - intros l. vm_compute. discriminate.
Defined.

(** White space is the class [\s] of the source, not only its ASCII part:
    in the text run space, a, no-break space (U+00A0), b, the word after
    the space ends with the a. *)
Example word_boundary_no_break_space :
  let nbsp := String (ascii_of_nat 194) (String (ascii_of_nat 160) EmptyString) in
  let doc := document (textRun " a" ++ [leaf text_type text nbsp TextAtom]
                       ++ textRun "b") in
  hasSpace nbsp = true /\ hasSpace zeroWidthSpace = false
  /\ exists f, wordBoundaryOffset 5 (caretAt 0 doc) 1 forward = Ok (2, f).
Proof. repeat split. by eexists. Qed.


(** ** The ranges of the word deletions *)

Section DeletionRanges.

Context (deleteRange : Z * Z -> Cmd bool).

(** X26.  [deleteNextWord] and [deletePreviousWord] hand [deleteRange] the
    range from the anchor to the word boundary computed from the position:
    after an atom that is not in text mode the range is [(anchor,
    position)], the selection itself; after the last atom of a run of [n]
    alphanumerical text atoms, [deletePreviousWord] deletes back to the
    offset before the run. *)
Theorem deleteWord_ranges fuel m :
  (forall direction l,
     at_ m (position m) = Some l -> mode (node l) <> text ->
     deleteWord deleteRange fuel direction m
     = deleteRange (anchor m, position m) m)
  /\ (forall n : nat,
        (0 < n)%nat -> (n < fuel)%nat ->
        (forall k, position m - Z.of_nat n < k <= position m ->
           exists l, at_ m k = Some l /\ alnumText l = true) ->
        (forall l, at_ m (position m - Z.of_nat n) = Some l ->
           alnumText l = false) ->
        deletePreviousWord deleteRange fuel m
        = deleteRange
            (anchor m,
             match at_ m (position m - Z.of_nat n),
                   at_ m (position m - Z.of_nat n - 1) with
             | Some _, None => position m - Z.of_nat n - 1
             | _, _ => position m - Z.of_nat n
             end) m).
Proof.
  split.
  - intros direction l Hl Hm. unfold deleteWord.
    rewrite bind_getModel, bind_liftResult.
    unfold wordBoundaryOffset. rewrite Hl. simpl.
    unfold inText. by rewrite bool_decide_eq_false_2.
  - intros n Hn Hf Hrun Hend.
    destruct (wordBoundaryOffset_run fuel m (position m) backward n Hn Hf)
      as [f Hw].
    + intros j Hj. apply Hrun. lia.
    + intros l.
      replace (position m + -1 * Z.of_nat n) with (position m - Z.of_nat n)
        by lia. apply Hend.
    + replace (position m + -1 * Z.of_nat n) with (position m - Z.of_nat n)
        in Hw by lia.
      replace (position m - Z.of_nat n + -1)
        with (position m - Z.of_nat n - 1) in Hw by lia.
      simpl in Hw.
      unfold deletePreviousWord, deleteWord.
      rewrite bind_getModel, bind_liftResult, Hw. cbv beta iota.
      do 2 f_equal.
      destruct (at_ m _) as [?|]; [destruct (at_ m _) as [?|]|]; lia.
Qed.

End DeletionRanges.

(** The theorem on "blue yellow", where [deleteRange] is a command
    that only reports whether the range is empty: from after the e of
    "blue" the range goes back to -1. *)
Lemma deleteWord_ranges_witness :
  let deleteRange : Z * Z -> Cmd bool :=
    fun r m => Ok (bool_decide (r.1 <> r.2), m, []) in
  deletePreviousWord deleteRange 12 (caretAt 4 blueYellow)
  = deleteRange (4, -1) (caretAt 4 blueYellow).
Proof.
  intros deleteRange.
  destruct (deleteWord_ranges deleteRange 12 (caretAt 4 blueYellow))
    as [_ H].
  apply (H 4%nat); [lia|lia| |].
  - intros k Hk. change (position _) with 4 in Hk.
    assert (k = 1 \/ k = 2 \/ k = 3 \/ k = 4) as [->|[->|[->| ->]]] by lia;
      eexists; split; vm_compute; reflexivity.
  - intros l [= <-]. vm_compute. reflexivity.
Defined.

(* ================================================================== *)
(** * Part XVIII: math zones and command zones                       *)
(* ================================================================== *)

(** ** Runs of atoms of one type in a math zone *)

Lemma overScripts_none fuel m offset l :
  at_ m offset = Some l -> typeOf (rightSibling m l) <> Some msubsup ->
  overScripts fuel m offset = Ok (offset, fuel).
Proof.
  intros Hl Hr. destruct fuel; simpl; rewrite Hl; simpl;
    by rewrite decide_False.
Qed.

Lemma sameTypeForward_run m ty (n : nat) : forall gas fuel offset,
  (n <= gas)%nat -> (n <= fuel)%nat ->
  (forall k, offset <= k < offset + Z.of_nat n ->
     exists l, at_ m k = Some l /\ type (node l) = ty
               /\ typeOf (rightSibling m l) <> Some msubsup) ->
  typeOf (at_ m (offset + Z.of_nat n)) <> Some ty ->
  typeOf (at_ m (offset + Z.of_nat n)) <> Some msubsup ->
  sameTypeForward gas fuel m ty offset (typeOf (at_ m offset))
  = Ok (offset + Z.of_nat n, (fuel - n)%nat).
Proof.
  induction n as [|n IH]; intros gas fuel offset Hg Hf Hrun Ht Hs.
  - rewrite Z.add_0_r in *. rewrite Nat.sub_0_r.
    destruct gas, fuel; simpl;
      rewrite (bool_decide_eq_false_2 (_ = Some ty)) by done;
      rewrite (bool_decide_eq_false_2 (_ = Some msubsup)) by done;
      by rewrite andb_false_r.
  - destruct (Hrun offset ltac:(lia)) as (l & Hl & Hty & Hr).
    pose proof (at_Some_range _ _ _ Hl) as Hrange.
    destruct gas as [|gas]; [lia|]. destruct fuel as [|fuel]; [lia|].
    cbn [sameTypeForward]. rewrite Hl. simpl typeOf at 1.
    rewrite bool_decide_eq_true_2 by lia.
    rewrite (bool_decide_eq_true_2 (_ = Some ty)) by (simpl; by rewrite Hty).
    simpl. rewrite (overScripts_none _ _ _ _ Hl Hr). simpl.
    rewrite IH.
    + do 2 f_equal. lia.
    + lia.
    + lia.
    + intros k Hk. apply Hrun. lia.
    + by replace (offset + 1 + Z.of_nat n) with (offset + Z.of_nat (S n)) by lia.
    + by replace (offset + 1 + Z.of_nat n) with (offset + Z.of_nat (S n)) by lia.
Qed.

(** X9.  In a math zone a forward [skip] runs over the atoms that share
    the type of the atom after the caret.  Let [p] be the position once the
    selection is collapsed (there is no collapse with extend).  When the
    atom at [p] is not a script atom ([msubsup]), the atom after it is of
    the plain class (not a text, command or script atom), the [n] atoms
    after [p] have the type [ty] (not an open fence, not [msubsup]), none
    of them has an [msubsup] atom as right sibling, and the atom that
    follows them, if there is one, has neither the type [ty] nor the type
    [msubsup], the skip returns [true], announces the move and the position
    becomes [p + n], the offset of the last of them; with extend the anchor
    stays. *)
Theorem skip_same_type_forward fuel (extend : bool) m l0 first_ ty (n : nat) :
  let m1 := if extend then m else collapseTo forward m in
  let p := position m1 in
  (0 < n)%nat -> (n <= fuel)%nat ->
  at_ m1 p = Some l0 -> type (node l0) <> msubsup ->
  at_ m1 (p + 1) = Some first_ -> class (node first_) = PlainAtom ->
  ty <> mopen -> ty <> msubsup ->
  (forall k, p + 1 <= k <= p + Z.of_nat n ->
     exists l, at_ m1 k = Some l /\ type (node l) = ty
               /\ typeOf (rightSibling m1 l) <> Some msubsup) ->
  typeOf (at_ m1 (p + Z.of_nat n + 1)) <> Some ty ->
  typeOf (at_ m1 (p + Z.of_nat n + 1)) <> Some msubsup ->
  skip fuel forward extend m
  = Ok (true,
        setCursor (if extend then anchor m else p + Z.of_nat n)
                  (p + Z.of_nat n) m1,
        [Announce Move (Some (position m))]).
Proof.
  intros m1 p Hn Hf H0 Hs H1 Hc Ho Hm Hrun Ht Hsub.
  rewrite skip_eq. fold m1. unfold skipFrom. rewrite decide_True by done.
  fold p. rewrite H0. simpl. rewrite decide_False by done. rewrite H1.
  destruct (Hrun (p + 1) ltac:(lia)) as (l & Hl & Hty & _).
  rewrite H1 in Hl. injection Hl as <-.
  assert (skipTarget fuel forward first_ m1
          = Ok (Some (p + Z.of_nat n), m1, [])) as ->.
  { unfold skipTarget. rewrite bind_getModel.
    unfold isTextAtom, isCommandAtom. rewrite Hc.
    rewrite decide_False by (rewrite Hty; by intros [_ ?]).
    rewrite decide_False by (by intros [? _]).
    rewrite decide_False by done.
    rewrite (offsetOf_at _ _ _ H1), Hty.
    rewrite bind_liftResult.
    rewrite (sameTypeForward_run m1 ty n fuel fuel (p + 1)); try done.
    - simpl. by replace (p + 1 + Z.of_nat n - 1) with (p + Z.of_nat n) by lia.
    - intros k Hk. apply Hrun. lia.
    - by replace (p + 1 + Z.of_nat n) with (p + Z.of_nat n + 1) by lia.
    - by replace (p + 1 + Z.of_nat n) with (p + Z.of_nat n + 1) by lia. }
  rewrite decide_False by (fold p; lia). simpl.
  do 3 f_equal. unfold m1. destruct extend; [done|].
  unfold collapseTo. by destruct (collapsed m).
Qed.

Lemma sameTypeBackward_run m ty (n : nat) : forall fuel offset,
  (n <= fuel)%nat ->
  (forall k, offset - Z.of_nat n < k <= offset ->
     exists l, at_ m k = Some l /\ type (node l) = ty) ->
  ty <> msubsup -> 0 <= offset - Z.of_nat n ->
  (exists t, at_ m (offset - Z.of_nat n) = Some t /\ type (node t) <> ty) ->
  sameTypeBackward fuel m ty offset (typeOf (at_ m offset))
  = Ok (offset - Z.of_nat n, (fuel - n)%nat).
Proof.
  induction n as [|n IH]; intros fuel offset Hf Hrun Hm Ho (t & Ht & Hne).
  - rewrite Z.sub_0_r in *. rewrite Nat.sub_0_r, Ht.
    destruct fuel; simpl;
      rewrite (bool_decide_eq_false_2 (_ = Some ty)) by (by intros [= ?]);
      by rewrite andb_false_r.
  - destruct (Hrun offset ltac:(lia)) as (l & Hl & Hty).
    destruct fuel as [|fuel]; [lia|].
    cbn [sameTypeBackward]. rewrite Hl. simpl typeOf.
    rewrite bool_decide_eq_true_2 by lia.
    rewrite (bool_decide_eq_true_2 (_ = Some ty)) by (by rewrite Hty).
    simpl. rewrite decide_False by (rewrite Hty; by intros [= ?]).
    simpl.
    assert (exists l', at_ m (offset - 1) = Some l') as [l' Hl'].
    { destruct n as [|n].
      - exists t. rewrite <- Ht. f_equal; lia.
      - destruct (Hrun (offset - 1) ltac:(lia)) as (l' & Hl' & _).
        by exists l'. }
    rewrite Hl'. simpl.
    change (Some (type (node l'))) with (typeOf (Some l')). rewrite <- Hl'.
    rewrite IH.
    + do 2 f_equal. lia.
    + lia.
    + intros k Hk. apply Hrun. lia.
    + done.
    + lia.
    + exists t. split; [|done]. rewrite <- Ht. f_equal; lia.
Qed.

(** X10.  In a math zone a backward [skip] runs over the atoms that share
    the type of the atom before the caret: when the [n] atoms that end at
    the caret have the type [ty] (not [first], not a close fence, not a
    script atom) and the atom before them has another type, the position
    becomes [p - n], the offset of that atom; with extend the anchor
    stays. *)
Theorem skip_same_type_backward fuel (extend : bool) m here ty (n : nat) :
  let m1 := if extend then m else collapseTo backward m in
  let p := position m1 in
  (0 < n)%nat -> (n <= fuel)%nat ->
  at_ m1 p = Some here -> class (node here) = PlainAtom ->
  ty <> first -> ty <> mclose -> ty <> msubsup ->
  (forall k, p - Z.of_nat n < k <= p ->
     exists l, at_ m1 k = Some l /\ type (node l) = ty) ->
  0 <= p - Z.of_nat n ->
  (exists t, at_ m1 (p - Z.of_nat n) = Some t /\ type (node t) <> ty) ->
  skip fuel backward extend m
  = Ok (true,
        setCursor (if extend then anchor m else p - Z.of_nat n)
                  (p - Z.of_nat n) m1,
        [Announce Move (Some (position m))]).
Proof.
  intros m1 p Hn Hf H0 Hc Hfi Hcl Hm Hrun Ho Hend.
  rewrite skip_eq. fold m1. unfold skipFrom. rewrite decide_False by done.
  fold p. rewrite H0.
  destruct (Hrun p ltac:(lia)) as (l & Hl & Hty).
  rewrite H0 in Hl. injection Hl as <-.
  assert (skipTarget fuel backward here m1
          = Ok (Some (p - Z.of_nat n), m1, [])) as ->.
  { unfold skipTarget. rewrite bind_getModel.
    unfold isTextAtom, isCommandAtom. rewrite Hc.
    rewrite decide_False by (by intros [? _]).
    rewrite decide_False by (rewrite Hty; by intros [_ ?]).
    rewrite decide_True by done.
    rewrite decide_False by (by rewrite Hty).
    rewrite decide_False by (by rewrite Hty).
    rewrite (offsetOf_at _ _ _ H0), Hty.
    rewrite bind_liftResult. cbn [mbind Result_bind].
    rewrite bind_liftResult.
    destruct n as [|n]; [lia|].
    rewrite (sameTypeBackward_run m1 ty n fuel (p - 1)); try done.
    - simpl. by replace (p - 1 - Z.of_nat n) with (p - Z.of_nat (S n)) by lia.
    - lia.
    - intros k Hk. apply Hrun. lia.
    - lia.
    - destruct Hend as (t & Ht & Hne). exists t. split; [|done].
      rewrite <- Ht. f_equal; lia. }
  rewrite decide_False by (fold p; lia). simpl.
  do 3 f_equal. unfold m1. destruct extend; [done|].
  unfold collapseTo. by destruct (collapsed m).
Qed.

(** The theorem on "x, y, z", from offset 0. *)
Lemma skip_same_type_forward_witness :
  skip 4 forward false (caretAt 0 xyz)
  = Ok (true, caretAt 3 xyz, [Announce Move (Some 0)]).
Proof.
  apply (skip_same_type_forward 4 false (caretAt 0 xyz)
           (inBody 0 sentinel) (inBody 1 (sym mord "x")) mord 3);
    try evaluated; try lia.
  intros k Hk. change (position _) with 0 in Hk.
  assert (k = 1 \/ k = 2 \/ k = 3) as [->|[->| ->]] by lia;
    eexists; repeat split; vm_compute; reflexivity || discriminate.
Defined.

(** The theorem on "x, y, z", from offset 3. *)
Lemma skip_same_type_backward_witness :
  skip 4 backward false (caretAt 3 xyz)
  = Ok (true, caretAt 0 xyz, [Announce Move (Some 3)]).
Proof.
  apply (skip_same_type_backward 4 false (caretAt 3 xyz)
           (inBody 3 (sym mord "z")) mord 3);
    try evaluated; try lia.
  - intros k Hk. change (position _) with 3 in Hk.
    assert (k = 1 \/ k = 2 \/ k = 3) as [->|[->| ->]] by lia;
      eexists; repeat split; vm_compute; reflexivity.
  - exists (inBody 0 sentinel). split; vm_compute; reflexivity || discriminate.
Defined.

(** ** Leaving a branch backward *)

Lemma leadingFirsts_run m (n : nat) : forall fuel offset,
  (n <= fuel)%nat -> 0 <= offset - Z.of_nat n ->
  (forall k, offset - Z.of_nat n < k <= offset ->
     exists l, at_ m k = Some l /\ type (node l) = first) ->
  (offset - Z.of_nat n = 0
   \/ exists t, at_ m (offset - Z.of_nat n) = Some t /\ type (node t) <> first) ->
  leadingFirsts fuel m (at_ m offset) offset
  = Ok (offset - Z.of_nat n, (fuel - n)%nat).
Proof.
  induction n as [|n IH]; intros fuel offset Hf Ho Hrun Hend.
  - rewrite Z.sub_0_r in *. rewrite Nat.sub_0_r.
    destruct Hend as [->|(t & Ht & Hne)].
    + by destruct fuel.
    + rewrite Ht. destruct fuel; simpl; case_decide; try done;
        by rewrite decide_False.
  - destruct (Hrun offset ltac:(lia)) as (l & Hl & Hty).
    destruct fuel as [|fuel]; [lia|].
    cbn [leadingFirsts]. rewrite decide_True by lia. rewrite Hl. simpl.
    rewrite decide_True by done.
    rewrite IH.
    + do 2 f_equal. lia.
    + lia.
    + lia.
    + intros k Hk. apply Hrun. lia.
    + destruct Hend as [?|(t & Ht & Hne)]; [left; lia|right].
      exists t. split; [|done]. rewrite <- Ht. f_equal; lia.
Qed.

(** X28.  A backward [skip] from the [first] atom of a branch leaves the
    branch: when the [n] atoms that end at the caret have the type [first]
    and the offset before them is 0 or holds an atom of another type, the
    position becomes that offset, [p - n]; with extend the anchor stays. *)
Theorem skip_leaves_branch fuel (extend : bool) m here (n : nat) :
  let m1 := if extend then m else collapseTo backward m in
  let p := position m1 in
  (0 < n)%nat -> (n <= fuel)%nat ->
  at_ m1 p = Some here -> class (node here) = PlainAtom ->
  (forall k, p - Z.of_nat n < k <= p ->
     exists l, at_ m1 k = Some l /\ type (node l) = first) ->
  0 <= p - Z.of_nat n ->
  (p - Z.of_nat n = 0
   \/ exists t, at_ m1 (p - Z.of_nat n) = Some t /\ type (node t) <> first) ->
  skip fuel backward extend m
  = Ok (true,
        setCursor (if extend then anchor m else p - Z.of_nat n)
                  (p - Z.of_nat n) m1,
        [Announce Move (Some (position m))]).
Proof.
  intros m1 p Hn Hf H0 Hc Hrun Ho Hend.
  rewrite skip_eq. fold m1. unfold skipFrom. rewrite decide_False by done.
  fold p. rewrite H0.
  destruct (Hrun p ltac:(lia)) as (l & Hl & Hty).
  rewrite H0 in Hl. injection Hl as <-.
  assert (skipTarget fuel backward here m1
          = Ok (Some (p - Z.of_nat n), m1, [])) as ->.
  { unfold skipTarget. rewrite bind_getModel.
    unfold isTextAtom, isCommandAtom. rewrite Hc.
    rewrite decide_False by (by intros [? _]).
    rewrite decide_False by (rewrite Hty; by intros [_ ?]).
    rewrite decide_True by done. rewrite decide_True by done.
    rewrite bind_liftResult.
    rewrite (offsetOf_at _ _ _ H0). rewrite <- H0.
    by rewrite (leadingFirsts_run m1 n fuel p). }
  rewrite decide_False by (fold p; lia). simpl.
  do 3 f_equal. unfold m1. destruct extend; [done|].
  unfold collapseTo. by destruct (collapsed m).
Qed.

(** The theorem at the start of the denominator of x over y: the
    caret goes to offset 2, after the x of the numerator. *)
Lemma skip_leaves_branch_witness :
  skip 6 backward false (caretAt 3 xOverY)
  = Ok (true, caretAt 2 xOverY, [Announce Move (Some 3)]).
Proof.
  apply (skip_leaves_branch 6 false (caretAt 3 xOverY)
           (MkLoc [(below, O); (body, 1%nat)] sentinel) 1);
    try evaluated; try lia.
  - intros k Hk. change (position _) with 3 in Hk. assert (k = 3) as -> by lia.
    eexists. split; vm_compute; reflexivity.
  - right. eexists. split; vm_compute; reflexivity || discriminate.
Defined.

(** ** Command zones *)

Lemma commandRun_run m next : forall run fuel x offset,
  (length run <= fuel)%nat -> linked next x run ->
  Forall (fun l => isCommandAtom l && commandLetter l = true) run ->
  from_option (fun l => isCommandAtom l && commandLetter l) false
              (next (default x (last run))) = false ->
  commandRun fuel m next (next x) offset
  = Ok (from_option (offsetOf m) offset (last run), (fuel - length run)%nat).
Proof.
  induction run as [|a r IH]; intros fuel x offset Hf Hl Hall Hstop.
  - simpl in *. rewrite Nat.sub_0_r.
    destruct (next x) as [l|]; [|by destruct fuel].
    simpl in Hstop. destruct fuel; simpl; by rewrite Hstop.
  - destruct Hl as [Hx Hl]. apply Forall_cons in Hall as [Ha Hall].
    destruct fuel as [|fuel]; [simpl in Hf; lia|].
    rewrite Hx. cbn [commandRun]. rewrite Ha.
    rewrite last_cons in *.
    rewrite (IH fuel a (offsetOf m a)).
    + simpl. by destruct (last r).
    + simpl in Hf. lia.
    + done.
    + done.
    + by destruct (last r).
Qed.

(** X27.  In a command zone, away from a suggestion, a [skip] goes to the
    last of the command letters that follow the atom next to the caret
    (precede it, backward), and plonks when that leaves the caret where it
    is.  When the atom next to the caret ends the command (no sibling
    follows it, or one that is not a command atom), the skip returns
    [false], announces a plonk and leaves the model as the collapse of the
    selection left it. *)
Theorem skip_command_zone fuel (extend : bool) direction m atom :
  direction = forward \/ direction = backward ->
  let m1 := if extend then m else collapseTo direction m in
  let next := if decide (direction = forward)
              then rightSibling m1 else leftSibling m1 in
  skipFrom m1 direction = Ok (Some atom) ->
  isCommandAtom atom = true -> isSuggestion atom = false ->
  (from_option isCommandAtom false (next atom) = false ->
   skip fuel direction extend m = Ok (false, m1, [Announce Plonk None]))
  /\ (forall run,
        from_option isCommandAtom false (next atom) = true ->
        (length run <= fuel)%nat -> linked next atom run ->
        Forall (fun l => isCommandAtom l && commandLetter l = true) run ->
        from_option (fun l => isCommandAtom l && commandLetter l) false
                    (next (default atom (last run))) = false ->
        let o := offsetOf m1 (default atom (last run)) in
        skip fuel direction extend m
        = if decide (o = position m1)
          then Ok (false, m1, [Announce Plonk None])
          else Ok (true, setCursor (if extend then anchor m else o) o m1,
                   [Announce Move (Some (position m))])).
Proof.
  intros Hd m1 next Hfrom Hc Hs.
  assert (anchor m1 = if extend then anchor m else position m1) as Hanchor.
  { unfold m1. destruct extend; [done|].
    pose proof (collapsed_collapseTo direction m) as H.
    by apply bool_decide_eq_true in H. }
  assert (isTextAtom atom = false) as Ht.
  { unfold isTextAtom, isCommandAtom in *. by destruct (class (node atom)). }
  split.
  - intros Hend. rewrite skip_eq. fold m1. rewrite Hfrom.
    unfold skipTarget. rewrite bind_getModel, Ht, Hc, Hs. cbv zeta.
    fold next. destruct (next atom) as [a|]; simpl in Hend.
    + rewrite Hend. by run.
    + by run.
  - intros run Hnext Hf Hl Hall Hstop o.
    rewrite skip_eq. fold m1. rewrite Hfrom.
    unfold skipTarget. rewrite bind_getModel, Ht, Hc, Hs. cbv zeta.
    fold next. destruct (next atom) as [a|] eqn:Ha; simpl in Hnext; [|done].
    rewrite Hnext, bind_liftResult. rewrite <- Ha.
    rewrite (commandRun_run m1 next run fuel atom) by done.
    cbv beta iota. unfold mret, Cmd_ret.
    replace (from_option (offsetOf m1) (offsetOf m1 atom) (last run)) with o
      by (unfold o; by destruct (last run)).
    destruct (decide (o = position m1)); [done|]. simpl.
    do 3 f_equal. unfold m1. destruct extend; [done|].
    unfold collapseTo. by destruct (collapsed m).
Qed.

(** The theorem on the command letters s, i, n: from offset 0 the
    skip goes to offset 3; from offset 2, where only the n follows, it
    plonks. *)
Lemma skip_command_zone_witness :
  skip 3 forward false (caretAt 0 sinCommand)
  = Ok (true, caretAt 3 sinCommand, [Announce Move (Some 0)])
  /\ skip 3 forward false (caretAt 2 sinCommand)
     = Ok (false, caretAt 2 sinCommand, [Announce Plonk None]).
Proof.
  split.
  - destruct (skip_command_zone 3 false forward (caretAt 0 sinCommand)
                (inBody 1 (typed "s"))) as [_ H];
      [by left|evaluated|evaluated|evaluated|].
    apply (H [inBody 2 (typed "i"); inBody 3 (typed "n")]).
    + evaluated.
    + simpl. lia.
    + evaluated.
    + by repeat constructor.
    + evaluated.
  - destruct (skip_command_zone 3 false forward (caretAt 2 sinCommand)
                (inBody 3 (typed "n"))) as [H _];
      [by left|evaluated|evaluated|evaluated|].
    apply H. evaluated.
Defined.

(* ================================================================== *)
(** * Part XIX: what selectGroup selects                             *)
(* ================================================================== *)

(** ** What [selectGroup] selects *)

Lemma numberStart_run m (s : Z) : forall n : nat,
  -1 <= s < Z.of_nat n ->
  (forall k, s < k < Z.of_nat n -> isNumber (at_ m k) = true) ->
  isNumber (at_ m s) = false ->
  numberStart m n = s.
Proof.
  induction n as [|n IH]; intros Hs Hrun Hend; [simpl; lia|].
  cbn [numberStart]. destruct (decide (s = Z.of_nat n)) as [->|Hne].
  - by rewrite Hend.
  - rewrite Hrun by lia. destruct n as [|n]; [simpl; lia|].
    apply IH; [lia| |done]. intros k Hk. apply Hrun. lia.
Qed.

Lemma numberEnd_run m (e' : Z) : forall (n : nat) e,
  e <= e' -> e' - e <= Z.of_nat n ->
  (forall k, e <= k < e' -> isNumber (at_ m k) = true) ->
  isNumber (at_ m e') = false ->
  numberEnd m n e = e'.
Proof.
  induction n as [|n IH]; intros e He Hn Hrun Hend.
  - simpl. lia.
  - cbn [numberEnd]. destruct (decide (e = e')) as [->|Hne].
    + by rewrite Hend.
    + rewrite Hrun by lia. apply IH; [lia|lia| |done].
      intros k Hk. apply Hrun. lia.
Qed.

Lemma isNumber_Some m k : isNumber (at_ m k) = true -> 0 <= k <= lastOffset m.
Proof.
  destruct (at_ m k) as [l|] eqn:E; [|done]. intros _.
  by apply at_Some_range in E.
Qed.

(** X11.  In a math zone, with the caret after an atom of a number,
    [selectGroup] selects the whole number: when the atoms at the offsets
    [s + 1 .. e] are number atoms, the atom at [s] is not, the atom at
    [e + 1] is not or the document ends at [e], and the selection lies
    within, the selection becomes [(s, e)]. *)
Theorem selectGroup_number m (s e : Z) :
  getMode m (position m) <> Some text ->
  0 <= s <= Z.min (anchor m) (position m) ->
  Z.max (anchor m) (position m) <= e + 1 ->
  s < position m <= e ->
  (forall k, s < k <= e -> isNumber (at_ m k) = true) ->
  isNumber (at_ m s) = false ->
  isNumber (at_ m (e + 1)) = false ->
  selectGroup m = Ok (true, setCursor s e m, []).
Proof.
  intros Hmode Hs He Hp Hrun Hlo Hhi.
  unfold selectGroup. rewrite bind_getModel.
  rewrite decide_False by done. rewrite Hrun by lia.
  pose proof (isNumber_Some m e (Hrun e ltac:(lia))) as Hr.
  assert ((if decide (Z.min (anchor m) (position m) < 0)
           then Z.min (anchor m) (position m)
           else numberStart m (S (Z.to_nat (Z.min (anchor m) (position m)))))
          = s) as ->.
  { case_decide; [lia|]. apply numberStart_run; [lia| |done].
    intros k Hk. apply Hrun. lia. }
  rewrite (numberEnd_run m (e + 1)); try done; try lia.
  - run. by replace (e + 1 - 1) with e by lia.
  - intros k Hk. apply Hrun. lia.
Qed.

Lemma wordStart_run m (s : nat) : forall n : nat,
  (s <= n)%nat ->
  (forall k, Z.of_nat s < k <= Z.of_nat n ->
     exists l, at_ m k = Some l /\ alnumText l = true) ->
  (s = O \/ exists l, at_ m (Z.of_nat s) = Some l /\ alnumText l = false) ->
  wordStart m n = Ok (Z.of_nat s).
Proof.
  induction n as [|n IH]; intros Hs Hrun Hend.
  - by assert (s = O) as -> by lia.
  - cbn [wordStart]. destruct (decide (s = S n)) as [->|Hne].
    + destruct Hend as [?|(l & Hl & Ha)]; [done|].
      rewrite Hl. simpl. by rewrite Ha.
    + destruct (Hrun (Z.of_nat (S n)) ltac:(lia)) as (l & Hl & Ha).
      rewrite Hl. simpl. rewrite Ha.
      apply IH; [lia| |done]. intros k Hk. apply Hrun. lia.
Qed.

Lemma wordEnd_run m (e' : Z) : forall (n : nat) e,
  e <= e' -> e' - e < Z.of_nat n ->
  (forall k, e <= k < e' -> exists l, at_ m k = Some l /\ alnumText l = true) ->
  (exists l, at_ m e' = Some l /\ alnumText l = false) ->
  wordEnd m n e = Ok (e', true).
Proof.
  induction n as [|n IH]; intros e He Hn Hrun Hend; [lia|].
  cbn [wordEnd]. destruct (decide (e = e')) as [->|Hne].
  - destruct Hend as (l & Hl & Ha). rewrite Hl. simpl. by rewrite Ha.
  - destruct (Hrun e ltac:(lia)) as (l & Hl & Ha). rewrite Hl. simpl.
    rewrite Ha. apply IH; [lia|lia| |done]. intros k Hk. apply Hrun. lia.
Qed.

(** X12.  In a text zone [selectGroup] selects the word around the
    selection: when the atoms at the offsets [s + 1 .. e] are alphanumerical
    text atoms, the atom at [e + 1] is not, [s] is 0 or the offset of an
    atom that is not, and the selection lies within, the selection becomes
    [(s, e)]. *)
Theorem selectGroup_word m (s e : Z) :
  getMode m (position m) = Some text ->
  0 <= s <= Z.min (anchor m) (position m) ->
  Z.min (anchor m) (position m) <= e ->
  s < Z.max (anchor m) (position m) <= e + 1 ->
  s < e ->
  (forall k, s < k <= e -> exists l, at_ m k = Some l /\ alnumText l = true) ->
  (s = 0 \/ exists l, at_ m s = Some l /\ alnumText l = false) ->
  (exists l, at_ m (e + 1) = Some l /\ alnumText l = false) ->
  selectGroup m = Ok (true, setCursor s e m, []).
Proof.
  intros Hmode Hs Hle He Hse Hrun Hlo Hhi.
  unfold selectGroup. rewrite bind_getModel.
  rewrite decide_True by done.
  set (lo := Z.min (anchor m) (position m)) in *.
  set (hi := Z.max (anchor m) (position m)) in *.
  assert ((if decide (lo > 0) then wordStart m (Z.to_nat lo) else Ok lo)
          = Ok s) as ->.
  { case_decide; [|f_equal; lia].
    rewrite <- (Z2Nat.id s) by lia. apply wordStart_run; [lia| |].
    - intros k Hk. apply Hrun. lia.
    - destruct Hlo as [->|Hl]; [by left|]. right. by rewrite Z2Nat.id by lia. }
  rewrite bind_liftResult.
  destruct Hhi as (t & Ht & Hta). pose proof (at_Some_range _ _ _ Ht) as Hr.
  rewrite (wordEnd_run m (e + 1)); try lia.
  - rewrite bind_liftResult. cbv beta iota.
    replace (e + 1 - 1) with e by lia.
    rewrite decide_False by lia. by run.
  - intros k Hk. apply Hrun. lia.
  - by exists t.
Qed.

(** The theorem on "1, 2, +, x", from between the digits. *)
Lemma selectGroup_number_witness :
  selectGroup (caretAt 1 twelvePlusX)
  = Ok (true, setCursor 0 2 (caretAt 1 twelvePlusX), []).
Proof.
  apply (selectGroup_number (caretAt 1 twelvePlusX) 0 2);
    try evaluated.
  intros k Hk. assert (k = 1 \/ k = 2) as [->| ->] by lia;
    vm_compute; reflexivity.
Defined.

(** The theorem on "blue yellow", from inside "blue". *)
Lemma selectGroup_word_witness :
  selectGroup (caretAt 2 blueYellow)
  = Ok (true, setCursor 0 4 (caretAt 2 blueYellow), []).
Proof.
  apply (selectGroup_word (caretAt 2 blueYellow) 0 4);
    try evaluated.
  - intros k Hk.
    assert (k = 1 \/ k = 2 \/ k = 3 \/ k = 4) as [->|[->|[->| ->]]] by lia;
      eexists; split; vm_compute; reflexivity.
  - eexists. split; vm_compute; reflexivity.
Defined.

(** ** Offsets among siblings *)

Lemma run_size_app xs ys : run_size (xs ++ ys) = (run_size xs + run_size ys)%nat.
Proof. unfold run_size. by rewrite map_app, sum_list_with_app. Qed.

Lemma run_size_take_le xs (i j : nat) :
  (i <= j)%nat -> (run_size (take i xs) <= run_size (take j xs))%nat.
Proof.
  intros H. replace j with (i + (j - i))%nat by lia.
  rewrite <- take_take_drop, run_size_app. lia.
Qed.

Lemma run_size_take_lt xs (i j : nat) x :
  (i < j)%nat -> xs !! i = Some x ->
  (run_size (take i xs) + S (size x) <= run_size (take j xs))%nat.
Proof.
  intros H Hi. rewrite <- (run_size_take_S _ _ _ Hi).
  apply run_size_take_le. lia.
Qed.

Lemma locate_cons_None m br i (q : Path) b o xs :
  walk (root m) (rev q) = Some (b, o) -> branches o br = Some xs ->
  xs !! i = None -> locate m ((br, i) :: q) = None.
Proof.
  intros Hw Hb Hi. unfold locate, lookupPath. simpl rev.
  rewrite walk_app, Hw. simpl. rewrite Hb. simpl. by rewrite Hi.
Qed.

Lemma offsetOf_slot m l k :
  slot (root m) (path l) = Some k -> offsetOf m l = Z.of_nat k.
Proof. intros H. unfold offsetOf. by rewrite H. Qed.

(** The first and the last sibling of an atom of the document, with their
    offsets on either side of the atom's. *)
Lemma sibling_span m k here :
  at_ m k = Some here ->
  exists f l,
    firstSibling m here = Some f /\ lastSibling m here = Some l
    /\ offsetOf m f <= k <= offsetOf m l
    /\ at_ m (offsetOf m f) = Some f /\ at_ m (offsetOf m l) = Some l
    /\ isFirstSibling f = true /\ isLastSibling m l = true
    /\ firstSibling m f = Some f /\ lastSibling m l = Some l.
Proof.
  intros Hk. pose proof (offsetOf_at _ _ _ Hk) as Ho.
  pose proof Hk as [_ Hl]%at_slot.
  destruct (at_path_cons _ _ _ Hk) as (br & i & q & b & o & xs & Hp & Hw & Hb & Hi).
  rewrite Hp in Hl.
  apply locate_cons_inv in Hl as (b' & o' & xs' & Hw' & Hb' & _ & _ & Hs).
  rewrite Hw in Hw'. injection Hw' as <- <-. rewrite Hb in Hb'. injection Hb' as <-.
  pose proof (lookup_lt_Some _ _ _ Hi) as Hlen.
  destruct (xs !! 0%nat) as [x0|] eqn:E0;
    [|apply lookup_ge_None in E0; lia].
  destruct (xs !! pred (length xs)) as [xl|] eqn:El;
    [|apply lookup_ge_None in El; lia].
  pose proof (locate_cons m br 0 q b o xs x0 Hw Hb E0) as Hf.
  pose proof (locate_cons m br (pred (length xs)) q b o xs xl Hw Hb El) as Hla.
  exists (MkLoc ((br, 0%nat) :: q) x0), (MkLoc ((br, pred (length xs)) :: q) xl).
  assert (firstSibling m here = Some (MkLoc ((br, 0%nat) :: q) x0)) as Hfs.
  { unfold firstSibling. by rewrite Hp. }
  assert (lastSibling m here
          = Some (MkLoc ((br, pred (length xs)) :: q) xl)) as Hls.
  { unfold lastSibling. rewrite Hp, (locate_walk _ _ _ _ Hw). simpl.
    rewrite Hb. simpl. exact Hla. }
  destruct (offsetOf_locate m ((br, 0%nat) :: q) _ ltac:(done) Hf)
    as [_ Haf].
  destruct (offsetOf_locate m ((br, pred (length xs)) :: q) _ ltac:(done) Hla)
    as [_ Hal].
  split; [done|]. split; [done|]. split.
  - apply locate_cons_inv in Hf as (b1 & o1 & xs1 & Hw1 & Hb1 & _ & _ & Hs1).
    apply locate_cons_inv in Hla as (b2 & o2 & xs2 & Hw2 & Hb2 & _ & _ & Hs2).
    rewrite Hw in Hw1, Hw2. injection Hw1 as <- <-. injection Hw2 as <- <-.
    rewrite Hb in Hb1, Hb2. injection Hb1 as <-. injection Hb2 as <-.
    rewrite <- Hp in Hs. rewrite (offsetOf_slot _ _ _ Hs) in Ho.
    rewrite (offsetOf_slot m (MkLoc ((br, 0%nat) :: q) x0) _ Hs1).
    rewrite (offsetOf_slot m (MkLoc ((br, pred (length xs)) :: q) xl) _ Hs2).
    simpl node. simpl take at 1. change (run_size []) with 0%nat.
    split.
    + destruct i as [|i].
      * rewrite E0 in Hi. injection Hi as Hx. rewrite <- Hx in Ho.
        simpl take in Ho. change (run_size []) with 0%nat in Ho. lia.
      * pose proof (run_size_take_lt xs 0 (S i) x0 ltac:(lia) E0) as Hlt.
        simpl take at 1 in Hlt. change (run_size []) with 0%nat in Hlt. lia.
    + destruct (decide (i = pred (length xs))) as [->|Hne].
      * rewrite El in Hi. injection Hi as Hx. rewrite <- Hx in Ho. lia.
      * pose proof (run_size_take_lt xs i (pred (length xs)) _
                      ltac:(lia) Hi) as Hlt. lia.
  - repeat split; try done.
    + unfold isLastSibling, rightSibling. simpl.
      rewrite (locate_cons_None m br _ q b o xs Hw Hb); [done|].
      apply lookup_ge_None. lia.
    + unfold lastSibling. simpl. rewrite (locate_walk _ _ _ _ Hw). simpl.
      rewrite Hb. simpl. exact Hla.
Qed.

(** X13.  In a math zone, with the caret after an atom that is not part
    of a number, [selectGroup] selects the group the atom is in: the
    selection runs from the offset of its first sibling to the offset of its
    last sibling, and the position lies between the two. *)
Theorem selectGroup_siblings m here :
  getMode m (position m) <> Some text ->
  at_ m (position m) = Some here ->
  isNumber (Some here) = false ->
  exists f l,
    firstSibling m here = Some f /\ lastSibling m here = Some l
    /\ selectGroup m = Ok (true, setCursor (offsetOf m f) (offsetOf m l) m, [])
    /\ offsetOf m f <= position m <= offsetOf m l
    /\ at_ m (offsetOf m f) = Some f /\ at_ m (offsetOf m l) = Some l
    /\ isFirstSibling f = true /\ isLastSibling m l = true.
Proof.
  intros Hmode Hh Hn.
  destruct (sibling_span _ _ _ Hh)
    as (f & l & Hf & Hl & Hr & Haf & Hal & Hif & Hil & _).
  exists f, l. repeat split; try done; try lia.
  unfold selectGroup. rewrite bind_getModel.
  rewrite decide_False by done. rewrite Hh, Hn.
  rewrite bind_liftResult. cbn [defined].
  rewrite bind_liftResult, Hf. cbn.
  rewrite bind_liftResult, Hl. cbn. by run.
Qed.

(** The theorem on "x, y, z", from after the x: the three letters
    and the sentinel before them are selected. *)
Lemma selectGroup_siblings_witness :
  selectGroup (caretAt 1 xyz) = Ok (true, setCursor 0 3 (caretAt 1 xyz), []).
Proof.
  destruct (selectGroup_siblings (caretAt 1 xyz) (inBody 1 (sym mord "x")))
    as (f & l & Hf & Hl & H & _); [vm_compute; discriminate|reflexivity..|].
  injection Hf as <-. injection Hl as <-. exact H.
Defined.

(* ================================================================== *)
(** * Part XX: parents, group edges and extensions                   *)
(* ================================================================== *)

(** ** To the parent, and to the edges of the group *)

Lemma sizeBefore_le_size a br :
  (sizeBefore NAMED_BRANCHES a br + branchSize a br <= size a)%nat.
Proof.
  rewrite size_unfold. pose proof (elem_of_NAMED_BRANCHES br) as Hin.
  induction NAMED_BRANCHES as [|b names IH]; [by apply elem_of_nil in Hin|].
  change (sizeBefore (b :: names) a br + branchSize a br
          <= branchSize a b + sum_list (map (branchSize a) names))%nat.
  cbn [sizeBefore]. case_decide as Hb; [subst; lia|].
  apply elem_of_cons in Hin as [->|Hin]; [done|].
  specialize (IH Hin). lia.
Qed.

(** The owner of an atom sits after it in the document. *)
Lemma parent_offset m k here owner :
  at_ m k = Some here -> parent m here = Some owner -> path owner <> [] ->
  k < offsetOf m owner <= lastOffset m /\ at_ m (offsetOf m owner) = Some owner.
Proof.
  intros Hk Hp Hne. pose proof (offsetOf_at _ _ _ Hk) as Ho.
  pose proof Hk as [_ Hl]%at_slot.
  destruct (at_path_cons _ _ _ Hk)
    as (br & i & q & b & o & xs & Hpath & Hw & Hb & Hi).
  rewrite Hpath in Hl.
  apply locate_cons_inv in Hl as (b' & o' & xs' & Hw' & Hb' & _ & _ & Hs).
  rewrite Hw in Hw'. injection Hw' as <- <-.
  rewrite Hb in Hb'. injection Hb' as <-.
  unfold parent in Hp. rewrite Hpath, (locate_walk _ _ _ _ Hw) in Hp.
  injection Hp as <-. simpl in Hne.
  destruct (offsetOf_locate m q (MkLoc q o) Hne (locate_walk _ _ _ _ Hw))
    as [Hr Ha].
  split; [|done]. split; [|lia].
  rewrite <- Hpath in Hs. rewrite (offsetOf_slot _ _ _ Hs) in Ho.
  unfold offsetOf, slot. simpl path. rewrite Hw. simpl.
  destruct q; [done|].
  pose proof (sizeBefore_le_size o br) as Hle. unfold branchSize in Hle.
  rewrite Hb in Hle.
  pose proof (run_size_take_lt xs i (length xs) _
                ltac:(by eapply lookup_lt_Some) Hi) as Hlt.
  rewrite firstn_all in Hlt. lia.
Qed.

(** X14.  From a caret after an atom whose parent is not the root,
    [moveAfterParent] and [moveBeforeParent] both put the caret at the
    offset of the parent, which lies after the position: the two commands
    leave the same model, and differ only in that [moveAfterParent]
    announces the move. *)
Theorem move_to_parent m here owner :
  at_ m (position m) = Some here -> parent m here = Some owner ->
  path owner <> [] ->
  let o := offsetOf m owner in
  moveAfterParent m
  = Ok (true, setCursor o o m, [Announce Move (Some (position m))])
  /\ moveBeforeParent m = Ok (true, setCursor o o m, [])
  /\ position m < o <= lastOffset m
  /\ at_ m o = Some owner.
Proof.
  intros Hh Hp Hne o.
  destruct (parent_offset _ _ _ _ Hh Hp Hne) as [Hr Ha].
  repeat split; try done; try lia.
  - unfold moveAfterParent. rewrite bind_getModel, bind_liftResult, Hh.
    cbn [defined]. rewrite Hp. by run.
  - unfold moveBeforeParent. rewrite bind_getModel, bind_liftResult, Hh.
    cbn [defined]. rewrite Hp. by run.
Qed.

(** X15.  [moveToGroupStart] never moves the caret forward and
    [moveToGroupEnd] never moves it backward: they put the caret at the
    offset of the first (resp. last) sibling of the atom at the caret,
    without announcement, and plonk when it is there already; so running
    either a second time plonks and changes nothing. *)
Theorem moveToGroup_edges m here :
  at_ m (position m) = Some here ->
  exists f l,
    firstSibling m here = Some f /\ lastSibling m here = Some l
    /\ offsetOf m f <= position m <= offsetOf m l
    /\ moveToGroupStart m
       = (if decide (offsetOf m f = position m)
          then Ok (false, m, [Announce Plonk None])
          else Ok (true, setCursor (offsetOf m f) (offsetOf m f) m, []))
    /\ moveToGroupEnd m
       = (if decide (offsetOf m l = position m)
          then Ok (false, m, [Announce Plonk None])
          else Ok (true, setCursor (offsetOf m l) (offsetOf m l) m, []))
    /\ (let m' := setCursor (offsetOf m f) (offsetOf m f) m in
        moveToGroupStart m' = Ok (false, m', [Announce Plonk None]))
    /\ (let m' := setCursor (offsetOf m l) (offsetOf m l) m in
        moveToGroupEnd m' = Ok (false, m', [Announce Plonk None])).
Proof.
  intros Hh.
  destruct (sibling_span _ _ _ Hh)
    as (f & l & Hf & Hl & Hr & Haf & Hal & _ & _ & Hff & Hll).
  exists f, l. repeat split; try done; try lia.
  - unfold moveToGroupStart, moveToGroupEdge.
    rewrite bind_getModel, bind_liftResult, Hh. cbn [defined].
    rewrite bind_liftResult, Hf. cbn. case_decide; by run.
  - unfold moveToGroupEnd, moveToGroupEdge.
    rewrite bind_getModel, bind_liftResult, Hh. cbn [defined].
    rewrite bind_liftResult, Hl. cbn. case_decide; by run.
  - intros m'. unfold moveToGroupStart, moveToGroupEdge.
    rewrite bind_getModel, bind_liftResult.
    change (at_ m' (position m')) with (at_ m (offsetOf m f)).
    rewrite Haf. cbn [defined]. rewrite bind_liftResult.
    change (firstSibling m' f) with (firstSibling m f). rewrite Hff. cbn.
    by rewrite decide_True.
  - intros m'. unfold moveToGroupEnd, moveToGroupEdge.
    rewrite bind_getModel, bind_liftResult.
    change (at_ m' (position m')) with (at_ m (offsetOf m l)).
    rewrite Hal. cbn [defined]. rewrite bind_liftResult.
    change (lastSibling m' l) with (lastSibling m l). rewrite Hll. cbn.
    by rewrite decide_True.
Qed.

(** ** Extending the selection to an edge *)

Lemma orPlonk_setSelection m p :
  orPlonk (setSelection (anchor m) p) m
  = Ok (negb (bool_decide (position m = p)), setCursor (anchor m) p m,
        if bool_decide (position m = p) then [Announce Plonk None] else []).
Proof.
  unfold orPlonk. run. destruct (decide (position m = p)) as [->|Hne].
  - rewrite !bool_decide_eq_true_2 by done. done.
  - rewrite (bool_decide_eq_false_2 (_ /\ _)) by (by intros [_ ?]).
    by rewrite bool_decide_eq_false_2.
Qed.

Lemma setCursor_anchor_inv m p :
  setCursor (anchor m) p m = m <-> position m = p.
Proof.
  split; [|intros <-; apply setCursor_same].
  intros H. by rewrite <- H at 1.
Qed.

(** X16.  [extendToMathFieldStart], [extendToMathFieldEnd],
    [extendToGroupStart] and [extendToGroupEnd], when they return, keep the
    anchor and the tree; they return [false] exactly when the model is as it
    was, and they announce a plonk exactly then. *)
Theorem extend_to_edge_reports m b m' out :
  extendToMathFieldStart m = Ok (b, m', out)
  \/ extendToMathFieldEnd m = Ok (b, m', out)
  \/ extendToGroupStart m = Ok (b, m', out)
  \/ extendToGroupEnd m = Ok (b, m', out) ->
  anchor m' = anchor m /\ root m' = root m
  /\ (b = false <-> m' = m)
  /\ out = (if b then [] else [Announce Plonk None]).
Proof.
  assert (forall p, orPlonk (setSelection (anchor m) p) m = Ok (b, m', out) ->
            anchor m' = anchor m /\ root m' = root m
            /\ (b = false <-> m' = m)
            /\ out = (if b then [] else [Announce Plonk None])) as Hset.
  { intros p. rewrite orPlonk_setSelection. intros [= <- <- <-].
    repeat split; try done.
    - intros Hb%negb_false_iff%bool_decide_eq_true.
      by apply setCursor_anchor_inv.
    - intros Hm%setCursor_anchor_inv. apply negb_false_iff.
      by apply bool_decide_eq_true.
    - by destruct (bool_decide _). }
  assert (forall edge,
            extendToGroupEdge edge m = Ok (b, m', out) ->
            exists p, orPlonk (setSelection (anchor m) p) m = Ok (b, m', out))
    as Hedge.
  { intros edge. unfold extendToGroupEdge, orPlonk. run.
    destruct (at_ m (position m)) as [here|]; [|done]. simpl.
    destruct (edge m here) as [e|]; [|done]. simpl.
    intros H. by exists (offsetOf m e). }
  intros [H|[H|[H|H]]].
  - apply (Hset 0). revert H. unfold extendToMathFieldStart, orPlonk. by run.
  - apply (Hset (lastOffset m)). revert H.
    unfold extendToMathFieldEnd, orPlonk. by run.
  - apply Hedge in H as [p H]. by apply (Hset p).
  - apply Hedge in H as [p H]. by apply (Hset p).
Qed.

(** The theorem inside the denominator of a fraction: both commands
    put the caret after the fraction, at offset 3. *)
Lemma move_to_parent_witness :
  moveAfterParent (caretAt 2 denominatorOnly)
  = Ok (true, caretAt 3 denominatorOnly, [Announce Move (Some 2)])
  /\ moveBeforeParent (caretAt 2 denominatorOnly)
     = Ok (true, caretAt 3 denominatorOnly, []).
Proof.
  destruct (move_to_parent (caretAt 2 denominatorOnly)
              (MkLoc [(below, 1%nat); (body, 1%nat)] (sym mord "x"))
              (MkLoc [(body, 1%nat)]
                 (setBranch (sym genfrac "") below [sentinel; sym mord "x"])))
    as (Ha & Hb & _); [reflexivity|reflexivity|done|].
  split; [exact Ha|exact Hb].
Defined.

(** The theorem on "x, y, z", from after the x. *)
Lemma moveToGroup_edges_witness :
  moveToGroupStart (caretAt 1 xyz) = Ok (true, caretAt 0 xyz, [])
  /\ moveToGroupStart (caretAt 0 xyz)
     = Ok (false, caretAt 0 xyz, [Announce Plonk None])
  /\ moveToGroupEnd (caretAt 1 xyz) = Ok (true, caretAt 3 xyz, []).
Proof.
  destruct (moveToGroup_edges (caretAt 1 xyz) (inBody 1 (sym mord "x")))
    as (f & l & Hf & Hl & _ & Hs & He & Hs2 & _); [reflexivity|].
  injection Hf as <-. injection Hl as <-.
  split; [exact Hs|]. split; [exact Hs2|exact He].
Defined.

(** The theorem on "x, y, z": extending from offset 2 to the start
    of the mathfield changes the selection, and nothing is announced. *)
Lemma extend_to_edge_reports_witness :
  extendToMathFieldStart (caretAt 2 xyz)
  = Ok (true, setCursor 2 0 (caretAt 2 xyz), [])
  /\ anchor (setCursor 2 0 (caretAt 2 xyz)) = anchor (caretAt 2 xyz)
  /\ (true = false <-> setCursor 2 0 (caretAt 2 xyz) = caretAt 2 xyz).
Proof.
  assert (extendToMathFieldStart (caretAt 2 xyz)
          = Ok (true, setCursor 2 0 (caretAt 2 xyz), [])) as H
    by reflexivity.
  split; [exact H|].
  destruct (extend_to_edge_reports (caretAt 2 xyz) true
              (setCursor 2 0 (caretAt 2 xyz)) [] (or_introl H))
    as (Ha & _ & Hb & _).
  split; [exact Ha|exact Hb].
Defined.

(* ================================================================== *)
(** * Part XXI: scripts, vertical moves and leaps                    *)
(* ================================================================== *)

(** ** Script depths *)

(** The two depth loops count the same atoms; once one that carries a
    script was met, they disagree on the kind of the outermost. *)
Lemma scriptNesting_dual m (n : nat) : forall atom result w1 w2,
  let r1 := scriptNesting n m true atom result w1 in
  let r2 := scriptNesting n m false atom result w2 in
  r1.1 = r2.1 /\ result <= r1.1
  /\ ((r1.1 = result /\ r1.2 = w1 /\ r2.2 = w2) \/ r2.2 = negb r1.2).
Proof.
  induction n as [|n IH]; intros atom result w1 w2; cbn zeta.
  - destruct atom as [l|]; simpl; [|split; [done|split; [lia|by left]]].
    destruct (hasEmptyBranch (node l) superscript),
             (hasEmptyBranch (node l) subscript); simpl;
      (split; [done|split; [lia|]]); first [by left | by right].
  - destruct atom as [l|]; simpl; [|split; [done|split; [lia|by left]]].
    destruct (hasEmptyBranch (node l) superscript),
             (hasEmptyBranch (node l) subscript); simpl.
    + apply IH.
    + destruct (IH (parent m l) (result + 1) false true) as (He & Hle & Hc).
      split; [done|]. split; [lia|]. right.
      by destruct Hc as [(_ & -> & ->)|?].
    + destruct (IH (parent m l) (result + 1) true false) as (He & Hle & Hc).
      split; [done|]. split; [lia|]. right.
      by destruct Hc as [(_ & -> & ->)|?].
    + destruct (IH (parent m l) (result + 1) true false) as (He & Hle & Hc).
      split; [done|]. split; [lia|]. right.
      by destruct Hc as [(_ & -> & ->)|?].
Qed.

(** X17.  [superscriptDepth] and [subscriptDepth] are never negative and
    never both positive: the atoms counted are the same, and it is the
    outermost atom that carries a script which decides whose depth they
    are. *)
Theorem script_depths_exclusive m :
  0 <= superscriptDepth m /\ 0 <= subscriptDepth m
  /\ (superscriptDepth m = 0 \/ subscriptDepth m = 0).
Proof.
  unfold superscriptDepth, subscriptDepth, nestingAt.
  pose proof (scriptNesting_dual m
                (from_option (length ∘ path) O (at_ m (position m)))
                (at_ m (position m)) 0 false false) as H.
  cbn zeta in H.
  destruct (scriptNesting _ m true _ 0 false) as [r1 w1].
  destruct (scriptNesting _ m false _ 0 false) as [r2 w2].
  simpl in H. destruct H as (<- & Hle & Hc).
  destruct w1, w2; repeat split; try lia; (by left) || (by right).
Qed.

(** ** Vertical moves that find their branch *)

Section VerticalMoves.

Context (env : Env).

(** The vertical move to the branch [to] of the owner, created when it is
    missing: the caret lands on the last atom of that branch. *)
Lemma moveVertically_lands c from to kind dir m here atom owner xs x :
  let m1 := collapseTo c m in
  at_ m1 (position m1) = Some here ->
  nearestInBranch m1 from (Some here) = Some atom ->
  parent m1 atom = Some owner ->
  let grown := createBranch to (node owner) in
  branch grown to = Some xs -> xs !! pred (length xs) = Some x ->
  let target := MkLoc ((to, pred (length xs)) :: path owner) x in
  exists m',
    moveVertically env c from to kind dir false m
    = Ok (true, m', [Announce kind None])
    /\ root m' = modify (createBranch to) (rev (path owner)) (root m1)
    /\ locate m' (path owner) = Some (MkLoc (path owner) grown)
    /\ at_ m' (position m') = Some target
    /\ anchor m' = position m'
    /\ position m' = offsetOf m' target
    /\ parent m' target = Some (MkLoc (path owner) grown).
Proof.
  intros m1 Hh Hn Hp grown Hg Hx target.
  assert (exists b, walk (root m1) (rev (path owner)) = Some (b, node owner))
    as [b Hw].
  { unfold parent in Hp. destruct (path atom) as [|s q]; [done|].
    apply locate_inv in Hp as [Hq Hw]. by rewrite Hq. }
  set (m2 := updateAtom (createBranch to) owner m1).
  pose proof (locate_updateAtom (createBranch to) owner m1 b Hw) as Ho.
  fold m2 grown in Ho.
  assert (locate m2 ((to, pred (length xs)) :: path owner) = Some target) as Ht.
  { apply locate_inv in Ho as [_ [b2 Hw2]]. simpl in Hw2.
    by apply (locate_cons m2 to _ (path owner) b2 grown _ _ Hw2 Hg). }
  destruct (offsetOf_locate m2 ((to, pred (length xs)) :: path owner) target
              ltac:(done) Ht) as [Hr Ha].
  exists (setCursor (offsetOf m2 target) (offsetOf m2 target) m2).
  split.
  - unfold moveVertically.
    rewrite bind_collapseSelection, bind_getModel. fold m1. rewrite Hh, Hn.
    rewrite bind_liftResult, Hp. cbn [defined].
    erewrite bind_Ok; cycle 1.
    { rewrite bind_modifyModel, bind_getModel. fold m2.
      rewrite bind_liftResult, Ho. cbn [defined node path].
      rewrite bind_liftResult, Hg. cbn [defined].
      rewrite bind_liftResult, Ht. reflexivity. }
    reflexivity.
  - repeat split; done.
Qed.

(** The vertical move that extends the selection. *)
Lemma moveVertically_extends c from to kind dir m here atom owner before :
  let m1 := collapseTo c m in
  at_ m1 (position m1) = Some here ->
  nearestInBranch m1 from (Some here) = Some atom ->
  parent m1 atom = Some owner ->
  leftSibling m1 owner = Some before ->
  moveVertically env c from to kind dir true m
  = Ok (true, setCursor (offsetOf m1 before) (offsetOf m1 owner) m1,
        [Announce kind None]).
Proof.
  intros m1 Hh Hn Hp Hb. unfold moveVertically.
  rewrite bind_collapseSelection, bind_getModel. fold m1. rewrite Hh, Hn.
  rewrite bind_liftResult, Hp. cbn [defined].
  erewrite bind_Ok; cycle 1.
  { rewrite bind_liftResult, Hb. cbn. run. reflexivity. }
  reflexivity.
Qed.

(** X18.  When [moveDownward] runs without extend from a position that
    has an ancestor-or-self in an [above] branch, and the owner of the
    nearest one has no [below] branch, it returns [true], announces the
    move, gives the owner a [below] branch made of its sentinel, and puts
    the caret at the offset of that atom. *)
Theorem moveDownward_creates_branch m here atom owner :
  let m1 := collapseTo forward m in
  at_ m1 (position m1) = Some here ->
  nearestInBranch m1 above (Some here) = Some atom ->
  parent m1 atom = Some owner ->
  branch (node owner) below = None ->
  let grown := createBranch below (node owner) in
  let target := MkLoc ((below, O) :: path owner) (makeFirstAtom (node owner)) in
  exists m',
    moveDownward env false m = Ok (true, m', [Announce MoveDown None])
    /\ root m' = modify (createBranch below) (rev (path owner)) (root m1)
    /\ locate m' (path owner) = Some (MkLoc (path owner) grown)
    /\ branch grown below = Some [makeFirstAtom (node owner)]
    /\ at_ m' (position m') = Some target
    /\ anchor m' = position m'
    /\ position m' = offsetOf m' target.
Proof.
  intros m1 Hh Hn Hp Hb grown target.
  assert (branch grown below = Some [makeFirstAtom (node owner)]) as Hg.
  { unfold grown, createBranch, branch in *. rewrite Hb.
    apply branches_setBranch. }
  destruct (moveVertically_lands forward above below MoveDown downward
              m here atom owner _ _ Hh Hn Hp Hg eq_refl)
    as (m' & H1 & H2 & H3 & H4 & H5 & H6 & _).
  exists m'. repeat split; done.
Qed.

(** X19.  When the branch that a vertical move goes to exists ([above] for
    [moveUpward], [below] for [moveDownward]) and holds an atom, the move
    without extend returns [true], announces itself, leaves the owner as it
    was and puts the caret after the last atom of that branch. *)
Theorem vertical_move_to_existing_branch m here atom owner xs x :
  (let m1 := collapseTo backward m in
   at_ m1 (position m1) = Some here ->
   nearestInBranch m1 below (Some here) = Some atom ->
   parent m1 atom = Some owner ->
   branch (node owner) above = Some xs -> xs !! pred (length xs) = Some x ->
   let target := MkLoc ((above, pred (length xs)) :: path owner) x in
   exists m',
     moveUpward env false m = Ok (true, m', [Announce MoveUp None])
     /\ locate m' (path owner) = Some owner
     /\ at_ m' (position m') = Some target
     /\ anchor m' = position m')
  /\ (let m1 := collapseTo forward m in
      at_ m1 (position m1) = Some here ->
      nearestInBranch m1 above (Some here) = Some atom ->
      parent m1 atom = Some owner ->
      branch (node owner) below = Some xs -> xs !! pred (length xs) = Some x ->
      let target := MkLoc ((below, pred (length xs)) :: path owner) x in
      exists m',
        moveDownward env false m = Ok (true, m', [Announce MoveDown None])
        /\ locate m' (path owner) = Some owner
        /\ at_ m' (position m') = Some target
        /\ anchor m' = position m').
Proof.
  assert (forall c from to kind dir,
    let m1 := collapseTo c m in
    at_ m1 (position m1) = Some here ->
    nearestInBranch m1 from (Some here) = Some atom ->
    parent m1 atom = Some owner ->
    branch (node owner) to = Some xs -> xs !! pred (length xs) = Some x ->
    let target := MkLoc ((to, pred (length xs)) :: path owner) x in
    exists m',
      moveVertically env c from to kind dir false m
      = Ok (true, m', [Announce kind None])
      /\ locate m' (path owner) = Some owner
      /\ at_ m' (position m') = Some target
      /\ anchor m' = position m') as H.
  { intros c from to kind dir m1 Hh Hn Hp Hb Hx target.
    assert (createBranch to (node owner) = node owner) as Hsame.
    { unfold createBranch, branch in *. by rewrite Hb. }
    destruct (moveVertically_lands c from to kind dir m here atom owner xs x
                Hh Hn Hp) as (m' & H1 & _ & H3 & H4 & H5 & _).
    { by rewrite Hsame. }
    { done. }
    exists m'. rewrite Hsame in H3. repeat split; try done.
    rewrite H3. f_equal. unfold parent in Hp.
    destruct (path atom) as [|s q]; [done|].
    apply locate_path in Hp. by destruct owner; simpl in *; subst. }
  split; intros m1; apply H.
Qed.

(** X20.  A vertical move with extend that finds its ancestor selects the
    owner of the branch and nothing else: the selection runs from the offset
    of the left sibling of the owner to the offset of the owner, that is
    over the owner and its descendants. *)
Theorem vertical_move_extends m here atom owner before :
  (let m1 := collapseTo backward m in
   at_ m1 (position m1) = Some here ->
   nearestInBranch m1 below (Some here) = Some atom ->
   parent m1 atom = Some owner ->
   leftSibling m1 owner = Some before ->
   moveUpward env true m
   = Ok (true, setCursor (offsetOf m1 before) (offsetOf m1 owner) m1,
         [Announce MoveUp None])
   /\ offsetOf m1 before
      = offsetOf m1 owner - Z.of_nat (size (node owner)) - 1)
  /\ (let m1 := collapseTo forward m in
      at_ m1 (position m1) = Some here ->
      nearestInBranch m1 above (Some here) = Some atom ->
      parent m1 atom = Some owner ->
      leftSibling m1 owner = Some before ->
      moveDownward env true m
      = Ok (true, setCursor (offsetOf m1 before) (offsetOf m1 owner) m1,
            [Announce MoveDown None])
      /\ offsetOf m1 before
         = offsetOf m1 owner - Z.of_nat (size (node owner)) - 1).
Proof.
  assert (forall m1 : Model,
            parent m1 atom = Some owner -> leftSibling m1 owner = Some before ->
            at_ m1 (offsetOf m1 owner) = Some owner) as Hat.
  { intros m1 Hp Hb. unfold parent in Hp.
    destruct (path atom) as [|s q]; [done|].
    pose proof (locate_path _ _ _ Hp) as Hq.
    apply (at_offsetOf m1 q); [|done].
    unfold leftSibling in Hb. rewrite Hq in Hb. by destruct q. }
  split; intros m1 Hh Hn Hp Hb; pose proof (Hat m1 Hp Hb) as Ho.
  - split; [by eapply moveVertically_extends|].
    by destruct (leftSibling_offset _ _ _ _ Ho Hb) as [-> _].
  - split; [by eapply moveVertically_extends|].
    by destruct (leftSibling_offset _ _ _ _ Ho Hb) as [-> _].
Qed.

End VerticalMoves.

(** The theorem after the x of a fraction that has a numerator only:
    the caret ends at offset 3, in the new denominator. *)
Lemma moveDownward_creates_branch_witness :
  exists m',
    moveDownward defaultHost false (caretAt 2 numeratorOnly)
    = Ok (true, m', [Announce MoveDown None])
    /\ position m' = 3.
Proof.
  destruct (moveDownward_creates_branch defaultHost (caretAt 2 numeratorOnly)
    (MkLoc [(above, 1%nat); (body, 1%nat)] (sym mord "x"))
    (MkLoc [(above, 1%nat); (body, 1%nat)] (sym mord "x"))
    (MkLoc [(body, 1%nat)]
       (setBranch (sym genfrac "") above [sentinel; sym mord "x"]))
    eq_refl eq_refl eq_refl eq_refl) as (m' & H1 & H2 & _ & _ & _ & _ & H7).
  exists m'. split; [exact H1|].
  rewrite H7. unfold offsetOf. rewrite H2. reflexivity.
Defined.

(** The theorem after the y of x over y: moving up puts the caret
    after the x, at offset 2. *)
Lemma vertical_move_to_existing_branch_witness :
  exists m',
    moveUpward defaultHost false (caretAt 4 xOverY)
    = Ok (true, m', [Announce MoveUp None])
    /\ at_ m' (position m')
       = Some (MkLoc [(above, 1%nat); (body, 1%nat)] (sym mord "x")).
Proof.
  destruct (vertical_move_to_existing_branch defaultHost (caretAt 4 xOverY)
    (MkLoc [(below, 1%nat); (body, 1%nat)] (sym mord "y"))
    (MkLoc [(below, 1%nat); (body, 1%nat)] (sym mord "y"))
    (MkLoc [(body, 1%nat)]
       (setBranch (setBranch (sym genfrac "") above [sentinel; sym mord "x"])
                  below [sentinel; sym mord "y"]))
    [sentinel; sym mord "x"] (sym mord "x")) as [Hup _].
  destruct (Hup eq_refl eq_refl eq_refl eq_refl eq_refl)
    as (m' & H1 & _ & H3 & _).
  exists m'. split; [exact H1|exact H3].
Defined.

(** The theorem after the y of x over y: extending upward selects
    the fraction, from offset 0 to offset 5. *)
Lemma vertical_move_extends_witness :
  moveUpward defaultHost true (caretAt 4 xOverY)
  = Ok (true, setCursor 0 5 (caretAt 4 xOverY), [Announce MoveUp None]).
Proof.
  destruct (vertical_move_extends defaultHost (caretAt 4 xOverY)
    (MkLoc [(below, 1%nat); (body, 1%nat)] (sym mord "y"))
    (MkLoc [(below, 1%nat); (body, 1%nat)] (sym mord "y"))
    (MkLoc [(body, 1%nat)]
       (setBranch (setBranch (sym genfrac "") above [sentinel; sym mord "x"])
                  below [sentinel; sym mord "y"]))
    (inBody 0 sentinel)) as [Hup _].
  destruct (Hup eq_refl eq_refl eq_refl eq_refl) as [H _]. exact H.
Defined.

(** ** The leap to a candidate, and the focus hand-over *)

(** The first element that passes a filter, [k] places into the list. *)
Lemma filter_first {A} (P : A -> bool) (l : list A) (s k : nat) x :
  (s <= k)%nat -> l !! k = Some x -> P x = true ->
  (forall j y, (s <= j < k)%nat -> l !! j = Some y -> P y = false) ->
  exists rest, List.filter P (drop s l) = x :: rest.
Proof.
  revert l s. induction k as [|k IH]; intros l s Hs Hk Hx Hno.
  - assert (s = O) as -> by lia. destruct l as [|y l]; [done|].
    injection Hk as ->. simpl. rewrite Hx. by eexists.
  - destruct l as [|y l]; [done|]. simpl in Hk. destruct s as [|s].
    + simpl. rewrite (Hno O y ltac:(lia) eq_refl).
      apply (IH l O); [lia|done|done|].
      intros j z Hj Hz. apply (Hno (S j) z); [lia|done].
    + simpl. apply (IH l s); [lia|done|done|].
      intros j z Hj Hz. apply (Hno (S j) z); [lia|done].
Qed.

Lemma indexOf_range e l : -1 <= indexOf e l < Z.of_nat (length l).
Proof.
  induction l as [|x l IH]; simpl; [lia|].
  case_decide; [lia|]. case_decide; lia.
Qed.

Section LeapTargets.

Context (env : Env).

(** X21.  [leap(forward)] from an anchor that is not on a placeholder goes
    to the nearest candidate after the caret: when the atom at offset [k] is
    a candidate and no atom between the caret and [k] is one, the leap
    returns [true] and announces the move; a placeholder is selected
    ([(k - 1, k)]), the only atom of a branch takes the caret. *)
Theorem leap_selects_nearest depth callHooks m a (k : Z) target :
  at_ m (anchor m) = Some a -> type (node a) <> placeholder ->
  0 <= position m + 1 <= k ->
  at_ m k = Some target -> leapCandidate m target = true ->
  (forall j l, position m + 1 <= j < k -> at_ m j = Some l ->
     leapCandidate m l = false) ->
  leap env depth forward callHooks m
  = Ok (true,
        if decide (type (node target) = placeholder)
        then setCursor (k - 1) k m else setCursor k k m,
        [Announce Move (Some (position m))]).
Proof.
  intros Ha Hna Hk Ht Hc Hno.
  assert (exists rest, leapCandidates m forward = target :: rest) as [rest Hl].
  { unfold leapCandidates, getAllAtoms.
    rewrite (decide_True (P := forward = forward)) by done.
    rewrite (decide_False (P := forward = backward)) by done.
    apply (filter_first _ _ _ (Z.to_nat k)); [lia| |done|].
    - unfold at_ in Ht. by rewrite decide_False in Ht by lia.
    - intros j y Hj Hy. apply (Hno (Z.of_nat j)); [lia|].
      unfold at_. rewrite decide_False by lia. by rewrite Nat2Z.id. }
  unfold leap.
  erewrite bind_Ok; cycle 1.
  { unfold leapStart. rewrite bind_getModel, bind_liftResult, Ha.
    cbn [defined]. rewrite decide_False by done. reflexivity. }
  rewrite bind_getModel, Hl. rewrite (offsetOf_at _ _ _ Ht).
  case_decide; by run.
Qed.

Lemma nextIndex_range tabbable active dist :
  tabbable <> [] -> dist = 1 \/ dist = -1 ->
  0 <= nextIndex tabbable active dist < Z.of_nat (length tabbable).
Proof.
  intros Hne Hd. unfold nextIndex.
  pose proof (indexOf_range active tabbable).
  destruct tabbable as [|t ts]; [done|]. simpl length in *.
  repeat case_decide; lia.
Qed.

Lemma tabToNext_returns dist m :
  dist = 1 \/ dist = -1 -> tabbableElements env <> [] ->
  exists b out, tabToNext env dist m = Ok (b, m, out).
Proof.
  intros Hd Hne. unfold tabToNext.
  destruct (activeElement env) as [active|]; [|run; by eexists _, _].
  case_decide; [run; by eexists _, _|].
  pose proof (nextIndex_range (tabbableElements env) active dist Hne Hd) as Hi.
  cbv zeta. rewrite (decide_False (P := nextIndex _ _ _ < 0)) by lia.
  destruct (lookup_lt_is_Some_2 (tabbableElements env)
              (Z.to_nat (nextIndex (tabbableElements env) active dist))
              ltac:(lia)) as [e He].
  rewrite He. run. case_decide; by eexists _, _.
Qed.

Lemma tabToNext_throws dist m :
  tabbableElements env = [] -> is_Some (activeElement env) ->
  tabToNext env dist m = TypeError.
Proof.
  intros He [active Ha]. unfold tabToNext. rewrite Ha, He. simpl.
  rewrite bind_liftResult.
  by destruct (decide (nextIndex [] active dist < 0)).
Qed.

(** X22.  When a [leap] finds no candidate and the host leaves the default
    handling to it ([tabOut] returned [true]), handing over the focus never
    throws and never changes the model as long as there is a focusable
    element; with none, and an element that has the focus, it throws: the
    element to focus is [undefined]. *)
Theorem leap_focus_handover depth dir m m1 out1 :
  dir = forward \/ dir = backward ->
  leapStart env depth dir m = Ok (tt, m1, out1) ->
  leapCandidates m1 dir = [] ->
  consultTabOut env m1 dir = true ->
  (tabbableElements env <> [] ->
   exists b out, leap env depth dir true m = Ok (b, m1, out))
  /\ (tabbableElements env = [] -> is_Some (activeElement env) ->
      leap env depth dir true m = TypeError).
Proof.
  intros Hd Hs Hc Ht. rewrite (leap_eq env _ _ _ _ _ _ Hs Hc), Ht. simpl.
  split.
  - intros Hne.
    destruct (tabToNext_returns (if decide (dir = forward) then 1 else -1) m1)
      as (b & out & ->); [case_decide; tauto|done|].
    by eexists _, _.
  - intros He Ha. by rewrite tabToNext_throws.
Qed.

End LeapTargets.

(** The theorem on "x, placeholder, y", from offset 0: the
    placeholder at offset 2 is selected. *)
Lemma leap_selects_nearest_witness :
  leap defaultHost 1 forward true (caretAt 0 withPlaceholder)
  = Ok (true, setCursor 1 2 (caretAt 0 withPlaceholder),
        [Announce Move (Some 0)]).
Proof.
  apply (leap_selects_nearest defaultHost 1 true (caretAt 0 withPlaceholder)
           (inBody 0 sentinel) 2 (inBody 2 (sym placeholder "")));
    try evaluated.
  intros j l Hj. change (position _) with 0 in Hj.
  assert (j = 1) as -> by lia. intros [= <-]. vm_compute. reflexivity.
Defined.

(** The theorem at the end of "x, y, z", among three focusable
    elements. *)
Lemma leap_focus_handover_witness :
  exists b out,
    leap defaultHost 1 forward true (caretAt 3 xyz)
    = Ok (b, caretAt 3 xyz, out).
Proof.
  destruct (leap_focus_handover defaultHost 1 forward (caretAt 3 xyz)
              (caretAt 3 xyz) []) as [H _];
    [by left|reflexivity|reflexivity|reflexivity|].
  apply H. discriminate.
Defined.

(** ** To the opposite branch *)

Section Opposite.

Context (env : Env).

(** X23.  With the caret in an [above], [below], [superscript] or
    [subscript] branch, [moveToOpposite] selects the whole opposite branch
    of the owner, which it creates when missing; it announces nothing, and
    returns whether the selection changed. *)
Theorem moveToOpposite_selects_branch m cursor owner br br' xs first_ last_ :
  at_ m (position m) = Some cursor ->
  parent m cursor = Some owner -> path owner <> [] ->
  treeBranch cursor = Some br -> opposite br = Some br' ->
  let grown := createBranch br' (node owner) in
  let m' := updateAtom (createBranch br') owner m in
  branch grown br' = Some xs ->
  xs !! O = Some first_ -> xs !! pred (length xs) = Some last_ ->
  let s := offsetOf m' (MkLoc ((br', O) :: path owner) first_) in
  let e := offsetOf m' (MkLoc ((br', pred (length xs)) :: path owner) last_) in
  moveToOpposite env m
  = Ok (negb (bool_decide (anchor m = s /\ position m = e)),
        setCursor s e m', [])
  /\ locate m' (path owner) = Some (MkLoc (path owner) grown)
  /\ at_ m' s = Some (MkLoc ((br', O) :: path owner) first_)
  /\ at_ m' e = Some (MkLoc ((br', pred (length xs)) :: path owner) last_)
  /\ s <= e.
Proof.
  intros Hc Hp Hne Hb Hopp grown m' Hg Hf Hl s e.
  assert (exists b, walk (root m) (rev (path owner)) = Some (b, node owner))
    as [b Hw].
  { unfold parent in Hp. destruct (path cursor) as [|st q]; [done|].
    apply locate_inv in Hp as [Hq Hw]. by rewrite Hq. }
  pose proof (locate_updateAtom (createBranch br') owner m b Hw) as Ho.
  fold m' grown in Ho.
  pose proof Ho as [_ [b2 Hw2]]%locate_inv. simpl in Hw2.
  pose proof (locate_cons m' br' O (path owner) b2 grown _ _ Hw2 Hg Hf) as Hlf.
  pose proof (locate_cons m' br' _ (path owner) b2 grown _ _ Hw2 Hg Hl) as Hll.
  destruct (offsetOf_locate m' ((br', O) :: path owner) _ ltac:(done) Hlf)
    as [_ Haf].
  destruct (offsetOf_locate m' ((br', pred (length xs)) :: path owner) _
              ltac:(done) Hll) as [_ Hal].
  pose proof (at_offsetOf m' (path owner) _ Hne Ho) as Hao.
  split; [|split; [done|split; [done|split; [done|]]]].
  - unfold moveToOpposite.
    rewrite bind_getModel, bind_liftResult, Hc. cbn [defined]. rewrite Hp, Hb.
    cbn [mbind option_bind]. rewrite Hopp.
    rewrite bind_modifyModel, bind_getModel. fold m'.
    assert (getBranchRange m' (offsetOf m' owner) br' = Ok (s, e)) as Hr.
    { unfold getBranchRange.
      change (offsetOf m' owner)
        with (offsetOf m' (MkLoc (path owner) grown)).
      rewrite Hao. cbn [defined mbind Result_bind node path].
      unfold branch in Hg. rewrite Hg. cbn [defined mbind Result_bind].
      rewrite Hlf, Hll. reflexivity. }
    rewrite bind_liftResult, Hr. reflexivity.
  - destruct (sibling_span m' _ _ Haf)
      as (f & l & Hfs & Hls & Hr & _ & Hal' & _).
    unfold lastSibling in Hls. simpl in Hls. rewrite Ho in Hls. simpl in Hls.
    unfold branch in Hg. rewrite Hg in Hls. simpl in Hls.
    rewrite Hll in Hls. injection Hls as <-. fold s e in Hr. lia.
Qed.

End Opposite.

(** The theorem after the x of x over y: the denominator is
    selected, from offset 3 to offset 4. *)
Lemma moveToOpposite_selects_branch_witness :
  exists m',
    moveToOpposite defaultHost (caretAt 2 xOverY) = Ok (true, m', [])
    /\ anchor m' = 3 /\ position m' = 4.
Proof.
  destruct (moveToOpposite_selects_branch defaultHost (caretAt 2 xOverY)
    (MkLoc [(above, 1%nat); (body, 1%nat)] (sym mord "x"))
    (MkLoc [(body, 1%nat)]
       (setBranch (setBranch (sym genfrac "") above [sentinel; sym mord "x"])
                  below [sentinel; sym mord "y"]))
    above below [sentinel; sym mord "y"] sentinel (sym mord "y")
    eq_refl eq_refl ltac:(done) eq_refl eq_refl eq_refl eq_refl eq_refl)
    as (H & _).
  eexists. split; [exact H|]. split; reflexivity.
Defined.

(** ** Adding a script *)

Lemma sizeBefore_setBranch names a br ys :
  sizeBefore names (setBranch a br ys) br = sizeBefore names a br.
Proof.
  induction names as [|b names IH]; [done|]. cbn [sizeBefore].
  case_decide as Hb; [done|]. rewrite IH. f_equal.
  unfold branchSize. by rewrite branches_setBranch_ne.
Qed.

(** Replacing the atom at a path leaves the slots before it alone. *)
Lemma walk_modify_eq f p : forall a b x,
  walk a p = Some (b, x) -> walk (modify f p a) p = Some (b, f x).
Proof.
  induction p as [|[br i] q IH]; intros a b x.
  - by intros [= <- <-].
  - cbn [walk modify].
    destruct (branches a br) as [xs|] eqn:Eb; [|done]. simpl.
    destruct (xs !! i) as [x0|] eqn:Ei; [|done]. simpl.
    destruct (walk x0 q) as [[b0 y]|] eqn:Ew; [|done]. simpl.
    intros [= <- <-]. cbn [walk]. rewrite (decide_True (P := br = br)) by done.
    cbn [mbind option_bind].
    rewrite list_lookup_insert_eq by (by eapply lookup_lt_Some).
    cbn [mbind option_bind]. rewrite (IH _ _ _ Ew). cbn [mbind option_bind].
    by rewrite sizeBefore_setBranch, take_insert_ge.
Qed.

Lemma branchSize_no_branches x b :
  (forall b, branches x b = None) -> branchSize x b = O.
Proof. intros H. unfold branchSize. by rewrite H. Qed.

Lemma size_no_branches x : (forall b, branches x b = None) -> size x = O.
Proof.
  intros H. rewrite size_unfold.
  induction NAMED_BRANCHES as [|b names IH]; [done|].
  change (branchSize x b + sum_list (map (branchSize x) names) = 0)%nat.
  by rewrite branchSize_no_branches, IH.
Qed.

Lemma sizeBefore_no_branches names x b :
  (forall b, branches x b = None) -> sizeBefore names x b = O.
Proof.
  intros H. induction names as [|c names IH]; [done|]. cbn [sizeBefore].
  case_decide; [done|]. by rewrite branchSize_no_branches, IH.
Qed.

(** An atom whose only branch holds [ys]. *)
Lemma size_one_branch x br ys :
  (forall b, branches x b = None) -> size (setBranch x br ys) = run_size ys.
Proof.
  intros H. rewrite size_unfold.
  pose proof (elem_of_NAMED_BRANCHES br) as Hin.
  pose proof NoDup_NAMED_BRANCHES as Hnd.
  induction NAMED_BRANCHES as [|b names IH]; [by apply elem_of_nil in Hin|].
  change (branchSize (setBranch x br ys) b
          + sum_list (map (branchSize (setBranch x br ys)) names)
          = run_size ys)%nat.
  apply NoDup_cons in Hnd as [Hnotin Hnd].
  destruct (decide (b = br)) as [->|Hne].
  - unfold branchSize at 1. rewrite branches_setBranch.
    assert (sum_list (map (branchSize (setBranch x br ys)) names) = O) as ->;
      [|lia].
    clear IH Hin Hnd. induction names as [|c names IH]; [done|].
    apply not_elem_of_cons in Hnotin as [Hc Hn].
    change (branchSize (setBranch x br ys) c
            + sum_list (map (branchSize (setBranch x br ys)) names) = 0)%nat.
    unfold branchSize at 1. rewrite branches_setBranch_ne by done.
    rewrite H. by rewrite IH.
  - unfold branchSize at 1. rewrite branches_setBranch_ne by done. rewrite H.
    apply elem_of_cons in Hin as [->|Hin]; [done|]. by apply IH.
Qed.

Section Scripts2.

Context (env : Env).

(** The script command on an atom that cannot carry scripts itself and has
    no script atom after it: a script atom is added after the atom, it
    gets the branch, and the caret goes into the branch. *)
Lemma moveToScript_fresh name depthOf bound newAtom m target :
  let m1 := collapseTo (defaultDirection env) m in
  let p := position m1 in
  depthOf m1 < bound ->
  at_ m1 p = Some target ->
  limits (node target) <> Some limits_ -> limits (node target) <> Some auto ->
  typeOf (at_ m1 (p + 1)) <> Some msubsup ->
  (forall b, branches (newAtom target) b = None) ->
  let script := createBranch name (newAtom target) in
  exists m' q,
    moveToScript env name depthOf bound newAtom m = Ok (true, m', [])
    /\ anchor m' = p + 1 /\ position m' = p + 1
    /\ root m' = modify (createBranch name) (rev q)
                   (root (addChildAfter (newAtom target) target m1))
    /\ at_ m' (p + 1)
       = Some (MkLoc ((name, O) :: q) (makeFirstAtom (newAtom target)))
    /\ at_ m' (p + 2) = Some (MkLoc q script)
    /\ branch script name = Some [makeFirstAtom (newAtom target)].
Proof.
  intros m1 p Hd Ht Hl1 Hl2 Hnext Hnew script.
  set (x := newAtom target) in *.
  destruct (at_path_cons _ _ _ Ht)
    as (br & i & q0 & b & o & xs & Hpath & Hw & Hb & Hi).
  pose proof (offsetOf_at _ _ _ Ht) as Hoff.
  pose proof Ht as [_ Hlt]%at_slot. rewrite Hpath in Hlt.
  apply locate_cons_inv in Hlt as (b' & o' & xs' & Hw' & Hb' & _ & _ & Hs).
  rewrite Hw in Hw'. injection Hw' as <- <-.
  rewrite Hb in Hb'. injection Hb' as <-.
  rewrite <- Hpath in Hs. rewrite (offsetOf_slot _ _ _ Hs) in Hoff.
  assert (parent m1 target = Some (MkLoc q0 o)) as Hpar.
  { unfold parent. rewrite Hpath. by apply (locate_walk _ _ b). }
  (* the tree once the script atom is in *)
  set (m2 := addChildAfter x target m1).
  assert (root m2 = modify (insertAfter x (br, i)) (rev q0) (root m1)) as Hr2.
  { unfold m2, addChildAfter. by rewrite Hpath. }
  assert (position m2 = p) as Hp2.
  { unfold m2, addChildAfter. by rewrite Hpath. }
  set (xs2 := take (S i) xs ++ x :: drop (S i) xs).
  set (o2 := insertAfter x (br, i) o).
  assert (branches o2 br = Some xs2) as Hb2.
  { unfold o2, insertAfter. simpl. rewrite Hb. apply branches_setBranch. }
  assert (walk (root m2) (rev q0) = Some (b, o2)) as Hw2.
  { rewrite Hr2. by apply walk_modify_eq. }
  pose proof (lookup_lt_Some _ _ _ Hi) as Hlen.
  assert (length (take (S i) xs) = S i) as Htl by (rewrite length_take; lia).
  assert (xs2 !! S i = Some x) as Hi2.
  { unfold xs2. rewrite lookup_app_r by lia. by rewrite Htl, Nat.sub_diag. }
  assert (take (S i) xs2 = take (S i) xs) as Htake.
  { unfold xs2. by rewrite take_app_length'. }
  assert (sizeBefore NAMED_BRANCHES o2 br = sizeBefore NAMED_BRANCHES o br)
    as Hsb.
  { unfold o2, insertAfter. simpl. rewrite Hb. apply sizeBefore_setBranch. }
  set (t2 := MkLoc ((br, S i) :: q0) x).
  pose proof (locate_cons m2 br (S i) q0 b o2 xs2 x Hw2 Hb2 Hi2) as Hl2'.
  fold t2 in Hl2'.
  pose proof (size_no_branches x Hnew) as Hsx.
  assert (offsetOf m2 t2 = p + 1) as Ho2.
  { pose proof Hl2' as (b3 & o3 & xs3 & Hw3 & Hb3 & _ & _ & Hs3)%locate_cons_inv.
    rewrite Hw2 in Hw3. injection Hw3 as <- <-.
    rewrite Hb2 in Hb3. injection Hb3 as <-.
    rewrite (offsetOf_slot m2 t2 _ Hs3). simpl node.
    rewrite Hsb, Htake, (run_size_take_S _ _ _ Hi), Hsx. lia. }
  pose proof (at_offsetOf m2 ((br, S i) :: q0) t2 ltac:(done) Hl2') as Ha2.
  rewrite Ho2 in Ha2.
  (* the tree once the script atom has its branch *)
  set (m3 := updateAtom (createBranch name) t2 m2).
  assert (walk (root m2) (rev (path t2))
          = Some ((b + (sizeBefore NAMED_BRANCHES o2 br
                        + run_size (take (S i) xs2) + 0))%nat, x)) as Hwt.
  { simpl. rewrite walk_app, Hw2. simpl. rewrite Hb2. simpl. by rewrite Hi2. }
  pose proof (locate_updateAtom (createBranch name) t2 m2 _ Hwt) as Hl3.
  fold m3 script in Hl3. simpl path in Hl3. simpl node in Hl3.
  assert (walk (root m3) (rev ((br, S i) :: q0))
          = Some ((b + (sizeBefore NAMED_BRANCHES o2 br
                        + run_size (take (S i) xs2) + 0))%nat, script))
    as Hw3 by (by apply (walk_modify_eq (createBranch name)) in Hwt).
  assert (branch script name = Some [makeFirstAtom x]) as Hbs.
  { unfold script, createBranch, branch. rewrite Hnew.
    apply branches_setBranch. }
  set (fst_ := MkLoc ((name, O) :: (br, S i) :: q0) (makeFirstAtom x)).
  assert (locate m3 ((name, O) :: (br, S i) :: q0) = Some fst_) as Hlf.
  { by apply (locate_cons m3 name O _ _ script _ _ Hw3 Hbs). }
  assert (size (makeFirstAtom x) = O) as Hsf by (by apply size_no_branches).
  assert (offsetOf m3 fst_ = p + 1) as Hof.
  { pose proof Hlf as (b4 & o4 & xs4 & Hw4 & Hb4 & _ & _ & Hs4)%locate_cons_inv.
    rewrite Hw3 in Hw4. injection Hw4 as <- <-.
    unfold branch in Hbs. rewrite Hbs in Hb4. injection Hb4 as <-.
    rewrite (offsetOf_slot m3 fst_ _ Hs4). simpl node. rewrite Hsf.
    unfold script, createBranch. rewrite Hnew.
    rewrite sizeBefore_setBranch.
    rewrite (sizeBefore_no_branches _ x) by exact Hnew.
    simpl take. change (run_size []) with O.
    rewrite Hsb, Htake, (run_size_take_S _ _ _ Hi). lia. }
  pose proof (at_offsetOf m3 ((name, O) :: (br, S i) :: q0) fst_
                ltac:(done) Hlf) as Haf.
  rewrite Hof in Haf.
  assert (offsetOf m3 (MkLoc ((br, S i) :: q0) script) = p + 2) as Hos.
  { unfold offsetOf, slot. simpl path. rewrite Hw3. simpl.
    unfold script at 1, createBranch. rewrite Hnew.
    rewrite (size_one_branch x) by exact Hnew. rewrite run_size_cons, Hsf.
    change (run_size []) with O.
    rewrite Hsb, Htake, (run_size_take_S _ _ _ Hi). lia. }
  assert (at_ m3 (p + 2) = Some (MkLoc ((br, S i) :: q0) script)) as Has.
  { rewrite <- Hos. apply (at_offsetOf m3 ((br, S i) :: q0)); [done|].
    exact Hl3. }
  exists (setCursor (p + 1) (p + 1) m3), ((br, S i) :: q0).
  split; [|repeat split; done].
  unfold moveToScript.
  rewrite bind_collapseSelection, bind_getModel. fold m1.
  rewrite decide_False by lia.
  fold p. rewrite bind_liftResult, Ht. cbn [defined].
  erewrite bind_Ok; cycle 1.
  { rewrite decide_True by done.
    erewrite bind_Ok; cycle 1.
    { rewrite decide_True by done.
      rewrite bind_liftResult, Hpar. cbn [defined].
      unfold modifyModel. reflexivity. }
    fold x m2. rewrite bind_getModel, Hp2, Ha2. reflexivity. }
  cbv beta iota. rewrite bind_modifyModel. fold m3.
  rewrite bind_getModel. rewrite bind_liftResult.
  change (locate m3 ((name, O) :: path t2))
    with (locate m3 ((name, O) :: (br, S i) :: q0)).
  rewrite Hlf. cbn [offsetOf_ defined fmap Result_fmap].
  rewrite Hof.
  assert (getSiblingsRange m3 (p + 1) = Ok (p + 1, p + 1)) as Hrange.
  { unfold getSiblingsRange. rewrite Haf. cbn [defined mbind Result_bind].
    unfold firstSibling, lastSibling, fst_ at 1 2. cbn [path].
    fold fst_ in Hlf. rewrite Hlf, Hl3. cbn [offsetOf_ defined fmap Result_fmap mbind Result_bind option_bind node].
    fold script. unfold branch in Hbs. rewrite Hbs.
    cbn [length pred mbind option_bind].
    rewrite Hlf. cbn [offsetOf_ defined fmap Result_fmap mbind Result_bind].
    by rewrite Hof. }
  rewrite bind_liftResult, Hrange. by run.
Qed.

(** X24.  [moveToSuperscript] and [moveToSubscript], below the nesting
    limit, from a caret after an atom that carries no limits and that no
    script atom follows: a script atom ([msubsup]) is added right after the
    atom, it gets the branch, made of its sentinel, and the caret goes into
    the branch, at the offset after the position; the script atom sits at
    the offset after that.  The commands return [true] and announce
    nothing. *)
Theorem script_commands_add_script m target :
  let m1 := collapseTo (defaultDirection env) m in
  let p := position m1 in
  at_ m1 p = Some target ->
  limits (node target) <> Some limits_ -> limits (node target) <> Some auto ->
  typeOf (at_ m1 (p + 1)) <> Some msubsup ->
  (superscriptDepth m1 < (scriptDepth env).2 ->
   exists m' q script,
     moveToSuperscript env m = Ok (true, m', [])
     /\ anchor m' = p + 1 /\ position m' = p + 1
     /\ at_ m' (p + 2) = Some (MkLoc q script)
     /\ type script = msubsup
     /\ class script = SubsupAtom (type (node target))
     /\ (exists sentinel_,
           branch script superscript = Some [sentinel_]
           /\ type sentinel_ = first
           /\ at_ m' (p + 1) = Some (MkLoc ((superscript, O) :: q) sentinel_)))
  /\ (subscriptDepth m1 < (scriptDepth env).1 ->
      exists m' q script,
        moveToSubscript env m = Ok (true, m', [])
        /\ anchor m' = p + 1 /\ position m' = p + 1
        /\ at_ m' (p + 2) = Some (MkLoc q script)
        /\ type script = msubsup
        /\ value script = zeroWidthSpace
        /\ (exists sentinel_,
              branch script subscript = Some [sentinel_]
              /\ type sentinel_ = first
              /\ at_ m' (p + 1) = Some (MkLoc ((subscript, O) :: q) sentinel_))).
Proof.
  intros m1 p Ht Hl1 Hl2 Hnext. split; intros Hd.
  - destruct (moveToScript_fresh superscript superscriptDepth
                (scriptDepth env).2
                (fun target =>
                   MkAtom msubsup math "" (SubsupAtom (type (node target)))
                          false false None (fun _ => None))
                m target Hd Ht Hl1 Hl2 Hnext ltac:(done))
      as (m' & q & H1 & H2 & H3 & _ & H5 & H6 & H7).
    eexists m', q, _. repeat split; try done. by eexists.
  - destruct (moveToScript_fresh subscript subscriptDepth
                (scriptDepth env).1
                (fun target =>
                   leaf msubsup (mode (node target)) zeroWidthSpace PlainAtom)
                m target Hd Ht Hl1 Hl2 Hnext ltac:(done))
      as (m' & q & H1 & H2 & H3 & _ & H5 & H6 & H7).
    eexists m', q, _. repeat split; try done. by eexists.
Qed.

(** X25.  A forward or backward [move] without extend never throws, and
    one call of [move] by itself is all it needs, provided that removing a
    pending suggestion leaves a caret a caret. *)
Theorem move_never_throws depth dir m :
  dir = forward \/ dir = backward ->
  (forall m', collapsed m' = true ->
     collapsed (deleteCommandSuggestion env m') = true) ->
  exists b m' out, move env (S depth) dir false m = Ok (b, m', out).
Proof.
  intros Hd Hc. apply move_returns_tame; [done|].
  intros m' Hm. by apply collapsed_not_placeholder, Hc.
Qed.

End Scripts2.

(** The theorem after the x of "x, y, z", under a host that allows
    five levels of scripts. *)
Lemma script_commands_add_script_witness :
  exists m', moveToSuperscript handlingHost (caretAt 1 xyz) = Ok (true, m', [])
             /\ anchor m' = 2 /\ position m' = 2.
Proof.
  destruct (script_commands_add_script handlingHost (caretAt 1 xyz)
              (inBody 1 (sym mord "x")))
    as [Hsup _]; [reflexivity|discriminate|discriminate|
                  vm_compute; discriminate|].
  destruct Hsup as (m' & q & s & H1 & H2 & H3 & _);
    [vm_compute; reflexivity|].
  exists m'. split; [exact H1|]. split; [exact H2|exact H3].
Defined.

(** The theorem on "x, y, z", under a host without pending
    suggestion. *)
Lemma move_never_throws_witness :
  exists b m' out,
    move defaultHost 1 forward false (caretAt 0 xyz) = Ok (b, m', out).
Proof.
  apply (move_never_throws defaultHost 0 forward (caretAt 0 xyz));
    [by left|]. intros m' H. exact H.
Defined.

(* ================================================================== *)
(** * Part XXII: accepting a suggestion                              *)
(* ================================================================== *)

#[local] Transparent NAMED_BRANCHES.

(** The atoms of the root, when the root has a body and nothing above it. *)
Section RootBody.

Context (m : Model) (L : list Atom).
Hypothesis no_above : branches (root m) above = None.
Hypothesis the_body : branches (root m) body = Some L.

Lemma locate_body i :
  locate m [(body, i)] = MkLoc [(body, i)] <$> L !! i.
Proof.
  unfold locate, lookupPath. simpl. rewrite the_body. simpl.
  by destruct (L !! i).
Qed.

Lemma offsetOf_body i x y :
  L !! i = Some x ->
  offsetOf m (MkLoc [(body, i)] y)
  = Z.of_nat (run_size (take i L) + size x).
Proof.
  intros H. unfold offsetOf, slot. simpl. rewrite the_body. simpl.
  rewrite H. simpl. unfold branchSize. rewrite no_above. f_equal. lia.
Qed.

Lemma at_body i x :
  L !! i = Some x ->
  at_ m (Z.of_nat (run_size (take i L) + size x)) = Some (MkLoc [(body, i)] x).
Proof.
  intros H. rewrite <- (offsetOf_body i x x H).
  apply (at_offsetOf _ [(body, i)]); [done|]. by rewrite locate_body, H.
Qed.

Lemma clearSuggestion_body i x y :
  L !! i = Some x ->
  let m' := clearSuggestion (MkLoc [(body, i)] y) m in
  branches (root m') above = None
  /\ branches (root m') body = Some (<[i := accepted x]> L)
  /\ position m' = position m /\ anchor m' = anchor m.
Proof.
  intros H. unfold clearSuggestion, updateAtom. simpl.
  rewrite the_body, H. simpl. by rewrite no_above.
Qed.

End RootBody.

#[local] Opaque NAMED_BRANCHES.

Lemma size_accepted a : size (accepted a) = size a.
Proof. by destruct a. Qed.

Lemma acceptSuggestion_run rest : forall cs fuel m pre offset,
  branches (root m) above = None ->
  branches (root m) body = Some (pre ++ cs ++ rest) ->
  (length cs <= fuel)%nat ->
  Forall (fun c => isCommandAtom (MkLoc [] c) = true /\ size c = O) cs ->
  from_option (fun a => isCommandAtom (MkLoc [] a)) false (head rest) = false ->
  exists m',
    acceptSuggestion fuel m (locate m [(body, length pre)]) offset
    = Ok (m',
          if cs is [] then offset
          else Z.of_nat (run_size pre + length cs) - 1,
          (fuel - length cs)%nat)
    /\ branches (root m') above = None
    /\ branches (root m') body = Some (pre ++ map accepted cs ++ rest)
    /\ position m' = position m /\ anchor m' = anchor m.
Proof.
  induction cs as [|c cs IH]; intros fuel m pre offset Ha Hb Hf Hall Hrest.
  - exists m. simpl in *. rewrite Nat.sub_0_r.
    rewrite (locate_body m _ Hb).
    rewrite lookup_app_r by lia. rewrite Nat.sub_diag.
    destruct rest as [|r rest]; simpl in *.
    + by destruct fuel.
    + unfold isCommandAtom in *. simpl in *.
      destruct fuel; simpl; unfold isCommandAtom; simpl;
        by destruct (class r).
  - apply Forall_cons in Hall as [[Hc Hs] Hall].
    destruct fuel as [|fuel]; [simpl in Hf; lia|].
    assert ((pre ++ (c :: cs) ++ rest) !! length pre = Some c) as Hi.
    { rewrite lookup_app_r by lia. by rewrite Nat.sub_diag. }
    rewrite (locate_body m _ Hb), Hi. simpl fmap.
    cbn [acceptSuggestion].
    replace (isCommandAtom (MkLoc [(body, length pre)] c)) with true
      by (symmetry; exact Hc).
    destruct (clearSuggestion_body m _ Ha Hb (length pre) c c Hi)
      as (Ha' & Hb' & Hp' & Hn').
    set (m1 := clearSuggestion _ m) in *.
    assert (<[length pre := accepted c]> (pre ++ (c :: cs) ++ rest)
            = (pre ++ [accepted c]) ++ cs ++ rest) as HL.
    { rewrite insert_app_r_alt by lia. rewrite Nat.sub_diag. simpl.
      by rewrite <- app_assoc. }
    rewrite HL in Hb'.
    assert (rightSibling m1 (MkLoc [(body, length pre)] c)
            = locate m1 [(body, length (pre ++ [accepted c]))]) as ->.
    { unfold rightSibling. simpl. rewrite length_app. simpl.
      by replace (length pre + 1)%nat with (S (length pre)) by lia. }
    destruct (IH fuel m1 (pre ++ [accepted c])
                (offsetOf m1 (MkLoc [(body, length pre)] c)) Ha' Hb')
      as (m' & Hrun & Ha2 & Hb2 & Hp2 & Hn2); [simpl in Hf; lia|done|done|].
    exists m'. rewrite Hrun. split; [|split; [done|split; [|split]]].
    + assert (offsetOf m1 (MkLoc [(body, length pre)] c)
              = Z.of_nat (run_size pre)) as Ho.
      { rewrite (offsetOf_body m1 _ Ha' Hb' (length pre) (accepted c)).
        2:{ rewrite lookup_app_l by (rewrite length_app; simpl; lia).
            rewrite lookup_app_r by lia. by rewrite Nat.sub_diag. }
        rewrite take_app_le by (rewrite length_app; simpl; lia).
        rewrite take_app_length' by done.
        rewrite size_accepted, Hs. f_equal. lia. }
      rewrite Ho, run_size_app.
      change (run_size [accepted c]) with (S (size (accepted c)) + 0)%nat.
      rewrite size_accepted, Hs. simpl length.
      do 2 f_equal. destruct cs; simpl; f_equal; lia.
    + rewrite Hb2. simpl. by rewrite <- app_assoc.
    + by rewrite Hp2.
    + by rewrite Hn2.
Qed.

(** X29.  A forward [skip] onto a suggestion accepts it.  In a root that
    holds the atoms [xs], then the childless command atoms [c :: cs], the
    first of them a suggestion, then [rest], which does not start with a
    command atom: from the caret after [xs] the skip returns [true],
    announces the move, puts the caret after the last of the command atoms,
    and leaves the root with the same atoms, each command atom of the run
    with [isSuggestion = false]. *)
Theorem skip_accepts_suggestion fuel (extend : bool) (xs cs rest : list Atom) c :
  let doc := document (xs ++ (c :: cs) ++ rest) in
  let p := Z.of_nat (run_size xs) in
  (forall b, last (sentinel :: xs) = Some b -> type b <> msubsup) ->
  class c = CommandAtom true ->
  Forall (fun a => (exists s, class a = CommandAtom s) /\ size a = O)
         (c :: cs) ->
  (forall r s, head rest = Some r -> class r <> CommandAtom s) ->
  (S (length cs) <= fuel)%nat ->
  exists m',
    skip fuel forward extend (caretAt p doc)
    = Ok (true, m', [Announce Move (Some p)])
    /\ position m' = p + 1 + Z.of_nat (length cs)
    /\ anchor m' = (if extend then p else position m')
    /\ branches (root m') body
       = Some (sentinel :: xs ++ map accepted (c :: cs) ++ rest).
Proof.
  intros doc p Hlast Hc Hall Hrest Hf.
  set (m := caretAt p doc).
  set (L := sentinel :: xs ++ (c :: cs) ++ rest).
  assert (branches (root m) above = None) as Ha by reflexivity.
  assert (branches (root m) body = Some L) as Hb by reflexivity.
  assert ((if extend then m else collapseTo forward m) = m) as Hm1.
  { destruct extend; [done|]. unfold collapseTo, collapsed, m. simpl.
    by rewrite bool_decide_eq_true_2. }
  (* the atom at the caret, and the one after it *)
  destruct (last (sentinel :: xs)) as [b|] eqn:Eb.
  2:{ by rewrite last_cons in Eb; destruct (last xs). }
  pose proof (Hlast b eq_refl) as Hty.
  rewrite last_lookup in Eb. simpl in Eb.
  assert (L !! length xs = Some b) as Hib.
  { unfold L. rewrite app_comm_cons.
    rewrite lookup_app_l by (simpl; lia). done. }
  assert (L !! S (length xs) = Some c) as Hic.
  { unfold L. rewrite app_comm_cons.
    rewrite lookup_app_r by (simpl; lia). simpl.
    by rewrite Nat.sub_diag. }
  assert (take (S (length xs)) L = sentinel :: xs) as Htake.
  { unfold L. simpl. f_equal. by rewrite take_app_length. }
  pose proof (run_size_take_S L _ _ Hib) as Hsz. rewrite Htake in Hsz.
  rewrite run_size_cons in Hsz. change (size sentinel) with O in Hsz.
  apply Forall_cons in Hall as Hall'. destruct Hall' as [[_ Hs] _].
  pose proof (at_body m L Ha Hb _ _ Hib) as Hat0.
  replace (Z.of_nat _) with p in Hat0 by (unfold p; lia).
  pose proof (at_body m L Ha Hb _ _ Hic) as Hat1.
  rewrite Htake, run_size_cons, Hs in Hat1.
  replace (Z.of_nat _) with (p + 1) in Hat1
    by (unfold p; change (size sentinel) with O; lia).
  (* the loop *)
  destruct (acceptSuggestion_run rest (c :: cs) fuel m (sentinel :: xs)
              (p + 1) Ha Hb) as (m' & Hrun & _ & Hb' & Hp' & Hn').
  { simpl. lia. }
  { eapply Forall_impl; [exact Hall|]. intros a [[s Hcs] Hsa].
    split; [|done]. unfold isCommandAtom. simpl. by rewrite Hcs. }
  { destruct rest as [|r rest']; [done|]. simpl.
    pose proof (Hrest r) as Hr. unfold isCommandAtom. simpl.
    destruct (class r) as [| |s|] eqn:Er; try done.
    by destruct (Hr s eq_refl). }
  change (length (sentinel :: xs)) with (S (length xs)) in Hrun.
  rewrite (locate_body m L Hb), Hic in Hrun. simpl fmap in Hrun.
  simpl length in Hrun. rewrite run_size_cons in Hrun.
  change (size sentinel) with O in Hrun.
  set (o := p + 1 + Z.of_nat (length cs)).
  replace (Z.of_nat _ - 1) with o in Hrun by (unfold o, p; lia).
  (* the skip *)
  exists (setCursor (if extend then p else o) o m').
  split; [|simpl; split; [done|split; [by destruct extend|done]]].
  rewrite skip_eq. rewrite Hm1. unfold skipFrom.
  rewrite decide_True by done.
  change (position m) with p. rewrite Hat0. simpl.
  rewrite decide_False by done. rewrite Hat1.
  assert (skipTarget fuel forward (MkLoc [(body, S (length xs))] c) m
          = Ok (Some o, m', [])) as ->.
  { unfold skipTarget. rewrite bind_getModel.
    unfold isTextAtom, isCommandAtom, isSuggestion. simpl. rewrite Hc.
    rewrite bind_liftResult. rewrite (offsetOf_at _ _ _ Hat1), Hrun.
    by run. }
  rewrite decide_False by (rewrite Hp'; change (position m) with p;
                           unfold o; lia).
  simpl. by rewrite Hn'.
Qed.

(** The theorem on the typed letter s followed by the suggestion
    i, n: from offset 1 the skip goes to offset 3, and leaves s, i, n all
    typed. *)
Lemma skip_accepts_suggestion_witness :
  exists m',
    skip 2 forward false (caretAt 1 sinSuggested)
    = Ok (true, m', [Announce Move (Some 1)])
    /\ position m' = 3
    /\ branches (root m') body
       = Some [sentinel; typed "s"; typed "i"; typed "n"].
Proof.
  destruct (skip_accepts_suggestion 2 false [typed "s"] [suggested "n"] []
              (suggested "i")) as (m' & H & Hp & _ & Hb).
  - intros b [= <-]. discriminate.
  - reflexivity.
  - repeat constructor; by eexists.
  - discriminate.
  - simpl. lia.
  - exists m'. split; [exact H|]. split; [exact Hp|exact Hb].
Defined.

(* ================================================================== *)
(** * Part XXIII: balanced fences in any branch                      *)
(* ================================================================== *)

Section FencesAnywhere.

Context (m : Model) (owner : Loc) (br : BranchName).
Context (pre : list Atom) (prev a b c : Atom).
Hypothesis a_plain : notFence a.
Hypothesis b_plain : notFence b.
Hypothesis c_plain : notFence c.
Hypothesis the_owner : locate m (path owner) = Some owner.
Hypothesis the_branch :
  branches (node owner) br
  = Some (pre ++ [prev; sym mopen "("; a; sym mopen "("; b; sym mclose ")";
                  c; sym mclose ")"]).

(** The [j]-th of the eight siblings, [prev] being the first. *)
Let here (j : nat) (x : Atom) : Loc :=
  MkLoc ((br, (j + length pre)%nat) :: path owner) x.

Let group : list Atom :=
  [prev; sym mopen "("; a; sym mopen "("; b; sym mclose ")"; c;
   sym mclose ")"].

Lemma anywhere_locate j x :
  group !! j = Some x ->
  locate m ((br, (j + length pre)%nat) :: path owner) = Some (here j x).
Proof.
  intros H. destruct (locate_inv _ _ _ the_owner) as [_ [b0 Hw]].
  apply (locate_cons m br _ (path owner) b0 (node owner) _ x Hw the_branch).
  rewrite lookup_app_r by lia. by rewrite Nat.add_sub.
Qed.

Lemma anywhere_rightSibling j x y :
  group !! S j = Some y -> rightSibling m (here j x) = Some (here (S j) y).
Proof. intros H. unfold rightSibling. simpl. exact (anywhere_locate (S j) y H). Qed.

Lemma anywhere_inner j x y :
  group !! S j = Some y -> isLastSibling m (here j x) = false.
Proof.
  intros H. unfold isLastSibling. by rewrite (anywhere_rightSibling j x y H).
Qed.

Lemma anywhere_edge x : isLastSibling m (here 7 x) = true.
Proof.
  unfold isLastSibling, rightSibling. simpl.
  destruct (locate_inv _ _ _ the_owner) as [_ [b0 Hw]].
  rewrite (locate_cons_None m br _ (path owner) b0 (node owner) _ Hw
             the_branch); [done|].
  apply lookup_ge_None. rewrite length_app. simpl. lia.
Qed.

Lemma anywhere_level (j : nat) (x : Atom) (level : Z) :
  x = a \/ x = b \/ x = c -> fenceLevel (here j x) level = level.
Proof.
  intros [-> | [-> | ->]]; apply fenceLevel_plain; simpl;
    unfold notFence in *; tauto.
Qed.

Ltac anywhere_ne :=
  rewrite ?(anywhere_level _ a), ?(anywhere_level _ b),
          ?(anywhere_level _ c) by tauto;
  vm_compute; discriminate.

Ltac anywhere_turn x :=
  rewrite (balance_step _ _ _ _ x);
    [|apply anywhere_rightSibling; reflexivity
     |eapply anywhere_inner; reflexivity|anywhere_ne].

(** The walk stops on the outer close fence, the last sibling, one level
    open. *)
Lemma anywhere_balance k :
  balance (6 + k) (rightSibling m) (isLastSibling m)
          (here 1 (sym mopen "(")) 0
  = Ok (here 7 (sym mclose ")"), k).
Proof.
  change (6 + k)%nat with (S (S (S (S (S (S k)))))).
  anywhere_turn (here 2 a).
  anywhere_turn (here 3 (sym mopen "(")).
  anywhere_turn (here 4 b).
  anywhere_turn (here 5 (sym mclose ")")).
  anywhere_turn (here 6 c).
  apply balance_stop; [apply anywhere_rightSibling; reflexivity|].
  apply anywhere_edge.
Qed.

(** Each sibling sits after the one before it. *)
Lemma anywhere_offsets j x y :
  group !! j = Some x -> group !! S j = Some y ->
  at_ m (offsetOf m (here j x)) = Some (here j x)
  /\ offsetOf m (here (S j) y)
     = offsetOf m (here j x) + Z.of_nat (size y) + 1
  /\ at_ m (offsetOf m (here (S j) y)) = Some (here (S j) y).
Proof.
  intros Hx Hy.
  assert (at_ m (offsetOf m (here j x)) = Some (here j x)) as Hat.
  { apply (at_offsetOf _ ((br, (j + length pre)%nat) :: path owner));
      [done|]. by apply anywhere_locate. }
  split; [done|].
  exact (rightSibling_offset m _ _ (here (S j) y) Hat
           (anywhere_rightSibling j x y Hy)).
Qed.

End FencesAnywhere.

Lemma size_sym t v : size (sym t v) = O.
Proof. by apply size_no_branches. Qed.

(** C3.  For sibling atoms ( a ( b ) c ) that end a branch, anywhere in the
    tree, with a, b and c any atoms that are not fences: from the caret
    just before the outer open fence, that is at the offset of the sibling
    [prev] before it, [skip(forward)] returns [true], announces the move
    and puts the caret just before the matching outer close fence: at the
    offset of c, where the close fence is the next atom. *)
Theorem fence_balance_forward fuel m owner br pre prev a b c :
  notFence a -> notFence b -> notFence c ->
  let m1 := collapseTo forward m in
  locate m1 (path owner) = Some owner ->
  branches (node owner) br
  = Some (pre ++ [prev; sym mopen "("; a; sym mopen "("; b; sym mclose ")";
                  c; sym mclose ")"]) ->
  let here j x := MkLoc ((br, (j + length pre)%nat) :: path owner) x in
  position m1 = offsetOf m1 (here 0%nat prev) ->
  (6 <= fuel)%nat ->
  let o := offsetOf m1 (here 6%nat c) in
  at_ m1 (position m1 + 1) = Some (here 1%nat (sym mopen "("))
  /\ at_ m1 (o + 1) = Some (here 7%nat (sym mclose ")"))
  /\ skip fuel forward false m
     = Ok (true, setCursor o o m1, [Announce Move (Some (position m))]).
Proof.
  intros Ha Hb Hc m1 Ho Hbr here Hpos Hf o.
  pose proof (anywhere_offsets m1 owner br pre prev a b c Ho Hbr) as Hoff.
  destruct (Hoff 0%nat prev _ eq_refl eq_refl) as (H0 & E1 & H1).
  destruct (Hoff 1%nat _ a eq_refl eq_refl) as (_ & E2 & H2).
  destruct (Hoff 2%nat _ (sym mopen "(") eq_refl eq_refl) as (_ & E3 & H3).
  destruct (Hoff 3%nat _ b eq_refl eq_refl) as (_ & E4 & H4).
  destruct (Hoff 4%nat _ (sym mclose ")") eq_refl eq_refl) as (_ & E5 & H5).
  destruct (Hoff 5%nat _ c eq_refl eq_refl) as (_ & E6 & H6).
  destruct (Hoff 6%nat _ (sym mclose ")") eq_refl eq_refl) as (_ & E7 & H7).
  clear Hoff. subst o here. cbv beta in *.
  rewrite <- Hpos in E1, H0. rewrite !size_sym in *.
  set (o := offsetOf m1 (MkLoc ((br, (6 + length pre)%nat) :: path owner) c))
    in *.
  assert (at_ m1 (position m1 + 1)
          = Some (MkLoc ((br, (1 + length pre)%nat) :: path owner)
                        (sym mopen "("))) as A1
    by (rewrite <- H1; f_equal; lia).
  assert (at_ m1 (o + 1)
          = Some (MkLoc ((br, (7 + length pre)%nat) :: path owner)
                        (sym mclose ")"))) as A7
    by (rewrite <- H7; f_equal; lia).
  split; [exact A1|]. split; [exact A7|].
  rewrite skip_eq. cbv zeta. fold m1.
  assert (skipFrom m1 forward
          = Ok (Some (MkLoc ((br, (1 + length pre)%nat) :: path owner)
                            (sym mopen "(")))) as ->.
  { pose proof (anywhere_rightSibling m1 owner br pre prev a b c Ho Hbr
                  0 prev (sym mopen "(") eq_refl) as Hrs.
    cbv beta in Hrs.
    unfold skipFrom. rewrite decide_True by done. rewrite H0.
    unfold defined, mbind, Result_bind. cbv beta iota. cbn [node].
    case_decide; [by rewrite Hrs|by rewrite A1]. }
  assert (skipTarget fuel forward
            (MkLoc ((br, (1 + length pre)%nat) :: path owner) (sym mopen "("))
            m1
          = Ok (Some o, m1, [])) as ->.
  { unfold skipTarget. rewrite bind_getModel.
    set (opening := MkLoc ((br, (1 + length pre)%nat) :: path owner)
                          (sym mopen "(")).
    change (isTextAtom opening) with false.
    change (isCommandAtom opening) with false.
    cbv iota. rewrite decide_True by done. rewrite bind_liftResult.
    replace fuel with (6 + (fuel - 6))%nat by lia.
    rewrite (anywhere_balance m1 owner br pre prev a b c Ha Hb Hc Ho Hbr).
    cbv beta iota. rewrite bind_liftResult.
    assert (leftSibling m1
              (MkLoc ((br, (7 + length pre)%nat) :: path owner)
                     (sym mclose ")"))
            = Some (MkLoc ((br, (6 + length pre)%nat) :: path owner) c))
      as ->.
    { unfold leftSibling. simpl.
      exact (anywhere_locate m1 owner br pre prev a b c Ho Hbr 6 c eq_refl). }
    reflexivity. }
  rewrite decide_False by lia. reflexivity.
Qed.

(** The theorem on ( a ( b ) c ) in the body of the root, after the
    sentinel: from offset 0 the caret goes to offset 6, and the outer close
    fence is the atom at offset 7. *)
Lemma fence_balance_forward_witness :
  at_ (caretAt 0 fences) 1 = Some (inBody 1 (sym mopen "("))
  /\ at_ (caretAt 0 fences) 7 = Some (inBody 7 (sym mclose ")"))
  /\ skip 8 forward false (caretAt 0 fences)
     = Ok (true, caretAt 6 fences, [Announce Move (Some 0)]).
Proof.
  assert (forall v, notFence (sym mord v)) as H by (by split).
  apply (fence_balance_forward 8 (caretAt 0 fences)
           (MkLoc [] fences) body [] sentinel (sym mord "a") (sym mord "b")
           (sym mord "c") (H "a") (H "b") (H "c")).
  - reflexivity.
  - reflexivity.
  - vm_compute. reflexivity.
  - lia.
Defined.

(** The same in the numerator of a fraction, after x: from offset 2, the
    sentinel of the numerator, the caret goes to offset 8, and the outer
    close fence is the atom at offset 9. *)
Example fences_in_a_numerator :
  let doc :=
    document [sym mord "x";
              setBranch (sym genfrac "") above
                [sentinel; sym mopen "("; sym mord "a"; sym mopen "(";
                 sym mord "b"; sym mclose ")"; sym mord "c";
                 sym mclose ")"]] in
  typeOf (at_ (caretAt 2 doc) 3) = Some mopen
  /\ typeOf (at_ (caretAt 2 doc) 9) = Some mclose
  /\ skip 11 forward false (caretAt 2 doc)
     = Ok (true, caretAt 8 doc, [Announce Move (Some 2)]).
Proof. repeat split; vm_compute; reflexivity. Qed.
